(** * AetherFrequency: the field simulation of [simulation.service.ts]

    A shallow embedding of [src/core/models.ts] and
    [src/services/simulation.service.ts], and of the bookkeeping of the
    effects of [src/components/scene/scene.component.ts].

    Conventions of the embedding.
    - A JavaScript [number] is a rational ([Q]) and the arithmetic is
      exact.  The code computes with IEEE doubles: the two agree where the
      operations of the code are exact (integers and halves of moderate
      size, as on the lattice of the grid) and may differ in the last bits
      elsewhere; overflow and [NaN] are not modelled.  No statement below
      gives the value of a quantity after the accumulated arithmetic of
      several ticks.
    - [Math.random()] and [Date.now()] are inputs: every operation takes the
      values that its calls to [Math.random] return, in call order, and
      reads the time from the logical clock of the world.
    - [Math.sqrt] (reached through [THREE.Vector3.length]) is a parameter.
    - [setTimeout] appends a task to the queue of pending timers of the
      world; the queue is run by [advance].
    - Colours, the wave pattern and the console output do not influence any
      other field and are left out.
    - The identifier of a particle is printed from [Math.random], so two
      particles can carry the same one.  The code finds a particle by its
      identifier and takes the first match; the statements about
      collisions are made for stores whose identifiers are pairwise
      distinct, and the sample stores [clones], [twins] and [aliased] show
      the code on repeated identifiers. *)

From Stdlib Require Import ZArith QArith Qround Qabs Qminmax Lqa Lia.
From Stdlib Require Import String Ascii DecimalString DecimalZ DecimalPos.
From stdpp Require Import base list strings gmap.

Local Open Scope Z_scope.
Local Open Scope Q_scope.

(** ** JavaScript numbers *)

Module Js.

(** [Math.round]: nearest integer, halves towards plus infinity. *)
Definition round (x : Q) : Q := inject_Z (Qfloor (x + (1 # 2))).

(** [Math.floor] *)
Definition floor (x : Q) : Z := Qfloor x.

(** Truncation towards zero, as used by the remainder operator. *)
Definition trunc (x : Q) : Z :=
  if Qle_bool 0 x then Qfloor x else Qceiling x.

(** The [%] operator: the result takes the sign of the dividend. *)
Definition rem (a b : Q) : Q := a - inject_Z (trunc (a / b)) * b.

(** [Math.max], [Math.min], [Math.abs], [Math.pow(_, 2)] *)
Definition max (a b : Q) : Q := Qmax a b.
Definition min (a b : Q) : Q := Qmin a b.
Definition abs (a : Q) : Q := Qabs a.
Definition sq (a : Q) : Q := a * a.

(** [a > b], [a >= b], [a < b] on numbers *)
Definition gt (a b : Q) : bool := negb (Qle_bool a b).
Definition ge (a b : Q) : bool := Qle_bool b a.
Definition lt (a b : Q) : bool := negb (Qle_bool b a).

(** Template-literal printing of an integer. *)
Definition show (z : Z) : string := NilZero.string_of_int (Z.to_int z).

End Js.

(** ** [core/models.ts] *)

Record Vector3 := mkVector3 { vx : Q; vy : Q; vz : Q }.

Record IntersectionNode := mkNode {
  node_id : string;
  position : Vector3;
  frequency : Q;
  intensity : Q;
  isCorner : bool
}.

Record ParticleState := mkParticle {
  id : string;
  baseFrequency : Q;
  locationalFrequency : Q;
  harmonicFactor : Q;
  amplitude : Q;
  energyLevel : Q;
  targetNodeId : option string
}.

Record CollisionEvent := mkCollision {
  collision_id : string;
  nodeId : string;
  particleIds : list string;
  collision_timestamp : Z
}.

Record SupernovaEvent := mkSupernova {
  supernova_id : string;
  supernova_position : Vector3;
  supernova_timestamp : Z
}.

Module SIM_CONFIG.
Definition GRID_SIZE : Z := 7.
Definition SPACING : Z := 4.
Definition FREQ_RANGE : Q * Q := (100, 999).
Definition DEFAULT_AMPLITUDE : Q := 4 # 10.
Definition MAX_PARTICLES : nat := 8.
End SIM_CONFIG.

Definition calculateNodeFrequency (pos : Vector3) : Q :=
  let xComp := (vx pos + 20) * (15 # 10) in
  let yComp := (vy pos + 20) * 10 in
  let zComp := (vz pos + 20) * (5 # 10) in
  Js.round (fst SIM_CONFIG.FREQ_RANGE
            + Js.rem (xComp + yComp + zComp)
                     (snd SIM_CONFIG.FREQ_RANGE - fst SIM_CONFIG.FREQ_RANGE)).

(** The integers [lo, lo+1, ..., lo+n-1]: the range of a [for] loop. *)
Definition zrange (lo : Z) (n : nat) : list Z :=
  (fun k => (lo + Z.of_nat k)%Z) <$> seq 0 n.

(** The body of the innermost loop of [initializeNodes]. *)
Definition makeNode (half x y z : Z) : IntersectionNode :=
  let pos := mkVector3 (inject_Z (x * SIM_CONFIG.SPACING))
                       (inject_Z (y * SIM_CONFIG.SPACING))
                       (inject_Z (z * SIM_CONFIG.SPACING)) in
  let freq := calculateNodeFrequency pos in
  let corner := (Z.abs x =? half)%Z && (Z.abs y =? half)%Z && (Z.abs z =? half)%Z in
  {| node_id := (Js.show x +:+ "_" +:+ Js.show y +:+ "_" +:+ Js.show z)%string;
     position := pos;
     frequency := freq;
     intensity := 2 # 10;
     isCorner := corner |}.

(** The three nested loops of [initializeNodes] for a grid of [size]
    points a side. *)
Definition generateNodes (size : Z) : list IntersectionNode :=
  let half := (size / 2)%Z in
  let axis := zrange (- half) (Z.to_nat (2 * half + 1)) in
  x ← axis; y ← axis; z ← axis; [makeNode half x y z].

(** ** [services/simulation.service.ts]: the state *)

(** A task handed to [setTimeout]. *)
Inductive Task :=
| ExpireCollision (event_id : string)
| ExpireSupernova (event_id : string)
| Respawn.

(** The signals of [SimulationService], the pending timers and the clock.
    [gridRotation] is kept as the sequence of the axis-angle rotations
    premultiplied so far, most recent first. *)
Record World := mkWorld {
  nodes : list IntersectionNode;
  particles : list ParticleState;
  collisionEvents : list CollisionEvent;
  supernovaEvents : list SupernovaEvent;
  gridRotation : list (Vector3 * Q);
  gridAngularVelocity : Vector3;
  timers : list (Z * Task);
  clock : Z
}.

Definition set_nodes (ns : list IntersectionNode) (w : World) : World :=
  mkWorld ns (particles w) (collisionEvents w) (supernovaEvents w)
          (gridRotation w) (gridAngularVelocity w) (timers w) (clock w).

Definition set_particles (ps : list ParticleState) (w : World) : World :=
  mkWorld (nodes w) ps (collisionEvents w) (supernovaEvents w)
          (gridRotation w) (gridAngularVelocity w) (timers w) (clock w).

Definition set_collisionEvents (es : list CollisionEvent) (w : World) : World :=
  mkWorld (nodes w) (particles w) es (supernovaEvents w)
          (gridRotation w) (gridAngularVelocity w) (timers w) (clock w).

Definition set_supernovaEvents (es : list SupernovaEvent) (w : World) : World :=
  mkWorld (nodes w) (particles w) (collisionEvents w) es
          (gridRotation w) (gridAngularVelocity w) (timers w) (clock w).

Definition set_gridRotation (r : list (Vector3 * Q)) (w : World) : World :=
  mkWorld (nodes w) (particles w) (collisionEvents w) (supernovaEvents w)
          r (gridAngularVelocity w) (timers w) (clock w).

Definition set_gridAngularVelocity (v : Vector3) (w : World) : World :=
  mkWorld (nodes w) (particles w) (collisionEvents w) (supernovaEvents w)
          (gridRotation w) v (timers w) (clock w).

Definition set_timers (ts : list (Z * Task)) (w : World) : World :=
  mkWorld (nodes w) (particles w) (collisionEvents w) (supernovaEvents w)
          (gridRotation w) (gridAngularVelocity w) ts (clock w).

Definition set_clock (t : Z) (w : World) : World :=
  mkWorld (nodes w) (particles w) (collisionEvents w) (supernovaEvents w)
          (gridRotation w) (gridAngularVelocity w) (timers w) t.

(** [setTimeout(task, delay)] *)
Definition setTimeout (task : Task) (delay : Z) (w : World) : World :=
  set_timers (timers w ++ [((clock w + delay)%Z, task)]) w.

(** The fields of a particle that the service assigns to. *)
Definition set_targetNodeId (t : option string) (p : ParticleState) : ParticleState :=
  mkParticle (id p) (baseFrequency p) (locationalFrequency p) (harmonicFactor p)
             (amplitude p) (energyLevel p) t.

Definition set_harmonicFactor (h : Q) (p : ParticleState) : ParticleState :=
  mkParticle (id p) (baseFrequency p) (locationalFrequency p) h
             (amplitude p) (energyLevel p) (targetNodeId p).

Definition set_amplitude (a : Q) (p : ParticleState) : ParticleState :=
  mkParticle (id p) (baseFrequency p) (locationalFrequency p) (harmonicFactor p)
             a (energyLevel p) (targetNodeId p).

Definition set_energyLevel (e : Q) (p : ParticleState) : ParticleState :=
  mkParticle (id p) (baseFrequency p) (locationalFrequency p) (harmonicFactor p)
             (amplitude p) e (targetNodeId p).

(** The state before the constructor runs. *)
Definition blank (now : Z) : World :=
  mkWorld [] [] [] [] [] (mkVector3 0 0 0) [] now.

Definition initializeNodes (w : World) : World :=
  set_nodes (generateNodes SIM_CONFIG.GRID_SIZE) w.

(** ** Nearest node *)

(** The callback of the [reduce] in [findNearestNode]. *)
Definition nearer (freq : Q) (prev curr : IntersectionNode) : IntersectionNode :=
  if Js.lt (Js.abs (frequency curr - freq)) (Js.abs (frequency prev - freq))
  then curr else prev.

(** [reduce] without an initial value starts from the first element. *)
Definition findNearestNode (w : World) (freq : Q) : option IntersectionNode :=
  match nodes w with
  | [] => None
  | first :: rest => Some (fold_left (nearer freq) rest first)
  end.

(** [s || null] for a string [s]: the empty string is falsy. *)
Definition or_null (s : string) : option string :=
  if String.eqb s EmptyString then None else Some s.

Definition updateTargetNodes (w : World) : World :=
  set_particles
    ((fun p => set_targetNodeId
                 (n ← findNearestNode w (locationalFrequency p); or_null (node_id n)) p)
     <$> particles w) w.

(** ** Spawning *)

(** The values returned by the calls of [Math.random] in [spawnParticle]
    that reach the particle: the first call ([pick]: the node choice, or
    the fallback frequency), the second ([jitter]), and the identifier
    printed from the next one ([fresh_id]). *)
Record SpawnEntropy := mkSpawnEntropy {
  pick : Q;
  jitter : Q;
  fresh_id : string
}.

(** [array[i]] for an integer [i]; [None] stands for [undefined]. *)
Definition at_index {A} (l : list A) (i : Z) : option A :=
  if (i <? 0)%Z then None else l !! Z.to_nat i.

(** The frequency chosen when no position is given; [None] when the index
    misses the array (the access then throws before any update). *)
Definition randomFrequency (e : SpawnEntropy) (w : World) : option Q :=
  let nonCornerNodes := List.filter (fun n => negb (isCorner n)) (nodes w) in
  if (0 <? length nonCornerNodes)%nat then
    randomNode ← at_index nonCornerNodes
        (Js.floor (pick e * inject_Z (Z.of_nat (length nonCornerNodes))));
    Some (frequency randomNode + (jitter e - (5 # 10)) * 10)
  else Some (200 + pick e * 600).

Definition newParticle (e : SpawnEntropy) (freq : Q) : ParticleState :=
  {| id := fresh_id e;
     baseFrequency := freq;
     locationalFrequency := freq;
     harmonicFactor := 1;
     amplitude := SIM_CONFIG.DEFAULT_AMPLITUDE;
     energyLevel := 1 # 10;
     targetNodeId := None |}.

Definition spawnParticle (pos : option Vector3) (e : SpawnEntropy) (w : World) : World :=
  if (SIM_CONFIG.MAX_PARTICLES <=? length (particles w))%nat then w
  else
    match (match pos with
           | Some p => Some (calculateNodeFrequency p)
           | None => randomFrequency e w
           end) with
    | None => w
    | Some freq =>
        updateTargetNodes (set_particles (particles w ++ [newParticle e freq]) w)
    end.

(** ** Vectors *)

Definition multiplyScalar (s : Q) (v : Vector3) : Vector3 :=
  mkVector3 (vx v * s) (vy v * s) (vz v * s).

Definition add (v t : Vector3) : Vector3 :=
  mkVector3 (vx v + vx t) (vy v + vy t) (vz v + vz t).

Definition lengthSq (v : Vector3) : Q :=
  vx v * vx v + vy v * vy v + vz v * vz v.

Definition crossVectors (a b : Vector3) : Vector3 :=
  mkVector3 (vy a * vz b - vz a * vy b)
            (vz a * vx b - vx a * vz b)
            (vx a * vy b - vy a * vx b).

(** ** The field tick *)

(** The values returned by [Math.random] during one tick: [drift_noise i]
    for the particle at index [i] of the store, and those of the spawn of
    the threshold rule. *)
Record TickEntropy := mkTickEntropy {
  drift_noise : nat -> Q;
  threshold_spawn : SpawnEntropy
}.

(** The locals of the callback passed to [particles.update], together with
    the world it writes to.  [updated] is the array of fresh particle
    objects; an object of that array is referred to by its index. *)
Record Pass := mkPass {
  world : World;
  updated : list ParticleState;
  particleIdsToRemove : gset string;
  explosionsToProcess : nat
}.

Definition on_world (f : World -> World) (a : Pass) : Pass :=
  mkPass (f (world a)) (updated a) (particleIdsToRemove a) (explosionsToProcess a).

Definition set_updated (u : list ParticleState) (a : Pass) : Pass :=
  mkPass (world a) u (particleIdsToRemove a) (explosionsToProcess a).

(** [nodes.find(n => n.id === nodeId)] *)
Definition findNode (w : World) (nid : string) : option IntersectionNode :=
  snd <$> list_find (fun n => node_id n = nid) (nodes w).

(** [updated.findIndex(p => p.id === pId)] and [updated.find(...)] *)
Definition findIndex (u : list ParticleState) (pid : string) : option nat :=
  fst <$> list_find (fun p => id p = pid) u.

Definition findParticle (u : list ParticleState) (pid : string) : option ParticleState :=
  snd <$> list_find (fun p => id p = pid) u.

(** [nodeOccupancy]: a [Map] iterates in the order of first insertion. *)
Definition Occupancy := list (string * list string).

Fixpoint occupy (nid pid : string) (occ : Occupancy) : Occupancy :=
  match occ with
  | [] => [(nid, [pid])]
  | (k, pids) :: rest =>
      if String.eqb k nid then (k, pids ++ [pid]) :: rest
      else (k, pids) :: occupy nid pid rest
  end.

(** Step 2 of the tick for one particle: the target is assigned in place
    and the particle is entered in the occupancy. *)
Definition assignTarget (w : World) (st : list ParticleState * Occupancy)
    (p : ParticleState) : list ParticleState * Occupancy :=
  match findNearestNode w (locationalFrequency p) with
  | Some target =>
      (st.1 ++ [set_targetNodeId (Some (node_id target)) p],
       occupy (node_id target) (id p) st.2)
  | None => (st.1 ++ [p], st.2)
  end.

Definition assignTargets (w : World) (u : list ParticleState)
    : list ParticleState * Occupancy :=
  fold_left (assignTarget w) u ([], []).

(** The mean of a field over a non-empty list of particles. *)
Definition mean (f : ParticleState -> Q) (ps : list ParticleState) : Q :=
  fold_left (fun acc p => acc + f p) ps 0 / inject_Z (Z.of_nat (length ps)).

(** The quantities computed for one colliding particle. *)
Definition resonanceFactor (current : ParticleState) (others : list ParticleState) : Q :=
  let maxFreqDiff := snd SIM_CONFIG.FREQ_RANGE - fst SIM_CONFIG.FREQ_RANGE in
  let freqDifference := Js.abs (baseFrequency current - mean baseFrequency others) in
  Js.sq (1 - freqDifference / maxFreqDiff).

Definition amplitudeFactor (current : ParticleState) (others : list ParticleState) : Q :=
  (amplitude current + mean amplitude others) / 2.

Definition harmonicIncrease (current : ParticleState) (others : list ParticleState) : Q :=
  resonanceFactor current others * amplitudeFactor current others
  * ((6 # 10) + inject_Z (Z.of_nat (length others)) * (2 # 10)).

(** The object at index [i] after the three assignments of the callback. *)
Definition resonate (current : ParticleState) (others : list ParticleState)
    (target : ParticleState) : ParticleState :=
  set_energyLevel
    (Js.min 1 (energyLevel current + (2 # 10) * inject_Z (Z.of_nat (length others))))
    (set_amplitude
       (Js.min 1 (amplitude current + amplitudeFactor current others * (15 # 100)))
       (set_harmonicFactor
          (Js.min 4 (harmonicFactor target + harmonicIncrease current others))
          target)).

(** The callback of [collidingParticles.forEach]: [refs] are the colliding
    objects, [ref] the current one, [st] the array and the flag
    [supernovaTriggered].  The fields of the other particles are read from
    the array as it is when the callback runs. *)
Definition collideOne (refs : list nat) (st : list ParticleState * bool) (ref : nat)
    : list ParticleState * bool :=
  let u := st.1 in
  match u !! ref with
  | None => st
  | Some currentParticle =>
      let otherParticles :=
        filter (fun p => id p <> id currentParticle) (omap (fun r => u !! r) refs) in
      if (length otherParticles =? 0)%nat then st
      else
        match findIndex u (id currentParticle) with
        | None => st
        | Some currentParticleIndex =>
            match u !! currentParticleIndex with
            | None => st
            | Some target =>
                let result := resonate currentParticle otherParticles target in
                (<[currentParticleIndex := result]> u,
                 if Js.ge (energyLevel result) 1 then true else st.2)
            end
        end
  end.

Section Dynamics.

(** [Math.sqrt] *)
Variable Math_sqrt : Q -> Q.

Definition vlength (v : Vector3) : Q := Math_sqrt (lengthSq v).

(** [v.normalize()] is [v.divideScalar(v.length() || 1)] *)
Definition normalize (v : Vector3) : Vector3 :=
  let l := vlength v in
  multiplyScalar (1 / (if Qeq_bool l 0 then 1 else l)) v.

(** Damping and the integration of the rotation. *)
Definition rotate (w : World) : World :=
  let w1 := set_gridAngularVelocity
              (multiplyScalar (97 # 100) (gridAngularVelocity w)) w in
  if Js.gt (lengthSq (gridAngularVelocity w1)) (1 # 1000000)
  then set_gridRotation
         ((normalize (gridAngularVelocity w1), vlength (gridAngularVelocity w1))
          :: gridRotation w1) w1
  else w1.

(** Step 1 of the tick for the particle [p], [noise] being the value
    returned by [Math.random]. *)
Definition driftAndDecay (w : World) (noise : Q) (p : ParticleState) : ParticleState :=
  let drift := (noise - (5 # 10)) * 4 in
  let angularVel := gridAngularVelocity w in
  let drift :=
    if Js.gt (lengthSq angularVel) (1 # 1000000) then
      match n ← targetNodeId p; findNode w n with
      | Some targetNode =>
          let influenceVec := crossVectors angularVel (position targetNode) in
          drift + (vx influenceVec + vy influenceVec + vz influenceVec) * 25
      | None => drift
      end
    else drift in
  let newFreq := locationalFrequency p + drift in
  let newFreq := Js.max 100 (Js.min 999 newFreq) in
  let decayedAmp := Js.max SIM_CONFIG.DEFAULT_AMPLITUDE (amplitude p - (5 # 1000)) in
  let decayedHarmonic := Js.max 1 (harmonicFactor p - (2 # 100)) in
  let decayedEnergy := Js.max (1 # 10) (energyLevel p - (2 # 1000)) in
  mkParticle (id p) (baseFrequency p) newFreq decayedHarmonic decayedAmp
             decayedEnergy (targetNodeId p).

(** The corner weight mechanic for one occupant of the corner [node]. *)
Definition cornerTorque (node : IntersectionNode) (a : Pass) (pId : string) : Pass :=
  match findParticle (updated a) pId with
  | Some particle =>
      if Js.gt (energyLevel particle) (2 # 10) then
        let torque := multiplyScalar (energyLevel particle * (5 # 10000))
                                     (normalize (position node)) in
        on_world (fun w => set_gridAngularVelocity (add (gridAngularVelocity w) torque) w) a
      else a
  | None => a
  end.

(** The collision branch of the callback of [nodeOccupancy.forEach]. *)
Definition collide (node : IntersectionNode) (nid : string) (pIds : list string)
    (a : Pass) : Pass :=
  let now := clock (world a) in
  let collisionEvent :=
    mkCollision (nid +:+ "-" +:+ Js.show now) nid pIds now in
  let a := on_world (fun w =>
             setTimeout (ExpireCollision (collision_id collisionEvent)) 1500
               (set_collisionEvents (collisionEvents w ++ [collisionEvent]) w)) a in
  let collidingParticles := omap (findIndex (updated a)) pIds in
  let '(u, supernovaTriggered) :=
    if (1 <? length collidingParticles)%nat
    then fold_left (collideOne collidingParticles) collidingParticles (updated a, false)
    else (updated a, false) in
  let a := set_updated u a in
  if supernovaTriggered then
    let supernovaEvent :=
      mkSupernova ("sn-" +:+ nid +:+ "-" +:+ Js.show now) (position node) now in
    let a := on_world (fun w =>
               setTimeout (ExpireSupernova (supernova_id supernovaEvent)) 2000
                 (set_supernovaEvents (supernovaEvents w ++ [supernovaEvent]) w)) a in
    mkPass (world a) (updated a)
           (particleIdsToRemove a ∪ list_to_set pIds)
           (S (explosionsToProcess a))
  else a.

(** The callback of [nodeOccupancy.forEach]. *)
Definition processNode (a : Pass) (entry : string * list string) : Pass :=
  let '(nid, pIds) := entry in
  match findNode (world a) nid with
  | None => a
  | Some node =>
      let a := if isCorner node then fold_left (cornerTorque node) pIds a else a in
      if (1 <? length pIds)%nat then collide node nid pIds a else a
  end.

(** Step 1 of the tick over the store; [Math.random] is called once for
    each particle, in the order of the store. *)
Definition drifted (e : TickEntropy) (w : World) : list ParticleState :=
  imap (fun i p => driftAndDecay w (drift_noise e i) p) (particles w).

(** The callback passed to [particles.update], up to the filter: the pass
    over the store. *)
Definition fieldPass (e : TickEntropy) (w : World) : Pass :=
  let '(assigned, nodeOccupancy) := assignTargets w (drifted e w) in
  fold_left processNode nodeOccupancy (mkPass w assigned ∅ 0%nat).

Definition finalParticles (a : Pass) : list ParticleState :=
  filter (fun p => id p ∉ particleIdsToRemove a) (updated a).

Definition scheduleRespawns (a : Pass) : World :=
  Nat.iter (explosionsToProcess a) (setTimeout Respawn 50) (world a).

(** [particles.update(parts => ...)] *)
Definition updateParticles (e : TickEntropy) (w : World) : World :=
  let a := fieldPass e w in
  set_particles (finalParticles a) (scheduleRespawns a).

Definition globalAmplitude (w : World) : Q :=
  if (length (particles w) =? 0)%nat then 0
  else mean amplitude (particles w).

(** The threshold rule that ends the tick. *)
Definition thresholdRule (e : TickEntropy) (w : World) : World :=
  if Js.ge (globalAmplitude w) (7 # 10) && (length (particles w) <? 3)%nat
  then spawnParticle None (threshold_spawn e) w
  else w.

Definition processFieldDynamics (e : TickEntropy) (w : World) : World :=
  thresholdRule e (updateParticles e (rotate w)).

(** ** Timers and the event loop *)

(** The callbacks handed to [setTimeout]; [e] holds the values of
    [Math.random] for a replacement spawn. *)
Definition runTask (task : Task) (e : SpawnEntropy) (w : World) : World :=
  match task with
  | ExpireCollision i =>
      set_collisionEvents (filter (fun ev => collision_id ev <> i) (collisionEvents w)) w
  | ExpireSupernova i =>
      set_supernovaEvents (filter (fun ev => supernova_id ev <> i) (supernovaEvents w)) w
  | Respawn => spawnParticle None e w
  end.

(** Pending timers run in the order of their due time, and in the order of
    their creation when due together. *)
Fixpoint enqueue (t : Z * Task) (queue : list (Z * Task)) : list (Z * Task) :=
  match queue with
  | [] => [t]
  | t' :: rest =>
      if (t'.1 <=? t.1)%Z then t' :: enqueue t rest else t :: t' :: rest
  end.

Definition inDueOrder (ts : list (Z * Task)) : list (Z * Task) :=
  fold_left (fun queue t => enqueue t queue) ts [].

Definition fire (es : nat -> SpawnEntropy) (st : nat * World) (t : Z * Task) : nat * World :=
  (S st.1, runTask t.2 (es st.1) (set_clock (Z.max t.1 (clock st.2)) st.2)).

(** Time passes until [t]: every timer due by then runs at its due time. *)
Definition advance (t : Z) (es : nat -> SpawnEntropy) (w : World) : World :=
  if (t <=? clock w)%Z then w
  else
    let due := inDueOrder (List.filter (fun x => (x.1 <=? t)%Z) (timers w)) in
    let later := List.filter (fun x => negb (x.1 <=? t)%Z) (timers w) in
    set_clock t (fold_left (fire es) due (0%nat, set_timers later w)).2.

(** What can happen to the service: a call of [spawnParticle] from
    outside, a firing of the 100 ms interval, the passing of time. *)
Inductive Action :=
| Spawn (pos : option Vector3) (e : SpawnEntropy)
| Tick (e : TickEntropy)
| Advance (t : Z) (es : nat -> SpawnEntropy).

Definition perform (w : World) (a : Action) : World :=
  match a with
  | Spawn pos e => spawnParticle pos e w
  | Tick e => processFieldDynamics e w
  | Advance t es => advance t es w
  end.

Definition run (actions : list Action) (w : World) : World :=
  fold_left perform actions w.

(** The constructor, run at time [now]. *)
Definition boot (now : Z) (e : SpawnEntropy) : World :=
  spawnParticle None e (initializeNodes (blank now)).

End Dynamics.


(** ** Auxiliary notions used in the statements *)

(** The two effects of step 2 of the tick, told apart. *)
Definition retarget (w : World) (p : ParticleState) : ParticleState :=
  match findNearestNode w (locationalFrequency p) with
  | Some target => set_targetNodeId (Some (node_id target)) p
  | None => p
  end.

Definition enter (w : World) (occ : Occupancy) (p : ParticleState) : Occupancy :=
  match findNearestNode w (locationalFrequency p) with
  | Some target => occupy (node_id target) (id p) occ
  | None => occ
  end.


(** The array and the occupancy that step 2 of the tick hands to step 3. *)
Definition assigned (e : TickEntropy) (w : World) : list ParticleState :=
  retarget w <$> drifted e w.

Definition nodeOccupancy (e : TickEntropy) (w : World) : Occupancy :=
  fold_left (enter w) (drifted e w) [].

(** The pass when the callbacks of the entries [done] have run. *)
Definition passAfter (Math_sqrt : Q -> Q) (e : TickEntropy) (w : World)
    (done : Occupancy) : Pass :=
  fold_left (processNode Math_sqrt) done (mkPass w (assigned e w) ∅ 0%nat).

(** [collidingParticles]: the objects found for the identifiers. *)
Definition colliding (u : list ParticleState) (pIds : list string) : list nat :=
  omap (findIndex u) pIds.

(** The occupants entered for the node [k]. *)
Fixpoint occupants (k : string) (occ : Occupancy) : list string :=
  match occ with
  | [] => []
  | (k', pids) :: rest => if String.eqb k' k then pids else occupants k rest
  end.

(** The identifier of the nearest node of a particle. *)
Definition nearestId (w : World) (p : ParticleState) : option string :=
  node_id <$> findNearestNode w (locationalFrequency p).

(** The bounds of the attributes of a particle. *)
Definition inBounds (p : ParticleState) : Prop :=
  (4 # 10 <= amplitude p /\ amplitude p <= 1)
  /\ (1 <= harmonicFactor p /\ harmonicFactor p <= 4)
  /\ (1 # 10 <= energyLevel p /\ energyLevel p <= 1).

Definition inBand (p : ParticleState) : Prop :=
  100 <= locationalFrequency p /\ locationalFrequency p <= 999.

(** The fields of the world that the callback of a node never writes. *)
Definition steady (w w' : World) : Prop :=
  nodes w' = nodes w /\ particles w' = particles w /\ clock w' = clock w
  /\ gridRotation w' = gridRotation w.

(** The non-corner nodes, as [spawnParticle] filters them. *)
Definition nonCornerNodes (w : World) : list IntersectionNode :=
  List.filter (fun n => negb (isCorner n)) (nodes w).

(** The frequency of a lattice point in the words of the specification:
    the mathematical modulus (the remainder of the floored division) and
    rounding to the nearest integer. *)
Definition modulo (a b : Q) : Q := a - inject_Z (Qfloor (a / b)) * b.

Definition positionHash (pos : Vector3) : Q :=
  (vx pos + 20) * (15 # 10) + (vy pos + 20) * 10 + (vz pos + 20) * (5 # 10).

Definition specFrequency (pos : Vector3) : Q :=
  inject_Z (Qfloor (100 + modulo (positionHash pos) 899 + (1 # 2))).

Definition onLattice (n : IntersectionNode) : bool :=
  Qle_bool 0 (positionHash (position n)).

(** The distance in frequency that [findNearestNode] compares. *)
Definition distance (f : Q) (n : IntersectionNode) : Q := Qabs (frequency n - f).

(** [n] is the first node of [ns] at the least distance from [f]. *)
Definition firstNearest (ns : list IntersectionNode) (f : Q) (n : IntersectionNode) : Prop :=
  exists i : nat,
    ns !! i = Some n
    /\ (forall (j : nat) m, ns !! j = Some m -> distance f n <= distance f m)
    /\ (forall (j : nat) m, (j < i)%nat -> ns !! j = Some m -> distance f n < distance f m).

(** The target of [p] names the first nearest node of its current
    frequency, and is [null] only without nodes. *)
Definition targetOk (w : World) (p : ParticleState) : Prop :=
  match targetNodeId p with
  | Some t => exists n, firstNearest (nodes w) (locationalFrequency p) n /\ node_id n = t
  | None => nodes w = []
  end.

(** The fields of a particle that the collisions leave alone. *)
Definition sameIdentity (p q : ParticleState) : Prop :=
  id q = id p /\ baseFrequency q = baseFrequency p
  /\ locationalFrequency q = locationalFrequency p
  /\ targetNodeId q = targetNodeId p.

(** The other colliding particles as the callback of the occupant at
    position [k] of [refs] reads them: the occupants before it have been
    updated already (array [after]), those behind it have not (array
    [before]). *)
Definition seenBy (k : nat) (refs : list nat) (before after : list ParticleState)
    : list ParticleState :=
  omap (fun r => after !! r) (take k refs) ++ omap (fun r => before !! r) (drop (S k) refs).

(** Vectors up to the equality of rationals. *)
Definition vzero : Vector3 := mkVector3 0 0 0.

Definition veq (a b : Vector3) : Prop :=
  vx a == vx b /\ vy a == vy b /\ vz a == vz b.

Section Torque.
Variable Math_sqrt : Q -> Q.

(** The torque that a particle of the assigned array adds: that of its
    energy along the normalized position of its target node, when the node
    is a corner and the energy exceeds 0.2. *)
Definition torqueOf (w : World) (p : ParticleState) : Vector3 :=
  match nid ← targetNodeId p; findNode w nid with
  | Some node =>
      if isCorner node && Js.gt (energyLevel p) (2 # 10)
      then multiplyScalar (energyLevel p * (5 # 10000)) (normalize Math_sqrt (position node))
      else vzero
  | None => vzero
  end.

Definition cornerTorques (w : World) (ps : list ParticleState) : Vector3 :=
  fold_right (fun p acc => add (torqueOf w p) acc) vzero ps.

(** What the corner weight mechanic adds for the identifier [pId] at
    [node], the array being [u]; and the same for the entry of the node
    identifier [nid]. *)
Definition cornerPush (node : IntersectionNode) (u : list ParticleState)
    (pId : string) : Vector3 :=
  match findParticle u pId with
  | Some particle =>
      if Js.gt (energyLevel particle) (2 # 10)
      then multiplyScalar (energyLevel particle * (5 # 10000))
                          (normalize Math_sqrt (position node))
      else vzero
  | None => vzero
  end.

Definition nodePush (w : World) (nid : string) (u : list ParticleState)
    (pId : string) : Vector3 :=
  match findNode w nid with
  | Some node => if isCorner node then cornerPush node u pId else vzero
  | None => vzero
  end.

(** The torque of the particle of the assigned array named [pId]. *)
Definition torqueOfId (e : TickEntropy) (w : World) (pId : string) : Vector3 :=
  match findParticle (assigned e w) pId with
  | Some p => torqueOf w p
  | None => vzero
  end.

End Torque.

(** The sum of a rational quantity over a list. *)
Definition qsum {A} (g : A -> Q) (l : list A) : Q :=
  fold_right (fun x acc => g x + acc) 0 l.

(** Strings without the character that separates the time stamp in the
    identifier of an event. *)
Fixpoint dashFree (s : string) : bool :=
  match s with
  | EmptyString => true
  | String ch rest => negb (Ascii.eqb ch "-") && dashFree rest
  end.

(** The identifier [i] ends with the time stamp [t]. *)
Definition stamped (i : string) (t : Z) : Prop :=
  (0 <= t)%Z /\ exists a, i = (a +:+ "-" +:+ Js.show t)%string.

(** The pending timers and the published events agree: every pending timer
    is due in the future, every published event has its expiry timer
    pending, due one lifetime after the time stamp of the event, and every
    expiry timer names an identifier stamped one lifetime before it is
    due. *)
Definition timely (w : World) : Prop :=
  (0 <= clock w)%Z
  /\ (forall d task, (d, task) ∈ timers w -> (clock w < d)%Z)
  /\ (forall ev, ev ∈ collisionEvents w ->
        stamped (collision_id ev) (collision_timestamp ev)
        /\ ((collision_timestamp ev + 1500)%Z, ExpireCollision (collision_id ev)) ∈ timers w)
  /\ (forall d i, (d, ExpireCollision i) ∈ timers w -> stamped i (d - 1500))
  /\ (forall ev, ev ∈ supernovaEvents w ->
        stamped (supernova_id ev) (supernova_timestamp ev)
        /\ ((supernova_timestamp ev + 2000)%Z, ExpireSupernova (supernova_id ev)) ∈ timers w)
  /\ (forall d i, (d, ExpireSupernova i) ∈ timers w -> stamped i (d - 2000)).

(** What a timer set at time [now] must satisfy. *)
Definition timerOk (now : Z) (t : Z * Task) : Prop :=
  (now < t.1)%Z
  /\ match t.2 with
     | ExpireCollision i => stamped i (t.1 - 1500)
     | ExpireSupernova i => stamped i (t.1 - 2000)
     | Respawn => True
     end.

(** [w'] comes from [w] by publishing events and setting timers at the
    time of [w]. *)
Definition grows (w w' : World) : Prop :=
  clock w' = clock w
  /\ exists newT newC newS,
       timers w' = timers w ++ newT
       /\ collisionEvents w' = collisionEvents w ++ newC
       /\ supernovaEvents w' = supernovaEvents w ++ newS
       /\ Forall (timerOk (clock w)) newT
       /\ Forall (fun ev =>
             collision_timestamp ev = clock w
             /\ stamped (collision_id ev) (collision_timestamp ev)
             /\ ((collision_timestamp ev + 1500)%Z, ExpireCollision (collision_id ev)) ∈ newT)
           newC
       /\ Forall (fun ev =>
             supernova_timestamp ev = clock w
             /\ stamped (supernova_id ev) (supernova_timestamp ev)
             /\ ((supernova_timestamp ev + 2000)%Z, ExpireSupernova (supernova_id ev)) ∈ newT)
           newS.

(** The non-corner nodes leave room for the jitter of a spawn. *)
Definition bandSafe (w : World) : Prop :=
  Forall (fun n => 105 <= frequency n /\ frequency n <= 994) (nonCornerNodes w).

(** Values that [Math.random] can return. *)
Definition unitRange (e : SpawnEntropy) : Prop :=
  (0 <= pick e /\ pick e < 1) /\ (0 <= jitter e /\ jitter e < 1).

(** The actions whose spawns stay in the band: a position, when given,
    has a non-negative hash. *)
Definition tame (a : Action) : Prop :=
  match a with
  | Spawn (Some pos) _ => 0 <= positionHash pos
  | Spawn None e => unitRange e
  | Tick e => unitRange (threshold_spawn e)
  | Advance _ es => forall k, unitRange (es k)
  end.

(** The replacement spawns among the tasks. *)
Definition isRespawn (task : Task) : bool :=
  match task with
  | Respawn => true
  | _ => false
  end.

(** The replacement spawns that are due by the time [t]. *)
Definition respawnsDue (t : Z) (w : World) : nat :=
  length (List.filter (fun x : Z * Task => (x.1 <=? t)%Z && isRespawn x.2) (timers w)).

(** ** [components/scene/scene.component.ts]: the bookkeeping of the effects *)

(** What the effects ask of the renderer.  The meshes, materials and
    tweens themselves are not modelled: a particle mesh is known by the
    identifier under which [stabilizerMeshes] holds it. *)
Inductive SceneCall :=
| CreateParticleMesh (particle_id : string)
| CreateTrail (particle_id : string)
| MoveTo (particle_id : string) (node : string)
| FadeOut (particle_id : string)
| CollisionVisuals (event_id : string)
| SupernovaVisuals (event_id : string).

(** The private maps and sets of [SceneComponent], and the calls made so
    far.  [stabilizerMeshes] lists the keys of the [Map] in the order of
    insertion; in [particleLastNode] the value [None] stands for [null]
    and a missing key for [undefined]. *)
Record Scene := mkScene {
  stabilizerMeshes : list string;
  particleLastNode : gmap string (option string);
  handledCollisions : gset string;
  handledSupernovas : gset string;
  calls : list SceneCall
}.

Definition newScene : Scene := mkScene [] ∅ ∅ ∅ [].

Definition call (c : SceneCall) (sc : Scene) : Scene :=
  mkScene (stabilizerMeshes sc) (particleLastNode sc) (handledCollisions sc)
          (handledSupernovas sc) (calls sc ++ [c]).

Definition set_stabilizerMeshes (m : list string) (sc : Scene) : Scene :=
  mkScene m (particleLastNode sc) (handledCollisions sc) (handledSupernovas sc) (calls sc).

Definition set_particleLastNode (m : gmap string (option string)) (sc : Scene) : Scene :=
  mkScene (stabilizerMeshes sc) m (handledCollisions sc) (handledSupernovas sc) (calls sc).

Definition set_handledCollisions (h : gset string) (sc : Scene) : Scene :=
  mkScene (stabilizerMeshes sc) (particleLastNode sc) h (handledSupernovas sc) (calls sc).

Definition set_handledSupernovas (h : gset string) (sc : Scene) : Scene :=
  mkScene (stabilizerMeshes sc) (particleLastNode sc) (handledCollisions sc) h (calls sc).

(** A string or [null] used as a condition. *)
Definition truthy (s : option string) : bool :=
  match s with
  | Some s => negb (String.eqb s EmptyString)
  | None => false
  end.

(** The callback of [parts.forEach] in the particle effect; the writes to
    the uniforms of the material are left out. *)
Definition syncParticle (w : World) (sc : Scene) (part : ParticleState) : Scene :=
  let sc :=
    if bool_decide (id part ∈ stabilizerMeshes sc) then sc
    else
      set_particleLastNode (<[id part := targetNodeId part]> (particleLastNode sc))
        (call (CreateParticleMesh (id part))
           (set_stabilizerMeshes (stabilizerMeshes sc ++ [id part]) sc)) in
  match n ← targetNodeId part; findNode w n with
  | Some targetNode =>
      let lastNodeId := particleLastNode sc !! id part in
      let sc :=
        if truthy (targetNodeId part)
           && negb (bool_decide (lastNodeId = Some (targetNodeId part)))
        then set_particleLastNode (<[id part := targetNodeId part]> (particleLastNode sc))
               (call (CreateTrail (id part)) sc)
        else sc in
      call (MoveTo (id part) (node_id targetNode)) sc
  | None => sc
  end.

(** The callback of [stabilizerMeshes.forEach] in the particle effect: the
    mesh of a particle that left the store starts to fade. *)
Definition fadeMissing (parts : list ParticleState) (sc : Scene) (mesh_id : string) : Scene :=
  match findParticle parts mesh_id with
  | Some _ => sc
  | None => call (FadeOut mesh_id) sc
  end.

(** The particle effect. *)
Definition particleEffect (w : World) (sc : Scene) : Scene :=
  let sc := fold_left (syncParticle w) (particles w) sc in
  fold_left (fadeMissing (particles w)) (stabilizerMeshes sc) sc.

(** [onComplete] of the fade of the mesh [mesh_id]. *)
Definition fadeComplete (mesh_id : string) (sc : Scene) : Scene :=
  set_particleLastNode (delete mesh_id (particleLastNode sc))
    (set_stabilizerMeshes (filter (fun k => k <> mesh_id) (stabilizerMeshes sc)) sc).

(** The effects over the published events. *)
Definition handleCollision (sc : Scene) (event : CollisionEvent) : Scene :=
  if bool_decide (collision_id event ∈ handledCollisions sc) then sc
  else set_handledCollisions (handledCollisions sc ∪ {[collision_id event]})
         (call (CollisionVisuals (collision_id event)) sc).

Definition collisionEffect (w : World) (sc : Scene) : Scene :=
  fold_left handleCollision (collisionEvents w) sc.

Definition handleSupernova (sc : Scene) (event : SupernovaEvent) : Scene :=
  if bool_decide (supernova_id event ∈ handledSupernovas sc) then sc
  else set_handledSupernovas (handledSupernovas sc ∪ {[supernova_id event]})
         (call (SupernovaVisuals (supernova_id event)) sc).

Definition supernovaEffect (w : World) (sc : Scene) : Scene :=
  fold_left handleSupernova (supernovaEvents w) sc.

(** What can happen to the scene: a run of one of the three effects on the
    current signals of the service, or the end of a fade. *)
Inductive SceneStep :=
| ParticleEffect (w : World)
| CollisionEffect (w : World)
| SupernovaEffect (w : World)
| FadeComplete (mesh_id : string).

Definition sceneStep (sc : Scene) (s : SceneStep) : Scene :=
  match s with
  | ParticleEffect w => particleEffect w sc
  | CollisionEffect w => collisionEffect w sc
  | SupernovaEffect w => supernovaEffect w sc
  | FadeComplete mesh_id => fadeComplete mesh_id sc
  end.

Definition sceneRun (steps : list SceneStep) (sc : Scene) : Scene :=
  fold_left sceneStep steps sc.

(** [a.distanceToSquared(b)] *)
Definition distanceToSquared (a b : Vector3) : Q :=
  let dx := vx a - vx b in
  let dy := vy a - vy b in
  let dz := vz a - vz b in
  dx * dx + dy * dy + dz * dz.

(** The search of [animate] for the particle closest to a node:
    [minDistSq] starts at [Infinity] ([None]), and [closestPos] is the
    vector of the uniform, overwritten by [copy]. *)
Definition closer (nodePosition : Vector3) (st : option Q * Vector3) (localPos : Vector3)
    : option Q * Vector3 :=
  let dSq := distanceToSquared nodePosition localPos in
  match st.1 with
  | None => (Some dSq, localPos)
  | Some minDistSq => if Js.lt dSq minDistSq then (Some dSq, localPos) else st
  end.

Definition closestParticle (nodePosition closestPos : Vector3)
    (localParticlePositions : list Vector3) : Vector3 :=
  (fold_left (closer nodePosition) localParticlePositions (None, closestPos)).2.

(** The visual calls made for the events, by identifier. *)
Definition collisionVisuals (sc : Scene) : list string :=
  omap (fun c => match c with CollisionVisuals i => Some i | _ => None end) (calls sc).

Definition supernovaVisuals (sc : Scene) : list string :=
  omap (fun c => match c with SupernovaVisuals i => Some i | _ => None end) (calls sc).

Definition createdMeshes (sc : Scene) : list string :=
  omap (fun c => match c with CreateParticleMesh i => Some i | _ => None end) (calls sc).

Definition createdTrails (sc : Scene) : list string :=
  omap (fun c => match c with CreateTrail i => Some i | _ => None end) (calls sc).

Definition fadedMeshes (sc : Scene) : list string :=
  omap (fun c => match c with FadeOut i => Some i | _ => None end) (calls sc).

(** The particle effect leaves a trail for [part]: its mesh exists, its
    target is a node, and the target differs from the one recorded. *)
Definition leavesTrail (w : World) (sc : Scene) (part : ParticleState) : Prop :=
  id part ∈ stabilizerMeshes sc
  /\ is_Some (n ← targetNodeId part; findNode w n)
  /\ truthy (targetNodeId part) = true
  /\ particleLastNode sc !! id part <> Some (targetNodeId part).

#[global] Instance leavesTrail_dec w sc part : Decision (leavesTrail w sc part).
Proof. unfold leavesTrail. apply _. Defined.

(** Every visual was shown once, for an identifier that is recorded as
    handled. *)
Definition shownOnce (sc : Scene) : Prop :=
  NoDup (collisionVisuals sc)
  /\ (forall i, i ∈ collisionVisuals sc <-> i ∈ handledCollisions sc)
  /\ NoDup (supernovaVisuals sc)
  /\ (forall i, i ∈ supernovaVisuals sc <-> i ∈ handledSupernovas sc).

(** The two maps of the scene have the same keys, and no mesh is
    registered twice. *)
Definition mapsAgree (sc : Scene) : Prop :=
  NoDup (stabilizerMeshes sc)
  /\ forall i, i ∈ stabilizerMeshes sc <-> is_Some (particleLastNode sc !! i).

(** Sample inputs. *)
Definition sqrt_floor (q : Q) : Q :=
  inject_Z (Z.sqrt (Qfloor (q * 1000000000000))) / 1000000.

Definition quiet (name : string) : SpawnEntropy := mkSpawnEntropy 0 (5 # 10) name.

Definition calm : TickEntropy := mkTickEntropy (fun _ => 5 # 10) (quiet "t").

Definition started : World := boot 1000 (quiet "a").

Definition below : Vector3 := mkVector3 0 (-100) 0.

Definition duo : World := spawnParticle None (quiet "b") started.

Definition crowded : World :=
  run sqrt_floor
    [Spawn None (quiet "b"); Spawn None (quiet "c"); Spawn None (quiet "d");
     Spawn None (quiet "e"); Spawn None (quiet "f"); Spawn None (quiet "g");
     Spawn None (quiet "h")] started.

(** Two particles with distinct identifiers at one node, one of them close
    to the energy of a supernova. *)
Definition heated : World :=
  set_particles (set_energyLevel (9 # 10) <$> particles duo) duo.

(** A rotating grid with an energetic particle at the corner node
    [-3_-3_-3]. *)
Definition spinning : World :=
  set_gridAngularVelocity (mkVector3 (1 # 100) 0 0)
    (set_particles
       [mkParticle "a" 196 196 1 (4 # 10) (9 # 10) (Some "-3_-3_-3"%string)] started).

(** Stores with a repeated identifier.  Six spawns that print the same
    identifier: *)
Definition clones : World :=
  run sqrt_floor
    [Spawn None (quiet "a"); Spawn None (quiet "a"); Spawn None (quiet "a");
     Spawn None (quiet "a"); Spawn None (quiet "a")] started.


(** and four particles at two nodes, three of them named alike, the first
    of these energetic. *)
Definition aliased : World :=
  set_particles
    [mkParticle "b" 198 198 1 (4 # 10) (1 # 10) (Some "-3_-3_-2"%string);
     mkParticle "a" 200 200 1 (4 # 10) (9 # 10) (Some "-3_-3_-1"%string);
     mkParticle "a" 198 198 1 (4 # 10) (1 # 10) (Some "-3_-3_-2"%string);
     mkParticle "a" 200 200 1 (4 # 10) (1 # 10) (Some "-3_-3_-1"%string)] started.

(** * Frame properties of the operations *)

Lemma length_collideOne refs st ref :
  length (collideOne refs st ref).1 = length st.1.
Proof.
  unfold collideOne.
  destruct (st.1 !! ref) as [cur|]; [|done].
  destruct (_ =? _)%nat; [done|].
  destruct (findIndex _ _) as [i|]; [|done].
  destruct (st.1 !! i); [|done].
  simpl. by rewrite length_insert.
Qed.

Lemma length_collideAll refs l st :
  length (fold_left (collideOne refs) l st).1 = length st.1.
Proof.
  revert st. induction l as [|r l IH]; intros st; simpl; [done|].
  by rewrite IH, length_collideOne.
Qed.

Section Frames.
Variable Math_sqrt : Q -> Q.

Lemma updated_cornerTorque node a pid :
  updated (cornerTorque Math_sqrt node a pid) = updated a.
Proof.
  unfold cornerTorque. destruct (findParticle _ _); [|done].
  by destruct (Js.gt _ _).
Qed.

Lemma updated_cornerTorques node pids a :
  updated (fold_left (cornerTorque Math_sqrt node) pids a) = updated a.
Proof.
  revert a. induction pids as [|p pids IH]; intros a; simpl; [done|].
  by rewrite IH, updated_cornerTorque.
Qed.

Lemma length_collide node nid pids a :
  length (updated (collide node nid pids a)) = length (updated a).
Proof.
  unfold collide. simpl.
  set (refs := omap _ pids).
  destruct (1 <? length refs)%nat.
  - destruct (fold_left _ _ _) as [u f] eqn:E.
    assert (length u = length (updated a)) as Hu.
    { change u with (u, f).1. rewrite <- E. by rewrite length_collideAll. }
    by destruct f.
  - done.
Qed.

Lemma length_processNode a entry :
  length (updated (processNode Math_sqrt a entry)) = length (updated a).
Proof.
  destruct entry as [nid pids]. unfold processNode.
  destruct (findNode _ _) as [node|]; [|done].
  assert (length (updated (if isCorner node
            then fold_left (cornerTorque Math_sqrt node) pids a else a))
          = length (updated a)) as H.
  { destruct (isCorner node); [|done]. by rewrite updated_cornerTorques. }
  destruct (1 <? length pids)%nat; [|done].
  by rewrite length_collide.
Qed.

Lemma length_processNodes occ a :
  length (updated (fold_left (processNode Math_sqrt) occ a)) = length (updated a).
Proof.
  revert a. induction occ as [|x occ IH]; intros a; simpl; [done|].
  by rewrite IH, length_processNode.
Qed.

End Frames.

Lemma assignTargets_fold w u st :
  fold_left (assignTarget w) u st
  = (st.1 ++ (retarget w <$> u), fold_left (enter w) u st.2).
Proof.
  revert st. induction u as [|p u IH]; intros [done occ]; simpl.
  - by rewrite app_nil_r.
  - rewrite IH. unfold assignTarget, retarget, enter. simpl.
    destruct (findNearestNode w _); simpl; by rewrite <- app_assoc.
Qed.

Lemma assignTargets_split w u :
  assignTargets w u = (retarget w <$> u, fold_left (enter w) u []).
Proof. unfold assignTargets. by rewrite assignTargets_fold. Qed.

(** * The world outside the store during the pass *)

Section WorldFrames.
Variable Math_sqrt : Q -> Q.

Lemma steady_refl w : steady w w.
Proof. by repeat split. Qed.

Lemma steady_trans w1 w2 w3 : steady w1 w2 -> steady w2 w3 -> steady w1 w3.
Proof.
  intros (?&?&?&?) (?&?&?&?). repeat split; congruence.
Qed.

Lemma steady_cornerTorque node a pid :
  steady (world a) (world (cornerTorque Math_sqrt node a pid)).
Proof.
  unfold cornerTorque. destruct (findParticle _ _); [|apply steady_refl].
  destruct (Js.gt _ _); [|apply steady_refl]. by repeat split.
Qed.

Lemma steady_cornerTorques node pids a :
  steady (world a) (world (fold_left (cornerTorque Math_sqrt node) pids a)).
Proof.
  revert a. induction pids as [|p pids IH]; intros a; simpl; [apply steady_refl|].
  eapply steady_trans; [apply steady_cornerTorque|apply IH].
Qed.

Lemma steady_collide node nid pids a :
  steady (world a) (world (collide node nid pids a)).
Proof.
  unfold collide. simpl.
  destruct (if (1 <? _)%nat then _ else _) as [u f].
  destruct f; by repeat split.
Qed.

Lemma steady_processNode a entry :
  steady (world a) (world (processNode Math_sqrt a entry)).
Proof.
  destruct entry as [nid pids]. unfold processNode.
  destruct (findNode _ _) as [node|]; [|apply steady_refl].
  set (a1 := if isCorner node then _ else a).
  assert (steady (world a) (world a1)) as H1.
  { subst a1. destruct (isCorner node); [apply steady_cornerTorques|apply steady_refl]. }
  destruct (1 <? _)%nat; [|done].
  eapply steady_trans; [exact H1|apply steady_collide].
Qed.

Lemma steady_processNodes occ a :
  steady (world a) (world (fold_left (processNode Math_sqrt) occ a)).
Proof.
  revert a. induction occ as [|x occ IH]; intros a; simpl; [apply steady_refl|].
  eapply steady_trans; [apply steady_processNode|apply IH].
Qed.

Lemma steady_rotate w :
  nodes (rotate Math_sqrt w) = nodes w /\ particles (rotate Math_sqrt w) = particles w
  /\ clock (rotate Math_sqrt w) = clock w /\ timers (rotate Math_sqrt w) = timers w
  /\ collisionEvents (rotate Math_sqrt w) = collisionEvents w
  /\ supernovaEvents (rotate Math_sqrt w) = supernovaEvents w.
Proof. unfold rotate. destruct (Js.gt _ _); by repeat split. Qed.

Lemma fieldPass_unfold e w :
  fieldPass Math_sqrt e w = passAfter Math_sqrt e w (nodeOccupancy e w).
Proof. unfold fieldPass, passAfter. by rewrite assignTargets_split. Qed.

Lemma length_fieldPass e w :
  length (updated (fieldPass Math_sqrt e w)) = length (particles w).
Proof.
  rewrite fieldPass_unfold. unfold passAfter. rewrite length_processNodes. simpl.
  unfold assigned, drifted. by rewrite length_fmap, length_imap.
Qed.

Lemma steady_fieldPass e w : steady w (world (fieldPass Math_sqrt e w)).
Proof. rewrite fieldPass_unfold. apply (steady_processNodes _ (mkPass w _ _ _)). Qed.

Lemma particles_thresholdRule_population e w :
  (length (particles w) <= SIM_CONFIG.MAX_PARTICLES)%nat ->
  (length (particles (thresholdRule e w)) <= SIM_CONFIG.MAX_PARTICLES)%nat.
Proof.
  intros H. unfold thresholdRule. destruct (_ && _); [|done].
  unfold spawnParticle.
  destruct (_ <=? _)%nat eqn:E; [done|].
  apply Nat.leb_gt in E.
  destruct (randomFrequency _ _); [|done].
  unfold updateTargetNodes. simpl. rewrite length_fmap, length_app. simpl. lia.
Qed.

Lemma scheduleRespawns_fields a :
  let w' := scheduleRespawns a in
  nodes w' = nodes (world a) /\ particles w' = particles (world a)
  /\ clock w' = clock (world a)
  /\ collisionEvents w' = collisionEvents (world a)
  /\ supernovaEvents w' = supernovaEvents (world a)
  /\ gridAngularVelocity w' = gridAngularVelocity (world a)
  /\ gridRotation w' = gridRotation (world a)
  /\ timers w' = timers (world a)
       ++ replicate (explosionsToProcess a) ((clock (world a) + 50)%Z, Respawn).
Proof.
  unfold scheduleRespawns. induction (explosionsToProcess a) as [|n IH]; simpl.
  - repeat split; by rewrite ?app_nil_r.
  - destruct IH as (H1&H2&H3&H4&H5&H6&H7&H8). repeat split; try done.
    rewrite H8, H3, <- app_assoc. f_equal.
    generalize ((clock (world a) + 50)%Z, Respawn). intros x.
    clear. induction n as [|n IH]; simpl; [done|]. by rewrite IH.
Qed.

(** * Population *)

Lemma length_updateTargetNodes w :
  length (particles (updateTargetNodes w)) = length (particles w).
Proof. unfold updateTargetNodes. simpl. by rewrite length_fmap. Qed.

Lemma spawnParticle_population pos e w :
  (length (particles w) <= SIM_CONFIG.MAX_PARTICLES)%nat ->
  (length (particles (spawnParticle pos e w)) <= SIM_CONFIG.MAX_PARTICLES)%nat.
Proof.
  intros H. unfold spawnParticle.
  destruct (_ <=? _)%nat eqn:E; [done|].
  apply Nat.leb_gt in E.
  destruct (match pos with Some _ => _ | None => _ end); [|done].
  rewrite length_updateTargetNodes. simpl. rewrite length_app. simpl. lia.
Qed.

Lemma length_finalParticles a :
  (length (finalParticles a) <= length (updated a))%nat.
Proof. unfold finalParticles. apply length_filter. Qed.

Lemma processFieldDynamics_population e w :
  (length (particles w) <= SIM_CONFIG.MAX_PARTICLES)%nat ->
  (length (particles (processFieldDynamics Math_sqrt e w)) <= SIM_CONFIG.MAX_PARTICLES)%nat.
Proof.
  intros H. unfold processFieldDynamics.
  apply particles_thresholdRule_population.
  unfold updateParticles. simpl. etrans; [apply length_finalParticles|].
  rewrite length_fieldPass.
  by rewrite (proj1 (proj2 (steady_rotate w))).
Qed.

Lemma runTask_population task e w :
  (length (particles w) <= SIM_CONFIG.MAX_PARTICLES)%nat ->
  (length (particles (runTask task e w)) <= SIM_CONFIG.MAX_PARTICLES)%nat.
Proof.
  intros H. destruct task; simpl; try done. by apply spawnParticle_population.
Qed.

Lemma fire_population es l st :
  (length (particles st.2) <= SIM_CONFIG.MAX_PARTICLES)%nat ->
  (length (particles (fold_left (fire es) l st).2) <= SIM_CONFIG.MAX_PARTICLES)%nat.
Proof.
  revert st. induction l as [|t l IH]; intros st H; simpl; [done|].
  apply IH. simpl. by apply runTask_population.
Qed.

Lemma advance_population t es w :
  (length (particles w) <= SIM_CONFIG.MAX_PARTICLES)%nat ->
  (length (particles (advance t es w)) <= SIM_CONFIG.MAX_PARTICLES)%nat.
Proof.
  intros H. unfold advance. destruct (_ <=? _)%Z; [done|].
  simpl. by apply fire_population.
Qed.

Lemma perform_population w a :
  (length (particles w) <= SIM_CONFIG.MAX_PARTICLES)%nat ->
  (length (particles (perform Math_sqrt w a)) <= SIM_CONFIG.MAX_PARTICLES)%nat.
Proof.
  destruct a; simpl.
  - apply spawnParticle_population.
  - apply processFieldDynamics_population.
  - apply advance_population.
Qed.

Lemma run_population actions w :
  (length (particles w) <= SIM_CONFIG.MAX_PARTICLES)%nat ->
  (length (particles (run Math_sqrt actions w)) <= SIM_CONFIG.MAX_PARTICLES)%nat.
Proof.
  unfold run. revert w. induction actions as [|a l IH]; intros w H; simpl; [done|].
  apply IH. by apply perform_population.
Qed.

End WorldFrames.

Lemma boot_population now e :
  (length (particles (boot now e)) <= SIM_CONFIG.MAX_PARTICLES)%nat.
Proof. apply spawnParticle_population. simpl. unfold SIM_CONFIG.MAX_PARTICLES. lia. Qed.

(** C8: at or above the cap of 8 particles [spawnParticle] returns the
    world unchanged (there is no error channel), and in every state the
    service can reach from its constructor the population is at most 8. *)
Theorem spawn_cap :
  (forall pos e w,
      (SIM_CONFIG.MAX_PARTICLES <= length (particles w))%nat ->
      spawnParticle pos e w = w)
  /\ (forall Math_sqrt now e actions,
      (length (particles (run Math_sqrt actions (boot now e))) <= 8)%nat).
Proof.
  split.
  - intros pos e w H. unfold spawnParticle.
    apply Nat.leb_le in H. by rewrite H.
  - intros. apply run_population, boot_population.
Qed.

Lemma spawn_cap_witness :
  length (particles crowded) = 8%nat
  /\ spawnParticle (Some (mkVector3 0 0 0)) (quiet "i") crowded = crowded.
Proof.
  split; [reflexivity|].
  apply (proj1 spawn_cap). vm_compute. lia.
Defined.

(** * Spawning *)

Lemma findNearestNode_nodes w w' f :
  nodes w' = nodes w -> findNearestNode w' f = findNearestNode w f.
Proof. unfold findNearestNode. by intros ->. Qed.

Lemma floor_index (r : Q) (n : nat) :
  0 <= r -> r < 1 -> (0 < n)%nat ->
  let k := Js.floor (r * inject_Z (Z.of_nat n)) in
  (0 <= k < Z.of_nat n)%Z
  /\ inject_Z k <= r * inject_Z (Z.of_nat n)
  /\ r * inject_Z (Z.of_nat n) < inject_Z (k + 1).
Proof.
  intros H0 H1 Hn k. unfold Js.floor in k.
  assert (0 < inject_Z (Z.of_nat n)) as Hpos.
  { change 0 with (inject_Z 0). rewrite <- Zlt_Qlt. lia. }
  pose proof (Qfloor_le (r * inject_Z (Z.of_nat n))) as Hle.
  pose proof (Qlt_floor (r * inject_Z (Z.of_nat n))) as Hlt.
  fold k in Hle, Hlt.
  split; [split|split; assumption].
  - change 0%Z with (Qfloor 0). apply Qfloor_resp_le. nra.
  - rewrite Zlt_Qlt. eapply Qle_lt_trans; [exact Hle|]. nra.
Qed.

Lemma particles_spawnParticle pos e w freq :
  (length (particles w) < SIM_CONFIG.MAX_PARTICLES)%nat ->
  match pos with
  | Some p => Some (calculateNodeFrequency p)
  | None => randomFrequency e w
  end = Some freq ->
  particles (spawnParticle pos e w)
  = particles (updateTargetNodes w)
    ++ [mkParticle (fresh_id e) freq freq 1 (4 # 10) (1 # 10)
          (n ← findNearestNode w freq; or_null (node_id n))].
Proof.
  intros Hcap Hf. unfold spawnParticle.
  apply Nat.leb_gt in Hcap. rewrite Hcap, Hf.
  unfold updateTargetNodes. simpl. by rewrite fmap_app.
Qed.

(** C7, amended: below the cap, with the values of [Math.random] in
    [0, 1), [spawnParticle] appends one particle with amplitude 0.4, energy
    0.1, harmonic factor 1 and the nearest node as target; its frequency is
    the lattice frequency of the position when one is given; otherwise it
    is the frequency of the non-corner node at index [floor (pick * n)]
    moved by [(jitter - 0.5) * 10], which lies in [-5, 5); and when there is
    no non-corner node it is [200 + pick * 600], which lies in [200, 800). *)
Theorem spawn_new_particle pos e w :
  (length (particles w) < SIM_CONFIG.MAX_PARTICLES)%nat ->
  0 <= pick e -> pick e < 1 -> 0 <= jitter e -> jitter e < 1 ->
  exists freq,
    particles (spawnParticle pos e w)
    = particles (updateTargetNodes w)
      ++ [mkParticle (fresh_id e) freq freq 1 (4 # 10) (1 # 10)
            (n ← findNearestNode w freq; or_null (node_id n))]
    /\ match pos with
       | Some p => freq = calculateNodeFrequency p
       | None =>
           match nonCornerNodes w with
           | [] => freq = 200 + pick e * 600 /\ 200 <= freq /\ freq < 800
           | _ :: _ =>
               exists (k : nat) node,
                 nonCornerNodes w !! k = Some node
                 /\ inject_Z (Z.of_nat k)
                    <= pick e * inject_Z (Z.of_nat (length (nonCornerNodes w)))
                 /\ pick e * inject_Z (Z.of_nat (length (nonCornerNodes w)))
                    < inject_Z (Z.of_nat k + 1)
                 /\ freq = frequency node + (jitter e - (5 # 10)) * 10
                 /\ -5 <= freq - frequency node /\ freq - frequency node < 5
           end
       end.
Proof.
  intros Hcap Hp0 Hp1 Hj0 Hj1.
  destruct pos as [p|].
  - exists (calculateNodeFrequency p). split; [|done].
    by apply particles_spawnParticle.
  - unfold nonCornerNodes.
    destruct (List.filter _ (nodes w)) as [|n0 ns] eqn:Encs.
    + exists (200 + pick e * 600). split; [|split; [done|split; lra]].
      apply particles_spawnParticle; [done|].
      unfold randomFrequency. by rewrite Encs.
    + set (ncs := n0 :: ns) in *.
      destruct (floor_index (pick e) (length ncs) Hp0 Hp1) as ([Hk0 Hk1] & Hlo & Hhi).
      { simpl. lia. }
      set (k := Js.floor _) in *.
      destruct (lookup_lt_is_Some_2 ncs (Z.to_nat k)) as [node Hnode]; [lia|].
      exists (frequency node + (jitter e - (5 # 10)) * 10). split.
      * apply particles_spawnParticle; [done|].
        unfold randomFrequency. rewrite Encs. fold ncs. simpl length at 1.
        simpl Nat.ltb. cbv iota. fold k. unfold at_index.
        destruct (k <? 0)%Z eqn:E; [lia|]. by rewrite Hnode.
      * exists (Z.to_nat k), node. rewrite Z2Nat.id by lia.
        repeat split; try done; lra.
Qed.

Lemma spawn_new_particle_witness :
  exists freq,
    particles (spawnParticle None (quiet "b") started)
    = particles (updateTargetNodes started)
      ++ [mkParticle "b" freq freq 1 (4 # 10) (1 # 10)
            (n ← findNearestNode started freq; or_null (node_id n))].
Proof.
  destruct (spawn_new_particle None (quiet "b") started) as (freq & H & _).
  - vm_compute. lia.
  - vm_compute. discriminate.
  - reflexivity.
  - vm_compute. discriminate.
  - reflexivity.
  - exists freq. exact H.
Defined.

(** C7 as stated fails: without non-corner nodes the fallback frequency
    never reaches 900, a frequency of the band [100, 999]. *)
Lemma fallback_misses_band :
  ~ (exists e p,
        0 <= pick e /\ pick e < 1
        /\ last (particles (spawnParticle None e (blank 0))) = Some p
        /\ locationalFrequency p == 900).
Proof.
  intros (e & p & H0 & H1 & Hlast & Hf).
  unfold spawnParticle in Hlast. simpl in Hlast.
  injection Hlast as <-. simpl in Hf. lra.
Qed.

(** * The node grid *)

Lemma trunc_nonneg x : 0 <= x -> Js.trunc x = Qfloor x.
Proof.
  intros H. unfold Js.trunc.
  destruct (Qle_bool 0 x) eqn:E; [done|].
  apply Qle_bool_iff in H. congruence.
Qed.

(** On a non-negative dividend the remainder operator is the modulus. *)
Lemma rem_modulo a b : 0 <= a -> 0 < b -> Js.rem a b = modulo a b.
Proof.
  intros Ha Hb. unfold Js.rem, modulo. rewrite trunc_nonneg; [done|].
  apply Qle_shift_div_l; [done|]. lra.
Qed.

Lemma calculateNodeFrequency_spec pos :
  0 <= positionHash pos -> calculateNodeFrequency pos = specFrequency pos.
Proof.
  intros H. unfold calculateNodeFrequency, specFrequency, Js.round.
  cbv zeta. simpl fst. simpl snd.
  change ((vx pos + 20) * (15 # 10) + (vy pos + 20) * 10 + (vz pos + 20) * (5 # 10))
    with (positionHash pos).
  rewrite rem_modulo; [|done|reflexivity].
  reflexivity.
Qed.

Lemma generated_on_lattice :
  forallb onLattice (generateNodes SIM_CONFIG.GRID_SIZE) = true.
Proof. vm_compute. reflexivity. Qed.

Lemma generated_ids_distinct :
  NoDup (node_id <$> generateNodes SIM_CONFIG.GRID_SIZE).
Proof. apply (bool_decide_unpack _). vm_compute. exact I. Qed.

(** C4: every node of the generated grid carries the frequency
    [round (100 + ((x+20)*1.5 + (y+20)*10 + (z+20)*0.5) mod 899)] of its
    position; the grid has 343 nodes with distinct identifiers; and the
    generated grid does not depend on the state in which [initializeNodes]
    runs: two generations give the same nodes. *)
Theorem grid_frequency :
  forall w,
    Forall (fun n => frequency n = specFrequency (position n)) (nodes (initializeNodes w))
    /\ length (nodes (initializeNodes w)) = 343%nat
    /\ NoDup (node_id <$> nodes (initializeNodes w))
    /\ forall w', nodes (initializeNodes w') = nodes (initializeNodes w).
Proof.
  intros w. split; [|split; [|split; [|done]]].
  2:{ vm_compute. reflexivity. }
  2:{ exact generated_ids_distinct. }
  simpl. apply Forall_forall. intros n Hn.
  pose proof generated_on_lattice as Hall.
  rewrite forallb_forall in Hall.
  specialize (Hall n (proj1 (list_elem_of_In _ _) Hn)).
  apply Qle_bool_iff in Hall.
  revert Hn. unfold generateNodes.
  intros Hn.
  do 3 (apply list_elem_of_bind in Hn; destruct Hn as (? & Hn & _)).
  apply list_elem_of_singleton in Hn. subst n. simpl in *.
  by apply calculateNodeFrequency_spec.
Qed.

(** * The nearest node *)

Lemma lt_spec a b : Js.lt a b = true <-> a < b.
Proof.
  unfold Js.lt. rewrite negb_true_iff. split.
  - intros H. apply Qnot_le_lt. intros Hle. apply Qle_bool_iff in Hle. congruence.
  - intros H. destruct (Qle_bool b a) eqn:E; [|done].
    apply Qle_bool_iff in E. lra.
Qed.

Lemma lt_spec_false a b : Js.lt a b = false <-> b <= a.
Proof.
  unfold Js.lt. rewrite negb_false_iff. apply Qle_bool_iff.
Qed.

Lemma firstNearest_step f pre acc c :
  firstNearest pre f acc -> firstNearest (pre ++ [c]) f (nearer f acc c).
Proof.
  intros (i & Hi & Hall & Hbefore). unfold nearer, Js.abs.
  fold (distance f c). fold (distance f acc).
  pose proof (lookup_lt_Some _ _ _ Hi) as Hlen.
  destruct (Js.lt (distance f c) (distance f acc)) eqn:E.
  - apply lt_spec in E. exists (length pre). split; [|split].
    + rewrite lookup_app_r by lia. by rewrite Nat.sub_diag.
    + intros j m Hj. destruct (decide (j < length pre)%nat) as [Hlt|Hge].
      * rewrite lookup_app_l in Hj by done. specialize (Hall j m Hj). lra.
      * rewrite lookup_app_r in Hj by lia.
        destruct (j - length pre)%nat; [|done]. injection Hj as <-. lra.
    + intros j m Hlt Hj. rewrite lookup_app_l in Hj by done.
      specialize (Hall j m Hj). lra.
  - apply lt_spec_false in E. exists i. split; [|split].
    + by rewrite lookup_app_l.
    + intros j m Hj. destruct (decide (j < length pre)%nat) as [Hlt|Hge].
      * rewrite lookup_app_l in Hj by done. by apply (Hall j).
      * rewrite lookup_app_r in Hj by lia.
        destruct (j - length pre)%nat; [|done]. by injection Hj as <-.
    + intros j m Hlt Hj. rewrite lookup_app_l in Hj by lia. by apply (Hbefore j).
Qed.

Lemma firstNearest_fold f rest : forall pre acc,
  firstNearest pre f acc ->
  firstNearest (pre ++ rest) f (fold_left (nearer f) rest acc).
Proof.
  induction rest as [|c rest IH]; intros pre acc H; simpl.
  - by rewrite app_nil_r.
  - rewrite (cons_middle c pre rest), app_assoc.
    apply IH. by apply firstNearest_step.
Qed.

Lemma findNearestNode_first w f n :
  findNearestNode w f = Some n -> firstNearest (nodes w) f n.
Proof.
  unfold findNearestNode. destruct (nodes w) as [|first rest]; [done|].
  intros [= <-]. apply (firstNearest_fold f rest [first] first).
  exists 0%nat. split; [done|]. split.
  - intros [|j] m Hj; [|done]. injection Hj as <-. lra.
  - intros j m Hj. lia.
Qed.

Lemma findNearestNode_None w f : findNearestNode w f = None <-> nodes w = [].
Proof. unfold findNearestNode. by destruct (nodes w). Qed.

Lemma firstNearest_unique ns f n m :
  firstNearest ns f n -> firstNearest ns f m -> n = m.
Proof.
  intros (i & Hi & Hall & Hb) (j & Hj & Hall' & Hb').
  destruct (Nat.lt_trichotomy i j) as [Hlt|[->|Hgt]].
  - specialize (Hb' i n Hlt Hi). specialize (Hall j m Hj). lra.
  - congruence.
  - specialize (Hb j m Hgt Hj). specialize (Hall' i n Hi). lra.
Qed.

Lemma or_null_nonempty s : s <> EmptyString -> or_null s = Some s.
Proof.
  intros H. unfold or_null. destruct (String.eqb s EmptyString) eqn:E; [|done].
  by apply String.eqb_eq in E.
Qed.

Lemma targetOk_nodes w w' p :
  nodes w' = nodes w -> targetOk w p -> targetOk w' p.
Proof. unfold targetOk. by intros ->. Qed.

Lemma targetOk_retargeted w p :
  Forall (fun n => node_id n <> EmptyString) (nodes w) ->
  targetOk w (set_targetNodeId
                (n ← findNearestNode w (locationalFrequency p); or_null (node_id n)) p).
Proof.
  intros Hids. unfold targetOk. simpl.
  destruct (findNearestNode w (locationalFrequency p)) as [n|] eqn:E; simpl.
  - pose proof (findNearestNode_first _ _ _ E) as Hn.
    rewrite or_null_nonempty.
    + by exists n.
    + destruct Hn as (i & Hi & _). rewrite Forall_forall in Hids.
      apply Hids. by eapply list_elem_of_lookup_2.
  - by apply findNearestNode_None in E.
Qed.

Lemma targetOk_updateTargetNodes w :
  Forall (fun n => node_id n <> EmptyString) (nodes w) ->
  Forall (targetOk (updateTargetNodes w)) (particles (updateTargetNodes w)).
Proof.
  intros Hids. unfold updateTargetNodes. simpl.
  apply Forall_fmap, Forall_forall. intros p _. simpl.
  apply (targetOk_nodes w); [done|]. by apply targetOk_retargeted.
Qed.

Lemma nodes_spawnParticle pos e w : nodes (spawnParticle pos e w) = nodes w.
Proof.
  unfold spawnParticle. destruct (_ <=? _)%nat; [done|].
  by destruct (match pos with Some _ => _ | None => _ end).
Qed.

Lemma targetOk_spawnParticle pos e w :
  Forall (fun n => node_id n <> EmptyString) (nodes w) ->
  Forall (targetOk w) (particles w) ->
  Forall (targetOk (spawnParticle pos e w)) (particles (spawnParticle pos e w)).
Proof.
  intros Hids Hinv. unfold spawnParticle.
  destruct (_ <=? _)%nat; [done|].
  destruct (match pos with Some _ => _ | None => _ end); [|done].
  by apply targetOk_updateTargetNodes.
Qed.

(** * What the collisions leave alone *)

Lemma sameIdentity_refl p : sameIdentity p p.
Proof. by repeat split. Qed.

Lemma sameIdentity_trans p q r :
  sameIdentity p q -> sameIdentity q r -> sameIdentity p r.
Proof. intros (?&?&?&?) (?&?&?&?). repeat split; congruence. Qed.

Lemma sameIdentity_resonate cur others target :
  sameIdentity target (resonate cur others target).
Proof. by repeat split. Qed.

Lemma Forall2_sameIdentity_refl u : Forall2 sameIdentity u u.
Proof. apply Forall2_same_length_lookup. split; [done|]. intros i p q ? ?.
  assert (p = q) as -> by congruence. apply sameIdentity_refl. Qed.

Lemma Forall2_sameIdentity_trans u1 u2 u3 :
  Forall2 sameIdentity u1 u2 -> Forall2 sameIdentity u2 u3 -> Forall2 sameIdentity u1 u3.
Proof.
  intros H1 H2. revert u3 H2. induction H1; intros u3 H2; inversion H2; subst.
  - constructor.
  - constructor; [by eapply sameIdentity_trans|]. by apply IHForall2.
Qed.

Lemma identity_collideOne refs st ref :
  Forall2 sameIdentity st.1 (collideOne refs st ref).1.
Proof.
  unfold collideOne.
  destruct (st.1 !! ref) as [cur|]; [|apply Forall2_sameIdentity_refl].
  destruct (_ =? _)%nat; [apply Forall2_sameIdentity_refl|].
  destruct (findIndex _ _) as [i|]; [|apply Forall2_sameIdentity_refl].
  destruct (st.1 !! i) as [target|] eqn:Ei; [|apply Forall2_sameIdentity_refl].
  simpl. rewrite <- (list_insert_id st.1 i target) at 1 by done.
  apply Forall2_insert; [apply Forall2_sameIdentity_refl|].
  apply sameIdentity_resonate.
Qed.

Lemma identity_collideAll refs l st :
  Forall2 sameIdentity st.1 (fold_left (collideOne refs) l st).1.
Proof.
  revert st. induction l as [|r l IH]; intros st; simpl.
  - apply Forall2_sameIdentity_refl.
  - eapply Forall2_sameIdentity_trans; [apply identity_collideOne|apply IH].
Qed.

Section Identity.
Variable Math_sqrt : Q -> Q.

Lemma updated_collide node nid pids a :
  updated (collide node nid pids a)
  = if (1 <? length (omap (findIndex (updated a)) pids))%nat
    then (fold_left (collideOne (omap (findIndex (updated a)) pids))
                    (omap (findIndex (updated a)) pids) (updated a, false)).1
    else updated a.
Proof.
  unfold collide. simpl.
  destruct (1 <? _)%nat.
  - destruct (fold_left _ _ _) as [u f]. by destruct f.
  - done.
Qed.

Lemma identity_collide node nid pids a :
  Forall2 sameIdentity (updated a) (updated (collide node nid pids a)).
Proof.
  rewrite updated_collide. destruct (1 <? _)%nat.
  - apply (identity_collideAll _ _ (updated a, false)).
  - apply Forall2_sameIdentity_refl.
Qed.

Lemma identity_processNode a entry :
  Forall2 sameIdentity (updated a) (updated (processNode Math_sqrt a entry)).
Proof.
  destruct entry as [nid pids]. unfold processNode.
  destruct (findNode _ _) as [node|]; [|apply Forall2_sameIdentity_refl].
  set (a1 := if isCorner node then _ else a).
  assert (updated a1 = updated a) as H1.
  { subst a1. destruct (isCorner node); [|done]. apply updated_cornerTorques. }
  destruct (1 <? _)%nat.
  - rewrite <- H1. apply identity_collide.
  - rewrite H1. apply Forall2_sameIdentity_refl.
Qed.

Lemma identity_processNodes occ a :
  Forall2 sameIdentity (updated a) (updated (fold_left (processNode Math_sqrt) occ a)).
Proof.
  revert a. induction occ as [|x occ IH]; intros a; simpl.
  - apply Forall2_sameIdentity_refl.
  - eapply Forall2_sameIdentity_trans; [apply identity_processNode|apply IH].
Qed.

Lemma identity_passAfter e w entries :
  Forall2 sameIdentity (assigned e w) (updated (passAfter Math_sqrt e w entries)).
Proof. apply (identity_processNodes _ (mkPass w _ _ _)). Qed.

Lemma identity_fieldPass e w :
  Forall2 sameIdentity (assigned e w) (updated (fieldPass Math_sqrt e w)).
Proof. rewrite fieldPass_unfold. apply identity_passAfter. Qed.

Lemma targetOk_sameIdentity w p q : sameIdentity p q -> targetOk w p -> targetOk w q.
Proof. intros (_&_&Hl&Ht). unfold targetOk. by rewrite Hl, Ht. Qed.

Lemma targetOk_retarget w p0 noise :
  Forall (fun n => node_id n <> EmptyString) (nodes w) ->
  targetOk w p0 ->
  targetOk w (retarget w (driftAndDecay w noise p0)).
Proof.
  intros Hids H0. unfold retarget.
  destruct (findNearestNode w _) as [n|] eqn:E.
  - unfold targetOk. simpl targetNodeId. exists n. split; [|done].
    by apply findNearestNode_first.
  - apply findNearestNode_None in E. unfold targetOk in *. simpl.
    destruct (targetNodeId p0) as [t|]; [|done].
    destruct H0 as (n & (i & Hi & _) & _). rewrite E in Hi. done.
Qed.

Lemma targetOk_assigned e w :
  Forall (fun n => node_id n <> EmptyString) (nodes w) ->
  Forall (targetOk w) (particles w) ->
  Forall (targetOk w) (assigned e w).
Proof.
  intros Hids Hinv. apply Forall_lookup. intros i p Hp.
  unfold assigned, drifted in Hp. rewrite list_lookup_fmap in Hp.
  destruct (imap _ _ !! i) as [d|] eqn:Ed; [|done]. injection Hp as <-.
  rewrite list_lookup_imap in Ed.
  destruct (particles w !! i) as [p0|] eqn:E0; [|done]. injection Ed as <-.
  apply targetOk_retarget; [done|].
  rewrite Forall_lookup in Hinv. by eapply Hinv.
Qed.

Lemma targetOk_fieldPass e w :
  Forall (fun n => node_id n <> EmptyString) (nodes w) ->
  Forall (targetOk w) (particles w) ->
  Forall (targetOk w) (updated (fieldPass Math_sqrt e w)).
Proof.
  intros Hids Hinv.
  pose proof (identity_fieldPass e w) as Hid.
  pose proof (targetOk_assigned e w Hids Hinv) as Ha.
  apply Forall_lookup. intros i q Hq.
  destruct (Forall2_lookup_r _ _ _ _ _ Hid Hq) as (p & Hp & Hpq).
  apply (targetOk_sameIdentity w p q Hpq).
  rewrite Forall_lookup in Ha. by eapply Ha.
Qed.

Lemma nodes_updateParticles e w : nodes (updateParticles Math_sqrt e w) = nodes w.
Proof.
  unfold updateParticles. simpl. rewrite (proj1 (scheduleRespawns_fields _)).
  apply (steady_fieldPass Math_sqrt e w).
Qed.

Lemma nodes_thresholdRule e w : nodes (thresholdRule e w) = nodes w.
Proof. unfold thresholdRule. destruct (_ && _); [|done]. apply nodes_spawnParticle. Qed.

Lemma nodes_processFieldDynamics e w :
  nodes (processFieldDynamics Math_sqrt e w) = nodes w.
Proof.
  unfold processFieldDynamics.
  rewrite nodes_thresholdRule, nodes_updateParticles. apply steady_rotate.
Qed.

Lemma targetOk_updateParticles e w :
  Forall (fun n => node_id n <> EmptyString) (nodes w) ->
  Forall (targetOk w) (particles w) ->
  Forall (targetOk (updateParticles Math_sqrt e w)) (particles (updateParticles Math_sqrt e w)).
Proof.
  intros Hids Hinv.
  pose proof (targetOk_fieldPass e w Hids Hinv) as Hu.
  unfold updateParticles. simpl. unfold finalParticles.
  apply Forall_forall. intros p Hin.
  apply list_elem_of_filter in Hin. destruct Hin as [_ Hin].
  rewrite Forall_forall in Hu. specialize (Hu p Hin).
  revert Hu. apply targetOk_nodes. simpl.
  rewrite (proj1 (scheduleRespawns_fields _)).
  apply (steady_fieldPass Math_sqrt e w).
Qed.

Lemma targetOk_processFieldDynamics e w :
  Forall (fun n => node_id n <> EmptyString) (nodes w) ->
  Forall (targetOk w) (particles w) ->
  Forall (targetOk (processFieldDynamics Math_sqrt e w))
         (particles (processFieldDynamics Math_sqrt e w)).
Proof.
  intros Hids Hinv. unfold processFieldDynamics.
  destruct (steady_rotate Math_sqrt w) as (Hn & Hp & _).
  assert (Forall (targetOk (updateParticles Math_sqrt e (rotate Math_sqrt w)))
                 (particles (updateParticles Math_sqrt e (rotate Math_sqrt w)))) as H1.
  { apply targetOk_updateParticles; rewrite ?Hn, ?Hp; [done|].
    eapply Forall_impl; [exact Hinv|]. intros p. by apply targetOk_nodes. }
  unfold thresholdRule. destruct (_ && _); [|done].
  apply targetOk_spawnParticle; [|done].
  by rewrite nodes_updateParticles, Hn.
Qed.

Lemma targetOk_runTask task e w :
  Forall (fun n => node_id n <> EmptyString) (nodes w) ->
  Forall (targetOk w) (particles w) ->
  nodes (runTask task e w) = nodes w
  /\ Forall (targetOk (runTask task e w)) (particles (runTask task e w)).
Proof.
  intros Hids Hinv. destruct task; simpl; try done.
  split; [apply nodes_spawnParticle|by apply targetOk_spawnParticle].
Qed.

Lemma targetOk_fire es l st :
  Forall (fun n => node_id n <> EmptyString) (nodes st.2) ->
  Forall (targetOk st.2) (particles st.2) ->
  nodes (fold_left (fire es) l st).2 = nodes st.2
  /\ Forall (targetOk (fold_left (fire es) l st).2)
            (particles (fold_left (fire es) l st).2).
Proof.
  revert st. induction l as [|t l IH]; intros st Hids Hinv; simpl; [done|].
  destruct (targetOk_runTask t.2 (es st.1) (set_clock (Z.max t.1 (clock st.2)) st.2))
    as [Hn Ht]; [done|done|].
  destruct (IH (fire es st t)) as [Hn' Ht'].
  - simpl. by rewrite Hn.
  - done.
  - split; [|done]. rewrite Hn'. simpl. by rewrite Hn.
Qed.

Lemma targetOk_advance t es w :
  Forall (fun n => node_id n <> EmptyString) (nodes w) ->
  Forall (targetOk w) (particles w) ->
  nodes (advance t es w) = nodes w
  /\ Forall (targetOk (advance t es w)) (particles (advance t es w)).
Proof.
  intros Hids Hinv. unfold advance. destruct (_ <=? _)%Z; [done|].
  set (w0 := set_timers _ w).
  destruct (targetOk_fire es (inDueOrder (List.filter (fun x => (x.1 <=? t)%Z) (timers w)))
              (0%nat, w0)) as [Hn Ht]; [done|done|].
  split; [exact Hn|exact Ht].
Qed.

Lemma nodes_boot now e : nodes (boot now e) = generateNodes SIM_CONFIG.GRID_SIZE.
Proof. unfold boot. by rewrite nodes_spawnParticle. Qed.

Lemma generated_ids_nonempty :
  Forall (fun n => node_id n <> EmptyString) (generateNodes SIM_CONFIG.GRID_SIZE).
Proof. apply (bool_decide_unpack _). vm_compute. exact I. Qed.

Lemma targetOk_boot now e : Forall (targetOk (boot now e)) (particles (boot now e)).
Proof.
  unfold boot. apply targetOk_spawnParticle; [|by constructor].
  exact generated_ids_nonempty.
Qed.

(** C5: [findNearestNode] returns the first node, in the order of the node
    array, at the least distance from the frequency.  In a world whose node
    identifiers are not empty, every operation of the service (a spawn, a
    tick, the passing of time) keeps the targets exact: afterwards the
    target of each stored particle names the first nearest node of the
    particle's current frequency, and a target is [null] only when there
    are no nodes.  The same holds inside a tick for the array that the
    target assignment pass produces from the drifted particles. *)
Theorem targets_nearest w a :
  Forall (fun n => node_id n <> EmptyString) (nodes w) ->
  Forall (targetOk w) (particles w) ->
  Forall (targetOk (perform Math_sqrt w a)) (particles (perform Math_sqrt w a))
  /\ (forall e, Forall (targetOk w) (assigned e w))
  /\ forall f n, findNearestNode w f = Some n -> firstNearest (nodes w) f n.
Proof.
  intros Hids Hinv. split; [|split; [|apply findNearestNode_first]].
  - destruct a; simpl.
    + by apply targetOk_spawnParticle.
    + by apply targetOk_processFieldDynamics.
    + by apply targetOk_advance.
  - intros e. by apply targetOk_assigned.
Qed.

End Identity.


Lemma started_node_ids : Forall (fun n => node_id n <> EmptyString) (nodes started).
Proof. unfold started. rewrite nodes_boot. exact generated_ids_nonempty. Qed.

Lemma targets_nearest_witness :
  Forall (targetOk (perform sqrt_floor started (Tick calm)))
         (particles (perform sqrt_floor started (Tick calm))).
Proof.
  exact (proj1 (targets_nearest sqrt_floor started (Tick calm) started_node_ids
           (targetOk_boot 1000 (quiet "a")))).
Defined.

(** * Looking particles up by identifier *)

Lemma findIndex_Some u pid i :
  findIndex u pid = Some i -> exists p, u !! i = Some p /\ id p = pid.
Proof.
  unfold findIndex. destruct (list_find _ u) as [[j p]|] eqn:E; [|done].
  intros [= <-]. apply list_find_Some in E. destruct E as (H1 & H2 & _).
  by exists p.
Qed.

Lemma findIndex_None u pid :
  findIndex u pid = None -> pid ∉ id <$> u.
Proof.
  unfold findIndex. destruct (list_find _ u) as [[j p]|] eqn:E; [done|].
  intros _. rewrite list_find_None in E. rewrite Forall_forall in E.
  intros Hin. apply list_elem_of_fmap in Hin. destruct Hin as (p & -> & Hp).
  by apply (E p).
Qed.

Lemma findIndex_unique u i p :
  NoDup (id <$> u) -> u !! i = Some p -> findIndex u (id p) = Some i.
Proof.
  intros Hnd Hi. unfold findIndex.
  destruct (list_find _ u) as [[j q]|] eqn:E.
  - apply list_find_Some in E. destruct E as (Hj & Hq & _). simpl. f_equal.
    eapply (NoDup_lookup (id <$> u)); [done| |].
    + rewrite list_lookup_fmap, Hj. simpl. by rewrite Hq.
    + by rewrite list_lookup_fmap, Hi.
  - rewrite list_find_None in E. rewrite Forall_forall in E.
    exfalso. apply (E p); [|done]. by eapply list_elem_of_lookup_2.
Qed.

Lemma findParticle_findIndex u pid :
  findParticle u pid = (i ← findIndex u pid; u !! i).
Proof.
  unfold findParticle, findIndex.
  destruct (list_find _ u) as [[j q]|] eqn:E; [|done]. simpl.
  apply list_find_Some in E. by destruct E as (-> & _).
Qed.

Lemma sameIdentity_ids u u' : Forall2 sameIdentity u u' -> id <$> u' = id <$> u.
Proof.
  induction 1 as [|p q u u' Hpq _ IH]; [done|].
  rewrite !fmap_cons, IH. f_equal. apply Hpq.
Qed.

Lemma findIndex_ids u u' pid :
  id <$> u' = id <$> u -> findIndex u' pid = findIndex u pid.
Proof.
  unfold findIndex. revert u'.
  induction u as [|p u IH]; intros [|p' u'] H; try done.
  rewrite !fmap_cons in H. injection H as Hp Hu.
  simpl. rewrite Hp. destruct (decide (id p = pid)); [done|].
  specialize (IH u' Hu).
  destruct (list_find _ u') as [[? ?]|]; destruct (list_find _ u) as [[? ?]|];
    simpl in *; congruence.
Qed.

(** * One colliding particle, when identifiers are distinct *)

Lemma lookup_distinct_ids u i j p q :
  NoDup (id <$> u) -> u !! i = Some p -> u !! j = Some q -> id p = id q -> i = j.
Proof.
  intros Hnd Hi Hj Hpq.
  eapply (NoDup_lookup (id <$> u)); [done| |].
  - by rewrite list_lookup_fmap, Hi.
  - rewrite list_lookup_fmap, Hj. simpl. by rewrite Hpq.
Qed.

Lemma filter_all {A} (P : A -> Prop) `{forall x, Decision (P x)} (l : list A) :
  Forall P l -> filter P l = l.
Proof.
  induction 1 as [|x l Hx _ IH]; [done|].
  rewrite filter_cons_True by done. by rewrite IH.
Qed.

Lemma omap_lookup_others u cur ref (l : list nat) :
  NoDup (id <$> u) -> u !! ref = Some cur -> ref ∉ l ->
  filter (fun p => id p <> id cur) (omap (fun r => u !! r) l) = omap (fun r => u !! r) l.
Proof.
  intros Hnd Hcur Hnot. apply filter_all. apply Forall_forall. intros q Hq.
  apply list_elem_of_omap in Hq. destruct Hq as (r & Hr & Hq).
  intros Heq. assert (r = ref) as -> by (by eapply lookup_distinct_ids).
  done.
Qed.

Lemma others_split u cur ref (pre post : list nat) :
  NoDup (id <$> u) -> NoDup (pre ++ ref :: post) -> u !! ref = Some cur ->
  filter (fun p => id p <> id cur) (omap (fun r => u !! r) (pre ++ ref :: post))
  = omap (fun r => u !! r) pre ++ omap (fun r => u !! r) post.
Proof.
  intros Hnd Hrefs Hcur.
  apply NoDup_app in Hrefs. destruct Hrefs as (_ & Hpre & Hpost).
  apply NoDup_cons in Hpost. destruct Hpost as [Hpost _].
  rewrite omap_app, filter_app.
  assert (omap (fun r => u !! r) (ref :: post) = cur :: omap (fun r => u !! r) post) as ->.
  { simpl. by rewrite Hcur. }
  rewrite filter_cons_False by (intros H; by apply H).
  rewrite (omap_lookup_others u cur ref pre), (omap_lookup_others u cur ref post); try done.
  intros Hin. apply (Hpre ref); [done|]. by left.
Qed.

Lemma collideOne_distinct (refs : list nat) u f ref cur :
  NoDup (id <$> u) -> u !! ref = Some cur ->
  let others := filter (fun p => id p <> id cur) (omap (fun r => u !! r) refs) in
  collideOne refs (u, f) ref
  = if (length others =? 0)%nat then (u, f)
    else (<[ref := resonate cur others cur]> u,
          if Js.ge (energyLevel (resonate cur others cur)) 1 then true else f).
Proof.
  intros Hnd Hcur others. unfold collideOne. simpl.
  rewrite Hcur. fold others.
  destruct (length others =? 0)%nat; [done|].
  rewrite (findIndex_unique u ref cur) by done. by rewrite Hcur.
Qed.

Lemma omap_agree {A B} (f g : A -> option B) (l : list A) :
  (forall x, x ∈ l -> f x = g x) -> omap f l = omap g l.
Proof.
  induction l as [|x l IH]; intros H; [done|].
  csimpl. rewrite (H x) by left. rewrite IH; [done|].
  intros y Hy. apply H. by right.
Qed.

Lemma length_omap_valid {A B} (f : A -> option B) (l : list A) :
  (forall x, x ∈ l -> is_Some (f x)) -> length (omap f l) = length l.
Proof.
  induction l as [|x l IH]; intros H; [done|].
  csimpl. destruct (H x) as [y Hy]; [left|]. rewrite Hy. simpl.
  rewrite IH; [done|]. intros z Hz. apply H. by right.
Qed.

Lemma ge_spec a b : Js.ge a b = true <-> b <= a.
Proof. unfold Js.ge. apply Qle_bool_iff. Qed.

Lemma seenBy_agree k (refs : list nat) u uk uk' :
  (forall r, r ∈ take k refs -> uk' !! r = uk !! r) ->
  seenBy k refs u uk' = seenBy k refs u uk.
Proof.
  intros H. unfold seenBy. f_equal. by apply omap_agree.
Qed.

(** The array and the flag after the callbacks of the occupants [post],
    those of [pre] having run. *)
Lemma collide_fold_spec u (refs : list nat) :
  NoDup (id <$> u) -> NoDup refs -> (forall r, r ∈ refs -> is_Some (u !! r)) ->
  (2 <= length refs)%nat ->
  forall post pre uk fk,
    refs = pre ++ post ->
    Forall2 sameIdentity u uk ->
    (forall j, j ∉ pre -> uk !! j = u !! j) ->
    (forall k r p, pre !! k = Some r -> u !! r = Some p ->
       uk !! r = Some (resonate p (seenBy k refs u uk) p)) ->
    (fk = true <-> exists r p, r ∈ pre /\ uk !! r = Some p /\ 1 <= energyLevel p) ->
    let st := fold_left (collideOne refs) post (uk, fk) in
    Forall2 sameIdentity u st.1
    /\ (forall j, j ∉ refs -> st.1 !! j = u !! j)
    /\ (forall k r p, refs !! k = Some r -> u !! r = Some p ->
          st.1 !! r = Some (resonate p (seenBy k refs u st.1) p))
    /\ (st.2 = true <-> exists r p, r ∈ refs /\ st.1 !! r = Some p /\ 1 <= energyLevel p).
Proof.
  intros Hnd Hrefs Hvalid Hlen.
  induction post as [|ref post IH]; intros pre uk fk Hsplit Hid Hout Hin Hflag.
  { rewrite app_nil_r in Hsplit. subst pre. simpl. tauto. }
  simpl.
  assert (NoDup (id <$> uk)) as Hnd' by (by rewrite (sameIdentity_ids _ _ Hid)).
  assert (ref ∉ pre) as Hfresh.
  { rewrite Hsplit in Hrefs. apply NoDup_app in Hrefs.
    destruct Hrefs as (_ & Hdis & _). intros Hp. apply (Hdis ref Hp). by left. }
  assert (forall r, r ∈ pre \/ r = ref \/ r ∈ post -> r ∈ refs) as Hmem.
  { intros r Hr. rewrite Hsplit. apply elem_of_app.
    destruct Hr as [Hr|[->|Hr]]; [by left|right; left|right; by right]. }
  destruct (Hvalid ref) as [cur Hcur]; [apply Hmem; tauto|].
  assert (uk !! ref = Some cur) as Hcur' by (by rewrite Hout).
  pose proof (collideOne_distinct refs uk fk ref cur Hnd' Hcur') as Hstep.
  cbv zeta in Hstep.
  assert (take (length pre) refs = pre) as Htake.
  { rewrite Hsplit. by rewrite take_app_length. }
  assert (drop (S (length pre)) refs = post) as Hdrop.
  { rewrite Hsplit. rewrite (cons_middle ref pre post), app_assoc.
    replace (S (length pre)) with (length (pre ++ [ref])) by (rewrite length_app; simpl; lia).
    by rewrite drop_app_length. }
  assert (omap (fun r => uk !! r) pre ++ omap (fun r => uk !! r) post
          = seenBy (length pre) refs u uk) as Hseen.
  { unfold seenBy. rewrite Htake, Hdrop. f_equal.
    apply omap_agree. intros r Hr. apply Hout. intros Hp.
    rewrite Hsplit in Hrefs. apply NoDup_app in Hrefs.
    destruct Hrefs as (_ & Hdis & _). apply (Hdis r Hp). by right. }
  assert (filter (fun p => id p <> id cur) (omap (fun r => uk !! r) refs)
          = seenBy (length pre) refs u uk) as Hothers.
  { rewrite <- Hseen. rewrite <- (others_split uk cur ref pre post); try done.
    - by rewrite <- Hsplit.
    - by rewrite <- Hsplit. }
  rewrite Hothers in Hstep.
  assert (forall r, r ∈ refs -> is_Some (uk !! r)) as Hvalid'.
  { intros r Hr. apply lookup_lt_is_Some. rewrite <- (Forall2_length _ _ _ Hid).
    apply lookup_lt_is_Some. by apply Hvalid. }
  assert (length (seenBy (length pre) refs u uk) = (length refs - 1)%nat) as Hn.
  { rewrite <- Hseen, length_app.
    rewrite !length_omap_valid.
    - rewrite Hsplit, length_app. simpl. lia.
    - intros r Hr. apply Hvalid'. apply Hmem. tauto.
    - intros r Hr. apply Hvalid'. apply Hmem. tauto. }
  destruct (length (seenBy (length pre) refs u uk) =? 0)%nat eqn:Ezero.
  { apply Nat.eqb_eq in Ezero. lia. }
  rewrite Hstep. clear Hstep Ezero.
  set (result := resonate cur (seenBy (length pre) refs u uk) cur).
  assert (forall r, r ∈ pre -> <[ref:=result]> uk !! r = uk !! r) as Hkeep.
  { intros r Hr. apply list_lookup_insert_ne. intros ->. done. }
  apply (IH (pre ++ [ref])).
  - by rewrite <- app_assoc.
  - rewrite <- (list_insert_id u ref cur) by done.
    apply Forall2_insert; [done|]. apply sameIdentity_resonate.
  - intros j Hj. rewrite elem_of_app, list_elem_of_singleton in Hj.
    rewrite list_lookup_insert_ne by (intros ->; tauto).
    apply Hout. tauto.
  - intros k r p Hk Hp.
    assert (seenBy k refs u (<[ref:=result]> uk) = seenBy k refs u uk) as ->.
    { apply seenBy_agree. intros r' Hr'. apply Hkeep.
      apply lookup_lt_Some in Hk. rewrite length_app in Hk. simpl in Hk.
      rewrite <- Htake. apply list_elem_of_lookup_1 in Hr'. destruct Hr' as [i Hi].
      apply lookup_take_Some in Hi. destruct Hi as [Hi Hik].
      apply list_elem_of_lookup. exists i.
      apply lookup_take_Some. split; [done|lia]. }
    destruct (decide (k < length pre)%nat) as [Hlt|Hge].
    + rewrite lookup_app_l in Hk by done.
      rewrite Hkeep by (by eapply list_elem_of_lookup_2).
      by apply Hin.
    + rewrite lookup_app_r in Hk by lia.
      destruct (k - length pre)%nat eqn:Ek; [|done]. injection Hk as <-.
      assert (k = length pre) as -> by lia.
      assert (p = cur) as -> by congruence.
      apply list_lookup_insert_eq. by eapply lookup_lt_Some.
  - split.
    + intros Hf. destruct (Js.ge (energyLevel result) 1) eqn:Ege.
      * exists ref, result. split; [apply elem_of_app; right; left|]. split.
        -- apply list_lookup_insert_eq. by eapply lookup_lt_Some.
        -- by apply ge_spec.
      * apply Hflag in Hf. destruct Hf as (r & p & Hr & Hp & He).
        exists r, p. split; [apply elem_of_app; by left|]. split; [|done]. by rewrite Hkeep.
    + intros (r & p & Hr & Hp & He).
      apply elem_of_app in Hr. destruct Hr as [Hr|Hr].
      * rewrite Hkeep in Hp by done.
        assert (fk = true) as -> by (apply Hflag; by exists r, p).
        by destruct (Js.ge _ _).
      * apply list_elem_of_singleton in Hr. subst r.
        rewrite list_lookup_insert_eq in Hp by (by eapply lookup_lt_Some).
        injection Hp as <-. apply ge_spec in He. by rewrite He.
Qed.

(** * Bounds of the attributes *)

Lemma sum_nonneg (f : ParticleState -> Q) ps acc :
  Forall (fun p => 0 <= f p) ps -> 0 <= acc ->
  0 <= fold_left (fun acc p => acc + f p) ps acc.
Proof.
  intros H. revert acc. induction H as [|p ps Hp _ IH]; intros acc Hacc; simpl; [done|].
  apply IH. lra.
Qed.

Lemma mean_nonneg (f : ParticleState -> Q) ps :
  Forall (fun p => 0 <= f p) ps -> 0 <= mean f ps.
Proof.
  intros H. unfold mean. unfold Qdiv.
  apply Qmult_le_0_compat.
  - apply sum_nonneg; [done|lra].
  - apply Qinv_le_0_compat. change 0 with (inject_Z 0). rewrite <- Zle_Qle. lia.
Qed.

Lemma count_nonneg (n : nat) : 0 <= inject_Z (Z.of_nat n).
Proof. change 0 with (inject_Z 0). rewrite <- Zle_Qle. lia. Qed.

Lemma sq_nonneg x : 0 <= Js.sq x.
Proof. unfold Js.sq. nra. Qed.

Lemma half_nonneg x : 0 <= x -> 0 <= x / 2.
Proof.
  intros H. unfold Qdiv. apply Qmult_le_0_compat; [done|]. discriminate.
Qed.

Lemma amplitudeFactor_nonneg cur others :
  0 <= amplitude cur -> Forall (fun p => 0 <= amplitude p) others ->
  0 <= amplitudeFactor cur others.
Proof.
  intros Hc Ho. pose proof (mean_nonneg amplitude others Ho) as Hm.
  unfold amplitudeFactor. apply half_nonneg. lra.
Qed.

Lemma harmonicIncrease_nonneg cur others :
  0 <= amplitude cur -> Forall (fun p => 0 <= amplitude p) others ->
  0 <= harmonicIncrease cur others.
Proof.
  intros Hc Ho. unfold harmonicIncrease.
  pose proof (mean_nonneg amplitude others Ho) as Hm.
  pose proof (count_nonneg (length others)) as Hn.
  assert (0 <= resonanceFactor cur others) as Hr.
  { unfold resonanceFactor. cbv zeta. apply sq_nonneg. }
  assert (0 <= amplitudeFactor cur others) as Ha.
  { by apply amplitudeFactor_nonneg. }
  apply Qmult_le_0_compat; [by apply Qmult_le_0_compat|]. lra.
Qed.

Lemma min_cap_grows cap x inc : x <= cap -> 0 <= inc -> x <= Js.min cap (x + inc).
Proof. intros. unfold Js.min. apply Q.min_glb; lra. Qed.

Lemma min_cap_le cap x : Js.min cap x <= cap.
Proof. unfold Js.min. apply Q.le_min_l. Qed.

(** One collision update raises the three attributes of the particle and
    keeps them within their bounds. *)
Lemma resonate_grows cur others :
  inBounds cur -> Forall (fun p => 0 <= amplitude p) others ->
  inBounds (resonate cur others cur)
  /\ harmonicFactor cur <= harmonicFactor (resonate cur others cur)
  /\ amplitude cur <= amplitude (resonate cur others cur)
  /\ energyLevel cur <= energyLevel (resonate cur others cur).
Proof.
  intros ((Ha0 & Ha1) & (Hh0 & Hh1) & (He0 & He1)) Ho.
  assert (0 <= harmonicIncrease cur others) as Hinc.
  { apply harmonicIncrease_nonneg; [lra|done]. }
  assert (0 <= amplitudeFactor cur others * (15 # 100)) as Hamp.
  { pose proof (amplitudeFactor_nonneg cur others) as Hf.
    assert (0 <= amplitudeFactor cur others) by (apply Hf; [lra|done]). lra. }
  assert (0 <= (2 # 10) * inject_Z (Z.of_nat (length others))) as Hen.
  { pose proof (count_nonneg (length others)). lra. }
  pose proof (min_cap_grows 4 (harmonicFactor cur) _ Hh1 Hinc) as G1.
  pose proof (min_cap_grows 1 (amplitude cur) _ Ha1 Hamp) as G2.
  pose proof (min_cap_grows 1 (energyLevel cur) _ He1 Hen) as G3.
  pose proof (min_cap_le 4 (harmonicFactor cur + harmonicIncrease cur others)) as C1.
  pose proof (min_cap_le 1 (amplitude cur + amplitudeFactor cur others * (15 # 100))) as C2.
  pose proof (min_cap_le 1 (energyLevel cur + (2 # 10) * inject_Z (Z.of_nat (length others)))) as C3.
  unfold inBounds, resonate. simpl.
  repeat split; lra.
Qed.

Lemma inBounds_amplitude p : inBounds p -> 0 <= amplitude p.
Proof. intros ((H & _) & _). lra. Qed.

Lemma max_floor_le lo x : lo <= Js.max lo x.
Proof. unfold Js.max. apply Q.le_max_l. Qed.

Lemma max_floor_cap lo hi x : lo <= hi -> x <= hi -> Js.max lo x <= hi.
Proof. intros. unfold Js.max. apply Q.max_lub; lra. Qed.

(** Step 1 of the tick clamps the frequency to the band, and keeps the
    three attributes within their bounds. *)
Lemma driftAndDecay_band w noise p : inBand (driftAndDecay w noise p).
Proof.
  unfold inBand, driftAndDecay. cbv zeta. simpl. split.
  - apply max_floor_le.
  - apply max_floor_cap; [lra|]. apply min_cap_le.
Qed.

Lemma driftAndDecay_floors w noise p :
  4 # 10 <= amplitude (driftAndDecay w noise p)
  /\ 1 <= harmonicFactor (driftAndDecay w noise p)
  /\ 1 # 10 <= energyLevel (driftAndDecay w noise p).
Proof. unfold driftAndDecay. cbv zeta. simpl. repeat split; apply max_floor_le. Qed.

Lemma driftAndDecay_bounds w noise p :
  inBounds p -> inBounds (driftAndDecay w noise p).
Proof.
  intros ((Ha0 & Ha1) & (Hh0 & Hh1) & (He0 & He1)).
  destruct (driftAndDecay_floors w noise p) as (F1 & F2 & F3).
  unfold inBounds. repeat split; try done;
    unfold driftAndDecay; cbv zeta; simpl; apply max_floor_cap;
    unfold SIM_CONFIG.DEFAULT_AMPLITUDE; lra.
Qed.

(** * The colliding objects *)

Lemma colliding_cons u pid pIds i :
  findIndex u pid = Some i -> colliding u (pid :: pIds) = i :: colliding u pIds.
Proof. intros H. unfold colliding. csimpl. by rewrite H. Qed.

Lemma colliding_spec u pIds :
  NoDup pIds -> (forall pid, pid ∈ pIds -> pid ∈ id <$> u) ->
  length (colliding u pIds) = length pIds
  /\ NoDup (colliding u pIds)
  /\ (forall r, r ∈ colliding u pIds -> is_Some (u !! r))
  /\ (forall k r, colliding u pIds !! k = Some r ->
        exists p, u !! r = Some p /\ pIds !! k = Some (id p)).
Proof.
  induction pIds as [|pid pIds IH]; intros Hnd Hin.
  { unfold colliding. simpl. repeat split; try done; [constructor|].
    intros r Hr. by apply elem_of_nil in Hr. }
  apply NoDup_cons in Hnd. destruct Hnd as [Hfresh Hnd].
  destruct IH as (Hlen & Hnd' & Hvalid & Hat); [done|intros; apply Hin; by right|].
  destruct (findIndex u pid) as [i|] eqn:Ei.
  2:{ apply findIndex_None in Ei. exfalso. apply Ei, Hin. by left. }
  rewrite (colliding_cons u pid pIds i Ei).
  destruct (findIndex_Some u pid i Ei) as (p & Hp & Hid).
  split; [simpl; by rewrite Hlen|]. split; [|split].
  - apply NoDup_cons. split; [|done]. intros Hi.
    apply list_elem_of_lookup_1 in Hi. destruct Hi as [k Hk].
    destruct (Hat k i Hk) as (q & Hq & Hk').
    assert (q = p) as -> by congruence.
    apply Hfresh. rewrite <- Hid. by eapply list_elem_of_lookup_2.
  - intros r Hr. apply elem_of_cons in Hr. destruct Hr as [->|Hr]; [by exists p|by apply Hvalid].
  - intros [|k] r Hk; simpl in Hk.
    + injection Hk as <-. exists p. by rewrite Hid.
    + by apply Hat.
Qed.

(** * Particles that a node does not hold are not written *)

Lemma collideOne_untouched (pIds : list string) u0 refs st ref :
  (exists p, u0 !! ref = Some p /\ id p ∈ pIds) ->
  Forall2 sameIdentity u0 st.1 ->
  forall i p, st.1 !! i = Some p -> id p ∉ pIds ->
    (collideOne refs st ref).1 !! i = Some p.
Proof.
  intros (p0 & Hp0 & Hin) Hid i p Hi Hout. unfold collideOne.
  destruct (st.1 !! ref) as [cur|] eqn:Hcur; [|done].
  destruct (_ =? _)%nat; [done|].
  destruct (findIndex _ _) as [idx|] eqn:Eidx; [|done].
  destruct (st.1 !! idx) as [target|] eqn:Ht; [|done].
  simpl. rewrite list_lookup_insert_ne; [done|]. intros ->.
  destruct (findIndex_Some _ _ _ Eidx) as (q & Hq & Hqid).
  assert (q = p) as -> by congruence.
  destruct (Forall2_lookup_l _ _ _ _ _ Hid Hp0) as (cur' & Hcur' & Hsame).
  assert (cur' = cur) as -> by congruence.
  destruct Hsame as (Hsid & _). apply Hout. by rewrite Hqid, Hsid.
Qed.

Lemma collideAll_untouched (pIds : list string) u0 refs l : forall st,
  (forall r, r ∈ l -> exists p, u0 !! r = Some p /\ id p ∈ pIds) ->
  Forall2 sameIdentity u0 st.1 ->
  forall i p, st.1 !! i = Some p -> id p ∉ pIds ->
    (fold_left (collideOne refs) l st).1 !! i = Some p.
Proof.
  induction l as [|ref l IH]; intros st Hrefs Hid i p Hi Hout; simpl; [done|].
  apply IH.
  - intros r Hr. apply Hrefs. by right.
  - eapply Forall2_sameIdentity_trans; [exact Hid|apply identity_collideOne].
  - eapply collideOne_untouched; try done. apply Hrefs. by left.
  - done.
Qed.

Lemma colliding_members u pIds r :
  r ∈ colliding u pIds -> exists p, u !! r = Some p /\ id p ∈ pIds.
Proof.
  unfold colliding. intros Hr. apply list_elem_of_omap in Hr.
  destruct Hr as (pid & Hpid & Hfind).
  destruct (findIndex_Some _ _ _ Hfind) as (p & Hp & Hid).
  exists p. split; [done|]. by rewrite Hid.
Qed.

Section Untouched.
Variable Math_sqrt : Q -> Q.

Lemma collide_untouched node nid pIds a i p :
  updated a !! i = Some p -> id p ∉ pIds ->
  updated (collide node nid pIds a) !! i = Some p.
Proof.
  intros Hi Hout. rewrite updated_collide.
  destruct (1 <? _)%nat; [|done].
  apply (collideAll_untouched pIds (updated a) _ _ (updated a, false)); try done.
  - intros r Hr. by apply colliding_members.
  - apply Forall2_sameIdentity_refl.
Qed.

Lemma processNode_untouched a nid pIds i p :
  updated a !! i = Some p -> id p ∉ pIds ->
  updated (processNode Math_sqrt a (nid, pIds)) !! i = Some p.
Proof.
  intros Hi Hout. unfold processNode.
  destruct (findNode _ _) as [node|]; [|done].
  set (a1 := if isCorner node then _ else a).
  assert (updated a1 = updated a) as H1.
  { subst a1. destruct (isCorner node); [|done]. apply updated_cornerTorques. }
  destruct (1 <? _)%nat; [|by rewrite H1].
  apply collide_untouched; [by rewrite H1|done].
Qed.

Lemma processNodes_untouched entries : forall a i p,
  updated a !! i = Some p ->
  (forall nid pIds, (nid, pIds) ∈ entries -> id p ∉ pIds) ->
  updated (fold_left (processNode Math_sqrt) entries a) !! i = Some p.
Proof.
  induction entries as [|[nid pIds] entries IH]; intros a i p Hi Hout; simpl; [done|].
  apply IH.
  - apply processNode_untouched; [done|]. apply (Hout nid). by left.
  - intros nid' pIds' Hin. apply (Hout nid'). by right.
Qed.

End Untouched.

(** * The occupancy *)

Lemma occupants_occupy k nid pid occ :
  occupants k (occupy nid pid occ)
  = if String.eqb nid k then occupants k occ ++ [pid] else occupants k occ.
Proof.
  induction occ as [|[k' pids] occ IH]; simpl.
  - by destruct (String.eqb nid k).
  - destruct (String.eqb k' nid) eqn:E1; simpl.
    + apply String.eqb_eq in E1. subst k'. by destruct (String.eqb nid k).
    + rewrite IH. destruct (String.eqb k' k) eqn:E2; [|done].
      apply String.eqb_eq in E2. subst k'. by rewrite String.eqb_sym, E1.
Qed.

Lemma keys_occupy nid pid (occ : Occupancy) :
  (occupy nid pid occ).*1 = if decide (nid ∈ occ.*1) then occ.*1 else occ.*1 ++ [nid].
Proof.
  induction occ as [|[k' pids] occ IH].
  - destruct (decide (nid ∈ ([] : Occupancy).*1)) as [Hin|Hout]; [|done].
    by apply elem_of_nil in Hin.
  - cbn [occupy]. destruct (String.eqb k' nid) eqn:E1.
    + apply String.eqb_eq in E1. subst k'.
      rewrite !fmap_cons. simpl.
      clear IH. case_decide as Hin; [done|].
      exfalso. apply Hin. by left.
    + apply String.eqb_neq in E1. rewrite !fmap_cons, IH. simpl.
      destruct (decide (nid ∈ occ.*1)) as [Hin|Hout];
        destruct (decide (nid ∈ k' :: occ.*1)) as [Hin'|Hout']; try done.
      * exfalso. apply Hout'. by right.
      * apply elem_of_cons in Hin'. destruct Hin' as [->|Hin']; done.
Qed.

Lemma NoDup_keys_occupy nid pid (occ : Occupancy) :
  NoDup occ.*1 -> NoDup (occupy nid pid occ).*1.
Proof.
  intros H. rewrite keys_occupy. destruct (decide _); [done|].
  apply NoDup_app. split; [done|]. split; [|apply NoDup_singleton].
  intros x Hx Hx'. apply list_elem_of_singleton in Hx'. by subst x.
Qed.

Lemma entry_occupants (occ : Occupancy) k pids :
  NoDup occ.*1 -> (k, pids) ∈ occ -> occupants k occ = pids.
Proof.
  induction occ as [|[k' pids'] occ IH]; intros Hnd Hin.
  { by apply elem_of_nil in Hin. }
  simpl in Hnd. apply NoDup_cons in Hnd. destruct Hnd as [Hfresh Hnd].
  apply elem_of_cons in Hin. simpl. destruct Hin as [[= <- <-]|Hin].
  - by rewrite String.eqb_refl.
  - destruct (String.eqb k' k) eqn:E.
    + apply String.eqb_eq in E. subst k'. exfalso. apply Hfresh.
      apply list_elem_of_fmap. by exists (k, pids).
    + by apply IH.
Qed.

Lemma occupants_enter w k occ p :
  occupants k (enter w occ p)
  = if decide (nearestId w p = Some k) then occupants k occ ++ [id p] else occupants k occ.
Proof.
  unfold enter, nearestId.
  destruct (findNearestNode w _) as [n|]; simpl.
  - rewrite occupants_occupy. destruct (String.eqb (node_id n) k) eqn:E.
    + apply String.eqb_eq in E. subst k. by rewrite decide_True.
    + apply String.eqb_neq in E. rewrite decide_False; [done|]. congruence.
  - done.
Qed.

Lemma occupancy_fold w u : forall occ : Occupancy,
  NoDup occ.*1 ->
  NoDup (fold_left (enter w) u occ).*1
  /\ forall k, occupants k (fold_left (enter w) u occ)
               = occupants k occ ++ (id <$> filter (fun p => nearestId w p = Some k) u).
Proof.
  induction u as [|p u IH]; intros occ Hnd; simpl.
  - split; [done|]. intros k. by rewrite app_nil_r.
  - destruct (IH (enter w occ p)) as [Hnd' Hocc].
    { unfold enter. destruct (findNearestNode w _); [|done]. by apply NoDup_keys_occupy. }
    split; [done|]. intros k. rewrite Hocc, occupants_enter.
    destruct (decide (nearestId w p = Some k)) as [Hk|Hk].
    + rewrite filter_cons_True by done. by rewrite fmap_cons, <- app_assoc.
    + by rewrite filter_cons_False by done.
Qed.

(** Every entry of the occupancy lists, in the order of the store, the
    particles whose nearest node carries the key. *)
Lemma nodeOccupancy_spec e w :
  NoDup (nodeOccupancy e w).*1
  /\ forall k pids, (k, pids) ∈ nodeOccupancy e w ->
       pids = id <$> filter (fun p => nearestId w p = Some k) (drifted e w).
Proof.
  destruct (occupancy_fold w (drifted e w) []) as [Hnd Hocc]; [constructor|].
  split; [done|]. intros k pids Hin.
  rewrite <- (entry_occupants _ k pids Hnd Hin). by rewrite Hocc.
Qed.

Lemma ids_driftAndDecay w noise p : id (driftAndDecay w noise p) = id p.
Proof. done. Qed.

Lemma ids_drifted e w : id <$> drifted e w = id <$> particles w.
Proof.
  unfold drifted. apply list_eq. intros i.
  rewrite !list_lookup_fmap, list_lookup_imap.
  by destruct (particles w !! i).
Qed.

Lemma ids_retarget w p : id (retarget w p) = id p.
Proof. unfold retarget. by destruct (findNearestNode w _). Qed.

Lemma ids_assigned e w : id <$> assigned e w = id <$> particles w.
Proof.
  unfold assigned. rewrite <- (ids_drifted e w), <- list_fmap_compose.
  apply list_fmap_ext. intros i p _. apply ids_retarget.
Qed.

Lemma NoDup_ids_filter (P : ParticleState -> Prop) `{forall p, Decision (P p)} u :
  NoDup (id <$> u) -> NoDup (id <$> filter P u).
Proof.
  intros Hnd. eapply sublist_NoDup; [exact Hnd|].
  apply fmap_sublist, sublist_filter.
Qed.

(** What the entries of the occupancy hold when identifiers are distinct. *)
Lemma nodeOccupancy_entries e w :
  NoDup (id <$> particles w) ->
  forall pre nid pIds post,
    nodeOccupancy e w = pre ++ (nid, pIds) :: post ->
    NoDup pIds
    /\ (forall pid, pid ∈ pIds -> pid ∈ id <$> particles w)
    /\ (forall k pids pid, (k, pids) ∈ pre ++ post -> pid ∈ pids -> pid ∉ pIds).
Proof.
  intros Hnd pre nid pIds post Hocc.
  destruct (nodeOccupancy_spec e w) as [Hkeys Hspec].
  assert (NoDup (id <$> drifted e w)) as Hnd' by (by rewrite ids_drifted).
  assert ((nid, pIds) ∈ nodeOccupancy e w) as Hin.
  { rewrite Hocc. apply elem_of_app. right. by left. }
  pose proof (Hspec nid pIds Hin) as Hp.
  split; [|split].
  - rewrite Hp. by apply NoDup_ids_filter.
  - intros pid Hpid. rewrite <- (ids_drifted e w). rewrite Hp in Hpid.
    apply list_elem_of_fmap in Hpid. destruct Hpid as (p & -> & Hpin).
    apply list_elem_of_filter in Hpin. destruct Hpin as [_ Hpin].
    apply list_elem_of_fmap. by exists p.
  - intros k pids pid Hk Hpid Hpid'.
    assert ((k, pids) ∈ nodeOccupancy e w) as Hin'.
    { rewrite Hocc. apply elem_of_app. apply elem_of_app in Hk.
      destruct Hk as [Hk|Hk]; [by left|right; by right]. }
    pose proof (Hspec k pids Hin') as Hq.
    rewrite Hq in Hpid. rewrite Hp in Hpid'.
    apply list_elem_of_fmap in Hpid. destruct Hpid as (p & -> & Hpin).
    apply list_elem_of_fmap in Hpid'. destruct Hpid' as (q & Hpq & Hqin).
    apply list_elem_of_filter in Hpin. destruct Hpin as [Hpk Hpin].
    apply list_elem_of_filter in Hqin. destruct Hqin as [Hqk Hqin].
    apply list_elem_of_lookup_1 in Hpin. destruct Hpin as [i Hi].
    apply list_elem_of_lookup_1 in Hqin. destruct Hqin as [j Hj].
    assert (i = j) as -> by (by eapply lookup_distinct_ids).
    assert (p = q) as -> by congruence.
    assert (k = nid) as -> by congruence.
    rewrite Hocc in Hkeys. rewrite fmap_app, fmap_cons in Hkeys.
    apply NoDup_app in Hkeys. destruct Hkeys as (_ & Hdis & Hpost).
    apply NoDup_cons in Hpost. destruct Hpost as [Hfresh _].
    apply elem_of_app in Hk. destruct Hk as [Hk|Hk].
    + apply (Hdis nid); [|by left]. apply list_elem_of_fmap. by exists (nid, pids).
    + apply Hfresh. apply list_elem_of_fmap. by exists (nid, pids).
Qed.

(** * The bounds during the pass *)

Lemma resonate_bounds cur others target :
  inBounds cur -> inBounds target -> Forall (fun p => 0 <= amplitude p) others ->
  inBounds (resonate cur others target).
Proof.
  intros ((Ha0 & Ha1) & (Hh0 & Hh1) & (He0 & He1))
         ((Ta0 & Ta1) & (Th0 & Th1) & (Te0 & Te1)) Ho.
  assert (0 <= harmonicIncrease cur others) as Hinc.
  { apply harmonicIncrease_nonneg; [lra|done]. }
  assert (0 <= amplitudeFactor cur others) as Hamp.
  { apply amplitudeFactor_nonneg; [lra|done]. }
  pose proof (count_nonneg (length others)) as Hn.
  pose proof (min_cap_grows 4 (harmonicFactor target) _ Th1 Hinc) as G1.
  assert (0 <= amplitudeFactor cur others * (15 # 100)) as Hamp' by lra.
  pose proof (min_cap_grows 1 (amplitude cur) _ Ha1 Hamp') as G2.
  assert (0 <= (2 # 10) * inject_Z (Z.of_nat (length others))) as Hen by lra.
  pose proof (min_cap_grows 1 (energyLevel cur) _ He1 Hen) as G3.
  pose proof (min_cap_le 4 (harmonicFactor target + harmonicIncrease cur others)) as C1.
  pose proof (min_cap_le 1 (amplitude cur + amplitudeFactor cur others * (15 # 100))) as C2.
  pose proof (min_cap_le 1 (energyLevel cur + (2 # 10) * inject_Z (Z.of_nat (length others)))) as C3.
  unfold inBounds, resonate. simpl. repeat split; lra.
Qed.

Lemma inBounds_collideOne refs st ref :
  Forall inBounds st.1 -> Forall inBounds (collideOne refs st ref).1.
Proof.
  intros H. unfold collideOne.
  destruct (st.1 !! ref) as [cur|] eqn:Hcur; [|done].
  destruct (_ =? _)%nat; [done|].
  destruct (findIndex _ _) as [i|]; [|done].
  destruct (st.1 !! i) as [target|] eqn:Ht; [|done].
  simpl. apply Forall_insert; [done|].
  rewrite Forall_lookup in H.
  apply resonate_bounds; [by eapply H|by eapply H|].
  apply Forall_forall. intros q Hq.
  apply list_elem_of_filter in Hq. destruct Hq as [_ Hq].
  apply list_elem_of_omap in Hq. destruct Hq as (r & _ & Hr).
  apply inBounds_amplitude. by eapply H.
Qed.

Lemma inBounds_collideAll refs l st :
  Forall inBounds st.1 -> Forall inBounds (fold_left (collideOne refs) l st).1.
Proof.
  revert st. induction l as [|r l IH]; intros st H; simpl; [done|].
  by apply IH, inBounds_collideOne.
Qed.

Lemma inBounds_retarget w p : inBounds p -> inBounds (retarget w p).
Proof. unfold retarget. by destruct (findNearestNode w _). Qed.

Lemma inBand_retarget w p : inBand p -> inBand (retarget w p).
Proof. unfold retarget. by destruct (findNearestNode w _). Qed.

Lemma inBounds_assigned e w :
  Forall inBounds (particles w) -> Forall inBounds (assigned e w).
Proof.
  intros H. unfold assigned, drifted. apply Forall_fmap, Forall_lookup.
  intros i p Hi. rewrite list_lookup_imap in Hi.
  destruct (particles w !! i) as [p0|] eqn:E; [|done]. injection Hi as <-.
  simpl. apply inBounds_retarget, driftAndDecay_bounds.
  rewrite Forall_lookup in H. by eapply H.
Qed.

Lemma inBand_assigned e w : Forall inBand (assigned e w).
Proof.
  unfold assigned, drifted. apply Forall_fmap, Forall_lookup.
  intros i p Hi. rewrite list_lookup_imap in Hi.
  destruct (particles w !! i) as [p0|] eqn:E; [|done]. injection Hi as <-.
  simpl. apply inBand_retarget, driftAndDecay_band.
Qed.

Section PassBounds.
Variable Math_sqrt : Q -> Q.

Lemma inBounds_processNode a entry :
  Forall inBounds (updated a) -> Forall inBounds (updated (processNode Math_sqrt a entry)).
Proof.
  intros H. destruct entry as [nid pIds]. unfold processNode.
  destruct (findNode _ _) as [node|]; [|done].
  set (a1 := if isCorner node then _ else a).
  assert (updated a1 = updated a) as H1.
  { subst a1. destruct (isCorner node); [|done]. apply updated_cornerTorques. }
  destruct (1 <? _)%nat; [|by rewrite H1].
  rewrite updated_collide. destruct (1 <? _)%nat; [|by rewrite H1].
  apply (inBounds_collideAll _ _ (updated a1, false)). simpl. by rewrite H1.
Qed.

Lemma inBounds_processNodes entries a :
  Forall inBounds (updated a) ->
  Forall inBounds (updated (fold_left (processNode Math_sqrt) entries a)).
Proof.
  revert a. induction entries as [|x entries IH]; intros a H; simpl; [done|].
  by apply IH, inBounds_processNode.
Qed.

Lemma inBounds_passAfter e w entries :
  Forall inBounds (particles w) ->
  Forall inBounds (updated (passAfter Math_sqrt e w entries)).
Proof.
  intros H. apply (inBounds_processNodes _ (mkPass w _ _ _)). simpl.
  by apply inBounds_assigned.
Qed.

(** * The state of the pass when the callback of an entry runs *)

Lemma passAfter_app e w pre entry :
  passAfter Math_sqrt e w (pre ++ [entry])
  = processNode Math_sqrt (passAfter Math_sqrt e w pre) entry.
Proof. unfold passAfter. by rewrite fold_left_app. Qed.

Lemma ids_passAfter e w entries :
  id <$> updated (passAfter Math_sqrt e w entries) = id <$> particles w.
Proof.
  rewrite (sameIdentity_ids _ _ (identity_passAfter Math_sqrt e w entries)).
  apply ids_assigned.
Qed.

Lemma entry_state e w pre nid pIds post :
  NoDup (id <$> particles w) ->
  nodeOccupancy e w = pre ++ (nid, pIds) :: post ->
  let a := passAfter Math_sqrt e w pre in
  NoDup (id <$> updated a)
  /\ NoDup pIds
  /\ (forall pid, pid ∈ pIds -> pid ∈ id <$> updated a)
  /\ (forall i p, assigned e w !! i = Some p -> id p ∈ pIds -> updated a !! i = Some p).
Proof.
  intros Hnd Hocc a.
  destruct (nodeOccupancy_entries e w Hnd pre nid pIds post Hocc) as (Hp & Hin & Hdis).
  subst a. rewrite ids_passAfter. repeat split; try done.
  intros i p Hi Hid. unfold passAfter. apply processNodes_untouched; [done|].
  intros k pids Hk Hpid. apply (Hdis k pids (id p)); try done.
  apply elem_of_app. by left.
Qed.

Lemma entry_node e w nid pIds :
  (nid, pIds) ∈ nodeOccupancy e w -> pIds <> [] -> is_Some (findNode w nid).
Proof.
  intros Hin Hne.
  destruct (nodeOccupancy_spec e w) as [_ Hspec].
  pose proof (Hspec nid pIds Hin) as Hp.
  destruct (filter _ (drifted e w)) as [|p ps] eqn:E; [by subst pIds|].
  assert (p ∈ filter (fun p => nearestId w p = Some nid) (drifted e w)) as Hpin.
  { rewrite E. by left. }
  apply list_elem_of_filter in Hpin. destruct Hpin as [Hnear _].
  unfold nearestId in Hnear.
  destruct (findNearestNode w _) as [n|] eqn:En; [|done].
  injection Hnear as Hn.
  apply findNearestNode_first in En. destruct En as (i & Hi & _).
  unfold findNode.
  destruct (list_find_elem_of (fun m => node_id m = nid) (nodes w) n) as [[j m] Hj].
  - by eapply list_elem_of_lookup_2.
  - done.
  - rewrite Hj. by eexists.
Qed.

End PassBounds.

(** * The collision at one node *)

Lemma collideAll_spec u pIds :
  NoDup (id <$> u) -> NoDup pIds -> (forall pid, pid ∈ pIds -> pid ∈ id <$> u) ->
  (2 <= length pIds)%nat ->
  let refs := colliding u pIds in
  let st := fold_left (collideOne refs) refs (u, false) in
  length refs = length pIds
  /\ (forall k r, refs !! k = Some r -> exists p, u !! r = Some p /\ pIds !! k = Some (id p))
  /\ Forall2 sameIdentity u st.1
  /\ (forall j, j ∉ refs -> st.1 !! j = u !! j)
  /\ (forall k r p, refs !! k = Some r -> u !! r = Some p ->
        st.1 !! r = Some (resonate p (seenBy k refs u st.1) p))
  /\ (st.2 = true <-> exists r p, r ∈ refs /\ st.1 !! r = Some p /\ 1 <= energyLevel p).
Proof.
  intros Hnd Hp Hin Hlen refs st.
  destruct (colliding_spec u pIds Hp Hin) as (Hl & Hrefs & Hvalid & Hat).
  fold refs in Hl, Hrefs, Hvalid, Hat.
  split; [done|]. split; [done|].
  apply (collide_fold_spec u refs Hnd Hrefs Hvalid ltac:(lia) refs [] u false).
  - done.
  - apply Forall2_sameIdentity_refl.
  - done.
  - intros k r p Hk. by rewrite lookup_nil in Hk.
  - split; [done|]. intros (r & p & Hr & _). by apply elem_of_nil in Hr.
Qed.

Lemma length_seenBy k (refs : list nat) before after :
  (forall r, r ∈ refs -> is_Some (before !! r)) ->
  (forall r, r ∈ refs -> is_Some (after !! r)) ->
  (k < length refs)%nat ->
  length (seenBy k refs before after) = (length refs - 1)%nat.
Proof.
  intros Hb Ha Hk. unfold seenBy. rewrite length_app, !length_omap_valid.
  - rewrite length_take, length_drop. lia.
  - intros r Hr. apply Hb. by eapply subseteq_drop.
  - intros r Hr. apply Ha. by eapply subseteq_take.
Qed.

Section Collision.
Variable Math_sqrt : Q -> Q.

Lemma processNode_found a nid pIds node :
  findNode (world a) nid = Some node -> (2 <= length pIds)%nat ->
  exists a1,
    updated a1 = updated a /\ particleIdsToRemove a1 = particleIdsToRemove a
    /\ explosionsToProcess a1 = explosionsToProcess a
    /\ collisionEvents (world a1) = collisionEvents (world a)
    /\ supernovaEvents (world a1) = supernovaEvents (world a)
    /\ timers (world a1) = timers (world a)
    /\ clock (world a1) = clock (world a)
    /\ processNode Math_sqrt a (nid, pIds) = collide node nid pIds a1.
Proof.
  intros Hnode Hlen. unfold processNode. rewrite Hnode.
  exists (if isCorner node then fold_left (cornerTorque Math_sqrt node) pIds a else a).
  assert (forall l a0,
    let a1 := fold_left (cornerTorque Math_sqrt node) l a0 in
    updated a1 = updated a0 /\ particleIdsToRemove a1 = particleIdsToRemove a0
    /\ explosionsToProcess a1 = explosionsToProcess a0
    /\ collisionEvents (world a1) = collisionEvents (world a0)
    /\ supernovaEvents (world a1) = supernovaEvents (world a0)
    /\ timers (world a1) = timers (world a0)
    /\ clock (world a1) = clock (world a0)) as Hfold.
  { induction l as [|pid l IH]; intros a0; simpl; [done|].
    destruct (IH (cornerTorque Math_sqrt node a0 pid)) as (H1&H2&H3&H4&H5&H6&H7).
    rewrite H1, H2, H3, H4, H5, H6, H7.
    unfold cornerTorque. destruct (findParticle _ _); [|done].
    by destruct (Js.gt _ _). }
  destruct (1 <? length pIds)%nat eqn:E.
  2:{ apply Nat.ltb_ge in E. lia. }
  destruct (isCorner node).
  - destruct (Hfold pIds a) as (H1&H2&H3&H4&H5&H6&H7). by repeat split.
  - by repeat split.
Qed.

End Collision.

(** * What a collision publishes *)

Lemma collide_effects node nid pIds a :
  let refs := colliding (updated a) pIds in
  let st := if (1 <? length refs)%nat
            then fold_left (collideOne refs) refs (updated a, false)
            else (updated a, false) in
  let now := clock (world a) in
  let cid := (nid +:+ "-" +:+ Js.show now)%string in
  let sid := ("sn-" +:+ nid +:+ "-" +:+ Js.show now)%string in
  let a' := collide node nid pIds a in
  updated a' = st.1
  /\ collisionEvents (world a')
     = collisionEvents (world a) ++ [mkCollision cid nid pIds now]
  /\ gridAngularVelocity (world a') = gridAngularVelocity (world a)
  /\ if st.2 then
       supernovaEvents (world a')
       = supernovaEvents (world a) ++ [mkSupernova sid (position node) now]
       /\ timers (world a')
          = timers (world a)
            ++ [((now + 1500)%Z, ExpireCollision cid); ((now + 2000)%Z, ExpireSupernova sid)]
       /\ particleIdsToRemove a' = particleIdsToRemove a ∪ list_to_set pIds
       /\ explosionsToProcess a' = S (explosionsToProcess a)
     else
       supernovaEvents (world a') = supernovaEvents (world a)
       /\ timers (world a') = timers (world a) ++ [((now + 1500)%Z, ExpireCollision cid)]
       /\ particleIdsToRemove a' = particleIdsToRemove a
       /\ explosionsToProcess a' = explosionsToProcess a.
Proof.
  cbv zeta. unfold collide. cbn [world updated on_world clock setTimeout set_timers
    set_collisionEvents timers collisionEvents collision_id].
  fold (colliding (updated a) pIds).
  destruct (if (1 <? _)%nat then _ else _) as [u [|]]; cbn.
  - repeat split. by rewrite <- app_assoc.
  - by repeat split.
Qed.

Section Supernova.
Variable Math_sqrt : Q -> Q.

(** The counters of the pass only grow, and every explosion comes with one
    published supernova event. *)
Lemma processNode_counts a entry :
  let a' := processNode Math_sqrt a entry in
  particleIdsToRemove a ⊆ particleIdsToRemove a'
  /\ (length (supernovaEvents (world a')) + explosionsToProcess a
      = length (supernovaEvents (world a)) + explosionsToProcess a')%nat.
Proof.
  destruct entry as [nid pIds]. cbv zeta. unfold processNode.
  destruct (findNode _ _) as [node|]; [|done].
  set (a1 := if isCorner node then _ else a).
  assert (particleIdsToRemove a1 = particleIdsToRemove a
          /\ explosionsToProcess a1 = explosionsToProcess a
          /\ supernovaEvents (world a1) = supernovaEvents (world a)) as (H1 & H2 & H3).
  { subst a1. destruct (isCorner node); [|done].
    clear. revert a. induction pIds as [|pid l IH]; intros a; simpl; [done|].
    destruct (IH (cornerTorque Math_sqrt node a pid)) as (E1 & E2 & E3).
    rewrite E1, E2, E3. unfold cornerTorque.
    destruct (findParticle _ _); [|done]. by destruct (Js.gt _ _). }
  destruct (1 <? _)%nat; [|by rewrite H1, H2, H3].
  pose proof (collide_effects node nid pIds a1) as He. cbv zeta in He.
  destruct He as (_ & _ & _ & He).
  destruct ((if (1 <? _)%nat then _ else _).2).
  - destruct He as (E1 & _ & E2 & E3). rewrite E1, E2, E3, H1, H2, H3, length_app.
    split; [apply union_subseteq_l|]. simpl. lia.
  - destruct He as (E1 & _ & E2 & E3). by rewrite E1, E2, E3, H1, H2, H3.
Qed.

Lemma processNodes_counts entries a :
  let a' := fold_left (processNode Math_sqrt) entries a in
  particleIdsToRemove a ⊆ particleIdsToRemove a'
  /\ (length (supernovaEvents (world a')) + explosionsToProcess a
      = length (supernovaEvents (world a)) + explosionsToProcess a')%nat.
Proof.
  revert a. induction entries as [|x entries IH]; intros a; simpl; [done|].
  destruct (IH (processNode Math_sqrt a x)) as [I1 I2].
  destruct (processNode_counts a x) as [P1 P2].
  split; [by etrans|]. lia.
Qed.

Lemma timers_spawnParticle pos e w : timers (spawnParticle pos e w) = timers w.
Proof.
  unfold spawnParticle. destruct (_ <=? _)%nat; [done|].
  by destruct (match pos with Some _ => _ | None => _ end).
Qed.

Lemma timers_thresholdRule e w : timers (thresholdRule e w) = timers w.
Proof. unfold thresholdRule. destruct (_ && _); [|done]. apply timers_spawnParticle. Qed.

Lemma passAfter_split e w pre entry post :
  passAfter Math_sqrt e w (pre ++ entry :: post)
  = fold_left (processNode Math_sqrt) post
      (processNode Math_sqrt (passAfter Math_sqrt e w pre) entry).
Proof. unfold passAfter. by rewrite fold_left_app. Qed.

Lemma clock_passAfter e w entries : clock (world (passAfter Math_sqrt e w entries)) = clock w.
Proof. apply (steady_processNodes Math_sqrt entries (mkPass w _ _ _)). Qed.

(** The outcome of the callback of a node with at least two occupants. *)
Lemma callback_effects e w pre nid pIds post :
  NoDup (id <$> particles w) ->
  nodeOccupancy e w = pre ++ (nid, pIds) :: post ->
  (2 <= length pIds)%nat ->
  let a := passAfter Math_sqrt e w pre in
  let a' := processNode Math_sqrt a (nid, pIds) in
  let now := clock w in
  let cid := (nid +:+ "-" +:+ Js.show now)%string in
  let sid := ("sn-" +:+ nid +:+ "-" +:+ Js.show now)%string in
  exists node,
    findNode w nid = Some node
    /\ ((exists r p, r ∈ colliding (updated a) pIds
                     /\ updated a' !! r = Some p /\ 1 <= energyLevel p) ->
        supernovaEvents (world a')
        = supernovaEvents (world a) ++ [mkSupernova sid (position node) now]
        /\ timers (world a')
           = timers (world a)
             ++ [((now + 1500)%Z, ExpireCollision cid); ((now + 2000)%Z, ExpireSupernova sid)]
        /\ particleIdsToRemove a' = particleIdsToRemove a ∪ list_to_set pIds
        /\ explosionsToProcess a' = S (explosionsToProcess a))
    /\ (~ (exists r p, r ∈ colliding (updated a) pIds
                       /\ updated a' !! r = Some p /\ 1 <= energyLevel p) ->
        supernovaEvents (world a') = supernovaEvents (world a)
        /\ particleIdsToRemove a' = particleIdsToRemove a
        /\ explosionsToProcess a' = explosionsToProcess a).
Proof.
  intros Hnd Hocc Hlen a a' now cid sid.
  destruct (entry_state Math_sqrt e w pre nid pIds post Hnd Hocc)
    as (Hnd' & Hp & Hin & Hsame).
  fold a in Hnd', Hin, Hsame.
  destruct (entry_node e w nid pIds) as [node Hnode].
  { rewrite Hocc. apply elem_of_app. right. by left. }
  { intros ->. simpl in Hlen. lia. }
  exists node. split; [done|].
  assert (findNode (world a) nid = Some node) as Hnode'.
  { unfold findNode in *. subst a. unfold passAfter.
    by rewrite (proj1 (steady_processNodes Math_sqrt pre (mkPass w (assigned e w) ∅ 0%nat))). }
  destruct (processNode_found Math_sqrt a nid pIds node Hnode' Hlen)
    as (a1 & Hu1 & Hr1 & Hx1 & _ & Hs1 & Ht1 & Hc1 & Hproc).
  assert (clock (world a) = now) as Hclock by apply clock_passAfter.
  destruct (collideAll_spec (updated a) pIds Hnd' Hp Hin Hlen)
    as (Hl & _ & _ & _ & _ & Hflag).
  pose proof (collide_effects node nid pIds a1) as He. cbv zeta in He.
  rewrite Hu1, Hs1, Ht1, Hr1, Hx1, Hc1, Hclock, <- Hproc in He. fold a' in He.
  fold cid sid in He.
  destruct (1 <? length (colliding (updated a) pIds))%nat eqn:E.
  2:{ apply Nat.ltb_ge in E. lia. }
  destruct He as (Hupd & _ & _ & He).
  rewrite <- Hupd in Hflag.
  split.
  - intros Htrig. apply Hflag in Htrig. rewrite Htrig in He.
    by destruct He as (E1 & E2 & E3 & E4).
  - intros Hno.
    destruct ((fold_left _ _ _).2) eqn:Ef.
    + exfalso. apply Hno. by apply Hflag.
    + by destruct He as (E1 & _ & E3 & E4).
Qed.

(** The identifiers marked at a node are still marked when the pass ends. *)
Lemma marked_until_end e w pre entry post :
  nodeOccupancy e w = pre ++ entry :: post ->
  particleIdsToRemove (processNode Math_sqrt (passAfter Math_sqrt e w pre) entry)
  ⊆ particleIdsToRemove (fieldPass Math_sqrt e w).
Proof.
  intros Hocc. rewrite fieldPass_unfold, Hocc, passAfter_split.
  apply processNodes_counts.
Qed.

(** C3: in a tick on a store with distinct identifiers, when the
    callback of a node with at least two occupants has run: if an occupant
    has reached energy 1, exactly one supernova event with the position of
    the node has been published, with its expiry timer, every identifier of
    the node is marked for removal and one explosion is counted; otherwise
    none of this happens.  The array keeps all its particles during the
    pass; the store is filtered once, after the last node; the pass
    counts one explosion for each supernova event it published, and ends by
    scheduling one replacement spawn for each explosion, 50 ms later; the
    store does not grow inside the update. *)
Theorem supernova_resolution e w pre nid pIds post :
  NoDup (id <$> particles w) ->
  nodeOccupancy e w = pre ++ (nid, pIds) :: post ->
  (2 <= length pIds)%nat ->
  let a := passAfter Math_sqrt e w pre in
  let a' := processNode Math_sqrt a (nid, pIds) in
  let final := fieldPass Math_sqrt e w in
  let now := clock w in
  let cid := (nid +:+ "-" +:+ Js.show now)%string in
  let sid := ("sn-" +:+ nid +:+ "-" +:+ Js.show now)%string in
  exists node,
    findNode w nid = Some node
    /\ id <$> updated a' = id <$> particles w
    /\ ((exists r p, r ∈ colliding (updated a) pIds
                     /\ updated a' !! r = Some p /\ 1 <= energyLevel p) ->
        supernovaEvents (world a')
        = supernovaEvents (world a) ++ [mkSupernova sid (position node) now]
        /\ timers (world a')
           = timers (world a)
             ++ [((now + 1500)%Z, ExpireCollision cid); ((now + 2000)%Z, ExpireSupernova sid)]
        /\ particleIdsToRemove a' = particleIdsToRemove a ∪ list_to_set pIds
        /\ explosionsToProcess a' = S (explosionsToProcess a)
        /\ list_to_set pIds ⊆ particleIdsToRemove final)
    /\ (~ (exists r p, r ∈ colliding (updated a) pIds
                       /\ updated a' !! r = Some p /\ 1 <= energyLevel p) ->
        supernovaEvents (world a') = supernovaEvents (world a)
        /\ particleIdsToRemove a' = particleIdsToRemove a
        /\ explosionsToProcess a' = explosionsToProcess a)
    /\ id <$> updated final = id <$> particles w
    /\ particles (updateParticles Math_sqrt e w)
       = filter (fun p => id p ∉ particleIdsToRemove final) (updated final)
    /\ (length (particles (updateParticles Math_sqrt e w)) <= length (particles w))%nat
    /\ (length (supernovaEvents (world final))
        = length (supernovaEvents w) + explosionsToProcess final)%nat
    /\ timers (updateParticles Math_sqrt e w)
       = timers (world final)
         ++ replicate (explosionsToProcess final) ((now + 50)%Z, Respawn)
    /\ timers (thresholdRule e (updateParticles Math_sqrt e w))
       = timers (updateParticles Math_sqrt e w).
Proof.
  intros Hnd Hocc Hlen a a' final now cid sid.
  destruct (callback_effects e w pre nid pIds post Hnd Hocc Hlen)
    as (node & Hnode & Htrig & Hquiet).
  fold a a' now cid sid in Htrig, Hquiet.
  exists node. split; [done|]. split.
  { rewrite <- (ids_passAfter Math_sqrt e w (pre ++ [(nid, pIds)])).
    by rewrite passAfter_app. }
  split.
  { intros Hsome. destruct (Htrig Hsome) as (E1 & E2 & E3 & E4).
    split; [done|]. split; [done|]. split; [done|]. split; [done|].
    etrans; [|apply (marked_until_end e w pre (nid, pIds) post Hocc)].
    fold a a'. rewrite E3. apply union_subseteq_r. }
  split; [done|]. split.
  { subst final. rewrite fieldPass_unfold. apply ids_passAfter. }
  split; [done|]. split.
  { unfold updateParticles. simpl. etrans; [apply length_finalParticles|].
    by rewrite length_fieldPass. }
  split.
  { subst final. rewrite fieldPass_unfold. unfold passAfter.
    pose proof (processNodes_counts (nodeOccupancy e w)
                  (mkPass w (assigned e w) ∅ 0%nat)) as [_ Hc].
    cbv zeta in Hc. simpl in Hc. lia. }
  split; [|apply timers_thresholdRule].
  unfold updateParticles. simpl.
  destruct (scheduleRespawns_fields (fieldPass Math_sqrt e w))
    as (_&_&_&_&_&_&_&Ht).
  rewrite Ht. subst final now.
  by rewrite fieldPass_unfold, clock_passAfter.
Qed.



End Supernova.

(** * Sums *)

Lemma qsum_app {A} (g : A -> Q) l1 l2 : qsum g (l1 ++ l2) == qsum g l1 + qsum g l2.
Proof. induction l1 as [|x l1 IH]; simpl; [lra|]. rewrite IH. lra. Qed.

Lemma qsum_perm {A} (g : A -> Q) l1 l2 : l1 ≡ₚ l2 -> qsum g l1 == qsum g l2.
Proof.
  induction 1 as [|x l1 l2 _ IH|x y l|l1 l2 l3 _ IH1 _ IH2]; simpl.
  - lra.
  - rewrite IH. lra.
  - lra.
  - by rewrite IH1.
Qed.

Lemma qsum_ext {A} (g h : A -> Q) l :
  (forall x, x ∈ l -> g x == h x) -> qsum g l == qsum h l.
Proof.
  induction l as [|x l IH]; intros H; simpl; [lra|].
  rewrite (H x) by left. rewrite IH; [lra|]. intros y Hy. apply H. by right.
Qed.

Lemma qsum_fmap {A B} (f : A -> B) (g : B -> Q) l : qsum g (f <$> l) = qsum (g ∘ f) l.
Proof. induction l as [|x l IH]; [done|]. rewrite fmap_cons. simpl. by rewrite IH. Qed.

Lemma qsum_zero {A} (g : A -> Q) l : (forall x, x ∈ l -> g x == 0) -> qsum g l == 0.
Proof.
  induction l as [|x l IH]; intros H; simpl; [lra|].
  rewrite (H x) by left. rewrite IH; [lra|]. intros y Hy. apply H. by right.
Qed.

(** * The occupancy holds every particle with a nearest node once *)

Lemma occupy_perm nid pid (occ : Occupancy) :
  concat (occupy nid pid occ).*2 ≡ₚ concat occ.*2 ++ [pid].
Proof.
  induction occ as [|[k pids] occ IH]; simpl; [done|].
  destruct (String.eqb k nid); simpl.
  - rewrite <- !app_assoc. apply Permutation_app_head. apply Permutation_app_comm.
  - rewrite IH. by rewrite app_assoc.
Qed.

Lemma occupancy_perm w u : forall occ : Occupancy,
  concat (fold_left (enter w) u occ).*2
  ≡ₚ concat occ.*2 ++ (id <$> filter (fun p => is_Some (nearestId w p)) u).
Proof.
  induction u as [|p u IH]; intros occ; simpl.
  - by rewrite app_nil_r.
  - rewrite IH. unfold enter.
    destruct (findNearestNode w (locationalFrequency p)) as [n|] eqn:E.
    + rewrite filter_cons_True by (unfold nearestId; rewrite E; by eexists).
      rewrite occupy_perm, fmap_cons, <- app_assoc. done.
    + rewrite filter_cons_False; [done|].
      unfold nearestId. rewrite E. by intros [? ?].
Qed.

(** * The angular velocity during the pass *)

Section AngularComponent.
Variable Math_sqrt : Q -> Q.
Variable c : Vector3 -> Q.
Hypothesis c_add : forall a b, c (add a b) = c a + c b.
Hypothesis c_zero : c vzero = 0.

Lemma cornerTorque_push node a pid :
  c (gridAngularVelocity (world (cornerTorque Math_sqrt node a pid)))
  == c (gridAngularVelocity (world a)) + c (cornerPush Math_sqrt node (updated a) pid).
Proof.
  unfold cornerTorque, cornerPush.
  destruct (findParticle _ _) as [p|]; [|rewrite c_zero; lra].
  destruct (Js.gt _ _); [|rewrite c_zero; lra].
  simpl. rewrite c_add. lra.
Qed.

Lemma cornerTorques_push node pIds : forall a,
  c (gridAngularVelocity (world (fold_left (cornerTorque Math_sqrt node) pIds a)))
  == c (gridAngularVelocity (world a))
     + qsum (fun pid => c (cornerPush Math_sqrt node (updated a) pid)) pIds.
Proof.
  induction pIds as [|pid pIds IH]; intros a; simpl; [lra|].
  rewrite IH, cornerTorque_push, updated_cornerTorque. lra.
Qed.

Lemma processNode_push a nid pIds :
  c (gridAngularVelocity (world (processNode Math_sqrt a (nid, pIds))))
  == c (gridAngularVelocity (world a))
     + qsum (fun pid => c (nodePush Math_sqrt (world a) nid (updated a) pid)) pIds.
Proof.
  unfold processNode, nodePush.
  destruct (findNode _ _) as [node|].
  2:{ rewrite qsum_zero; [lra|]. intros. by rewrite c_zero. }
  set (a1 := if isCorner node then _ else a).
  assert (c (gridAngularVelocity (world a1))
          == c (gridAngularVelocity (world a))
             + qsum (fun pid => c (if isCorner node
                                   then cornerPush Math_sqrt node (updated a) pid
                                   else vzero)) pIds) as H1.
  { subst a1. destruct (isCorner node).
    - apply cornerTorques_push.
    - rewrite qsum_zero; [lra|]. intros. by rewrite c_zero. }
  destruct (1 <? _)%nat; [|done].
  destruct (collide_effects node nid pIds a1) as (_ & _ & -> & _). done.
Qed.

Lemma findParticle_entry e w pre nid pIds post pid :
  NoDup (id <$> particles w) ->
  nodeOccupancy e w = pre ++ (nid, pIds) :: post ->
  pid ∈ pIds ->
  exists p,
    findParticle (updated (passAfter Math_sqrt e w pre)) pid = Some p
    /\ findParticle (assigned e w) pid = Some p
    /\ targetNodeId p = Some nid.
Proof.
  intros Hnd Hocc Hpid.
  destruct (entry_state Math_sqrt e w pre nid pIds post Hnd Hocc)
    as (Hnd' & Hp & Hin & Hsame). cbv zeta in *.
  destruct (nodeOccupancy_spec e w) as [_ Hspec].
  assert ((nid, pIds) ∈ nodeOccupancy e w) as Hmem.
  { rewrite Hocc. apply elem_of_app. right. by left. }
  pose proof (Hspec nid pIds Hmem) as Hq. rewrite Hq in Hpid.
  apply list_elem_of_fmap in Hpid. destruct Hpid as (d & -> & Hd).
  apply list_elem_of_filter in Hd. destruct Hd as [Hnear Hd].
  apply list_elem_of_lookup_1 in Hd. destruct Hd as [r Hr].
  assert (assigned e w !! r = Some (retarget w d)) as Ha.
  { unfold assigned. by rewrite list_lookup_fmap, Hr. }
  assert (NoDup (id <$> assigned e w)) as Hnda by (by rewrite ids_assigned).
  assert (id (retarget w d) = id d) as Hid by apply ids_retarget.
  assert (id d ∈ pIds) as Hdp.
  { rewrite Hq. apply list_elem_of_fmap. exists d. split; [done|].
    apply list_elem_of_filter. split; [done|]. by eapply list_elem_of_lookup_2. }
  exists (retarget w d). split; [|split].
  - rewrite findParticle_findIndex, <- Hid.
    rewrite (findIndex_unique _ r (retarget w d)); [|done|].
    + simpl. apply Hsame; [done|]. by rewrite Hid.
    + apply Hsame; [done|]. by rewrite Hid.
  - rewrite findParticle_findIndex, <- Hid.
    by rewrite (findIndex_unique _ r (retarget w d)).
  - unfold retarget. unfold nearestId in Hnear.
    destruct (findNearestNode w _) as [n|]; [|done]. simpl. by injection Hnear as ->.
Qed.

Lemma nodePush_entry e w pre nid pIds post pid :
  NoDup (id <$> particles w) ->
  nodeOccupancy e w = pre ++ (nid, pIds) :: post ->
  pid ∈ pIds ->
  nodePush Math_sqrt (world (passAfter Math_sqrt e w pre)) nid
           (updated (passAfter Math_sqrt e w pre)) pid
  = torqueOfId Math_sqrt e w pid.
Proof.
  intros Hnd Hocc Hpid.
  destruct (findParticle_entry e w pre nid pIds post pid Hnd Hocc Hpid)
    as (p & H1 & H2 & H3).
  unfold nodePush, torqueOfId, cornerPush, torqueOf.
  rewrite H1, H2, H3. simpl.
  assert (findNode (world (passAfter Math_sqrt e w pre)) nid = findNode w nid) as ->.
  { unfold findNode, passAfter.
    by rewrite (proj1 (steady_processNodes Math_sqrt pre (mkPass w (assigned e w) ∅ 0%nat))). }
  destruct (findNode w nid) as [node|]; [|done].
  by destruct (isCorner node).
Qed.

Lemma passAfter_push e w :
  NoDup (id <$> particles w) ->
  forall pre post,
    nodeOccupancy e w = pre ++ post ->
    c (gridAngularVelocity (world (passAfter Math_sqrt e w pre)))
    == c (gridAngularVelocity w)
       + qsum (fun pid => c (torqueOfId Math_sqrt e w pid)) (concat pre.*2).
Proof.
  intros Hnd pre. induction pre as [|[nid pIds] pre IH] using rev_ind; intros post Hocc.
  { simpl. lra. }
  rewrite <- app_assoc in Hocc. simpl in Hocc.
  rewrite passAfter_app, processNode_push, (IH _ Hocc).
  rewrite fmap_app, concat_app, qsum_app. simpl. rewrite app_nil_r.
  rewrite (qsum_ext (fun pid => c (nodePush Math_sqrt _ nid _ pid))
                    (fun pid => c (torqueOfId Math_sqrt e w pid))); [lra|].
  intros pid Hpid. by rewrite (nodePush_entry e w pre nid pIds post pid).
Qed.

Lemma qsum_filter {A} (P : A -> Prop) `{forall x, Decision (P x)} (g : A -> Q) l :
  qsum g (filter P l) == qsum (fun x => if decide (P x) then g x else 0) l.
Proof.
  induction l as [|x l IH]; [reflexivity|].
  rewrite filter_cons. simpl. destruct (decide (P x)); simpl; rewrite IH; lra.
Qed.

Lemma c_cornerTorques w ps :
  c (cornerTorques Math_sqrt w ps) = qsum (fun p => c (torqueOf Math_sqrt w p)) ps.
Proof.
  induction ps as [|p ps IH]; simpl; [apply c_zero|].
  by rewrite c_add, IH.
Qed.

Lemma fieldPass_push e w :
  NoDup (id <$> particles w) ->
  c (gridAngularVelocity (world (fieldPass Math_sqrt e w)))
  == c (gridAngularVelocity w) + c (cornerTorques Math_sqrt w (assigned e w)).
Proof.
  intros Hnd. rewrite fieldPass_unfold.
  rewrite (passAfter_push e w Hnd (nodeOccupancy e w) []) by (by rewrite app_nil_r).
  apply Qplus_inj_l.
  rewrite (qsum_perm _ _ _ (occupancy_perm w (drifted e w) [])). simpl.
  rewrite qsum_fmap, qsum_filter, c_cornerTorques.
  unfold assigned. rewrite qsum_fmap.
  apply qsum_ext. intros d Hd. unfold compose.
  assert (NoDup (id <$> assigned e w)) as Hnda by (by rewrite ids_assigned).
  apply list_elem_of_lookup_1 in Hd. destruct Hd as [r Hr].
  assert (assigned e w !! r = Some (retarget w d)) as Ha.
  { unfold assigned. by rewrite list_lookup_fmap, Hr. }
  destruct (decide (is_Some (nearestId w d))) as [Hs|Hn].
  - unfold torqueOfId. rewrite findParticle_findIndex, <- (ids_retarget w d).
    rewrite (findIndex_unique _ r (retarget w d)) by done. simpl. by rewrite Ha.
  - unfold nearestId in Hn.
    destruct (findNearestNode w (locationalFrequency d)) as [n|] eqn:E.
    { exfalso. apply Hn. by eexists. }
    apply findNearestNode_None in E.
    unfold torqueOf, findNode. rewrite E.
    destruct (targetNodeId (retarget w d)); simpl; by rewrite c_zero.
Qed.

End AngularComponent.

Lemma angular_spawnParticle pos e w :
  gridAngularVelocity (spawnParticle pos e w) = gridAngularVelocity w.
Proof.
  unfold spawnParticle. destruct (_ <=? _)%nat; [done|].
  by destruct (match pos with Some _ => _ | None => _ end).
Qed.

Lemma angular_runTask task e w :
  gridAngularVelocity (runTask task e w) = gridAngularVelocity w.
Proof. destruct task; simpl; try done. apply angular_spawnParticle. Qed.

Lemma angular_fire es l : forall st,
  gridAngularVelocity (fold_left (fire es) l st).2 = gridAngularVelocity st.2.
Proof.
  induction l as [|t l IH]; intros st; simpl; [done|].
  rewrite IH. simpl. by rewrite angular_runTask.
Qed.

Lemma angular_advance t es w :
  gridAngularVelocity (advance t es w) = gridAngularVelocity w.
Proof.
  unfold advance. destruct (_ <=? _)%Z; [done|].
  simpl. by rewrite angular_fire.
Qed.

Section Angular.
Variable Math_sqrt : Q -> Q.

Lemma angular_rotate w :
  gridAngularVelocity (rotate Math_sqrt w)
  = multiplyScalar (97 # 100) (gridAngularVelocity w).
Proof. unfold rotate. by destruct (Js.gt _ _). Qed.

Lemma angular_after_pass e w :
  gridAngularVelocity (thresholdRule e (updateParticles Math_sqrt e w))
  = gridAngularVelocity (world (fieldPass Math_sqrt e w)).
Proof.
  unfold thresholdRule.
  assert (gridAngularVelocity (updateParticles Math_sqrt e w)
          = gridAngularVelocity (world (fieldPass Math_sqrt e w))) as H.
  { unfold updateParticles. simpl.
    by destruct (scheduleRespawns_fields (fieldPass Math_sqrt e w)) as (_&_&_&_&_&->&_). }
  destruct (_ && _); [|done]. by rewrite angular_spawnParticle.
Qed.


End Angular.

Section EventTiming.
Local Open Scope Z_scope.

(** * Identifiers of events *)

Lemma dashFree_digits d : dashFree (NilEmpty.string_of_uint d) = true.
Proof. induction d; simpl; done. Qed.

Lemma show_dashFree t : 0 <= t -> dashFree (Js.show t) = true.
Proof.
  intros H. unfold Js.show. destruct t as [|p|p]; [done| |lia].
  simpl. unfold NilZero.string_of_uint.
  destruct (Pos.to_uint p); try apply (dashFree_digits (_ _)). done.
Qed.

Lemma show_inj s t : 0 <= s -> 0 <= t -> Js.show s = Js.show t -> s = t.
Proof.
  intros Hs Ht H. unfold Js.show in H.
  assert (forall z, 0 <= z -> Z.to_int z <> Decimal.Pos Decimal.Nil
                    /\ Z.to_int z <> Decimal.Neg Decimal.Nil) as Hnn.
  { intros [|p|p] Hz; [done| |lia]. simpl. split; [|done].
    intros [= Hp]. by apply (Unsigned.to_uint_nonnil p). }
  apply (f_equal NilZero.int_of_string) in H.
  rewrite !NilZero.isi in H by (by apply Hnn).
  injection H as H. apply (f_equal Z.of_int) in H. by rewrite !of_to in H.
Qed.

Lemma dashFree_no_dash a b : dashFree (a +:+ "-" +:+ b) = false.
Proof.
  induction a as [|ch a IH]; simpl; [done|].
  rewrite IH. by destruct (negb _).
Qed.

Lemma stamp_suffix a b d1 d2 :
  dashFree d1 = true -> dashFree d2 = true ->
  (a +:+ "-" +:+ d1 = b +:+ "-" +:+ d2)%string -> d1 = d2.
Proof.
  intros H1 H2. revert b. induction a as [|ch a IH]; intros [|ch' b] H; cbn in H.
  - by injection H.
  - injection H as _ H. change (EmptyString +:+ d1) with d1 in H.
    rewrite H, dashFree_no_dash in H1. done.
  - injection H as _ H. change (EmptyString +:+ d2) with d2 in H.
    rewrite <- H, dashFree_no_dash in H2. done.
  - injection H as _ H. by apply (IH b).
Qed.

(** Two stamps on one identifier are the same time. *)
Lemma stamped_inj i s t : stamped i s -> stamped i t -> s = t.
Proof.
  intros (Hs & a & Ha) (Ht & b & Hb).
  apply show_inj; [done|done|].
  apply (stamp_suffix a b); [by apply show_dashFree|by apply show_dashFree|congruence].
Qed.

(** * Publishing events and setting timers *)

Lemma grows_same w w' :
  clock w' = clock w -> timers w' = timers w ->
  collisionEvents w' = collisionEvents w -> supernovaEvents w' = supernovaEvents w ->
  grows w w'.
Proof.
  intros Hc Ht Hce Hse. split; [done|]. exists [], [], [].
  rewrite !app_nil_r. repeat split; try done; constructor.
Qed.

Lemma grows_refl w : grows w w.
Proof. by apply grows_same. Qed.

Lemma grows_trans w1 w2 w3 : grows w1 w2 -> grows w2 w3 -> grows w1 w3.
Proof.
  intros (Hc & t1 & c1 & s1 & Ht1 & Hc1 & Hs1 & Ft1 & Fc1 & Fs1)
         (Hc' & t2 & c2 & s2 & Ht2 & Hc2 & Hs2 & Ft2 & Fc2 & Fs2).
  split; [congruence|]. exists (t1 ++ t2), (c1 ++ c2), (s1 ++ s2).
  rewrite Hc in *.
  split; [by rewrite Ht2, Ht1, app_assoc|].
  split; [by rewrite Hc2, Hc1, app_assoc|].
  split; [by rewrite Hs2, Hs1, app_assoc|].
  split; [by apply Forall_app|]. split.
  - apply Forall_app. split.
    + eapply Forall_impl; [exact Fc1|]. intros ev (?&?&?). split; [done|]. split; [done|].
      apply elem_of_app. by left.
    + eapply Forall_impl; [exact Fc2|]. intros ev (?&?&?). split; [done|]. split; [done|].
      apply elem_of_app. by right.
  - apply Forall_app. split.
    + eapply Forall_impl; [exact Fs1|]. intros ev (?&?&?). split; [done|]. split; [done|].
      apply elem_of_app. by left.
    + eapply Forall_impl; [exact Fs2|]. intros ev (?&?&?). split; [done|]. split; [done|].
      apply elem_of_app. by right.
Qed.

Lemma stamped_now a now : 0 <= now -> stamped (a +:+ "-" +:+ Js.show now) now.
Proof. intros H. split; [done|]. by exists a. Qed.

Lemma grows_collide node nid pIds a :
  0 <= clock (world a) -> grows (world a) (world (collide node nid pIds a)).
Proof.
  intros Hnow. split; [apply steady_collide|].
  pose proof (collide_effects node nid pIds a) as He. cbv zeta in He.
  destruct He as (_ & Hce & _ & He).
  set (now := clock (world a)) in *.
  set (cid := (nid +:+ "-" +:+ Js.show now)%string) in *.
  set (sid := ("sn-" +:+ nid +:+ "-" +:+ Js.show now)%string) in *.
  assert (stamped cid now) as Hcid by (by apply stamped_now).
  assert (stamped sid now) as Hsid by (by apply (stamped_now ("sn-" +:+ nid))).
  assert (timerOk now ((now + 1500)%Z, ExpireCollision cid)) as Ht1.
  { split; simpl; [lia|]. by replace (now + 1500 - 1500) with now by lia. }
  assert (timerOk now ((now + 2000)%Z, ExpireSupernova sid)) as Ht2.
  { split; simpl; [lia|]. by replace (now + 2000 - 2000) with now by lia. }
  destruct ((if (1 <? _)%nat then _ else _).2).
  - destruct He as (Hse & Ht & _).
    exists [((now + 1500)%Z, ExpireCollision cid); ((now + 2000)%Z, ExpireSupernova sid)],
           [mkCollision cid nid pIds now], [mkSupernova sid (position node) now].
    split; [done|]. split; [done|]. split; [done|].
    split; [do 2 (apply Forall_cons_2; [done|]); apply Forall_nil_2|].
    split; (apply Forall_cons_2; [|apply Forall_nil_2]); simpl.
    + split; [done|]. split; [done|]. by left.
    + split; [done|]. split; [done|]. right. by left.
  - destruct He as (Hse & Ht & _).
    exists [((now + 1500)%Z, ExpireCollision cid)], [mkCollision cid nid pIds now], [].
    split; [done|]. split; [done|]. split; [by rewrite app_nil_r|].
    split; [apply Forall_cons_2; [done|apply Forall_nil_2]|].
    split; [|apply Forall_nil_2].
    apply Forall_cons_2; [|apply Forall_nil_2]. simpl.
    split; [done|]. split; [done|]. by left.
Qed.

Section Timers.
Variable Math_sqrt : Q -> Q.

Lemma cornerTorques_fields node pIds : forall a,
  let a1 := fold_left (cornerTorque Math_sqrt node) pIds a in
  clock (world a1) = clock (world a) /\ timers (world a1) = timers (world a)
  /\ collisionEvents (world a1) = collisionEvents (world a)
  /\ supernovaEvents (world a1) = supernovaEvents (world a).
Proof.
  induction pIds as [|pid l IH]; intros a; simpl; [done|].
  destruct (IH (cornerTorque Math_sqrt node a pid)) as (H1&H2&H3&H4).
  rewrite H1, H2, H3, H4.
  unfold cornerTorque. destruct (findParticle _ _); [|done].
  by destruct (Js.gt _ _).
Qed.

Lemma grows_processNode a entry :
  0 <= clock (world a) -> grows (world a) (world (processNode Math_sqrt a entry)).
Proof.
  intros Hnow. destruct entry as [nid pIds]. unfold processNode.
  destruct (findNode _ _) as [node|]; [|apply grows_refl].
  set (a1 := if isCorner node then _ else a).
  assert (clock (world a1) = clock (world a) /\ timers (world a1) = timers (world a)
          /\ collisionEvents (world a1) = collisionEvents (world a)
          /\ supernovaEvents (world a1) = supernovaEvents (world a)) as (H1&H2&H3&H4).
  { subst a1. destruct (isCorner node); [apply cornerTorques_fields|done]. }
  assert (grows (world a) (world a1)) as G1 by (by apply grows_same).
  destruct (1 <? _)%nat; [|done].
  eapply grows_trans; [exact G1|]. apply grows_collide. by rewrite H1.
Qed.

Lemma grows_processNodes entries : forall a,
  0 <= clock (world a) ->
  grows (world a) (world (fold_left (processNode Math_sqrt) entries a)).
Proof.
  induction entries as [|x entries IH]; intros a Hnow; simpl; [apply grows_refl|].
  pose proof (grows_processNode a x Hnow) as G.
  eapply grows_trans; [exact G|]. apply IH. destruct G as [-> _]. done.
Qed.

Lemma grows_scheduleRespawns a :
  grows (world a) (scheduleRespawns a).
Proof.
  destruct (scheduleRespawns_fields a) as (_&_&Hc&Hce&Hse&_&_&Ht).
  split; [done|].
  exists (replicate (explosionsToProcess a) ((clock (world a) + 50)%Z, Respawn)), [], [].
  rewrite !app_nil_r. repeat split; try done; try constructor.
  apply Forall_replicate. split; simpl; [lia|done].
Qed.

Lemma grows_spawnParticle pos e w : grows w (spawnParticle pos e w).
Proof.
  unfold spawnParticle. destruct (_ <=? _)%nat; [apply grows_refl|].
  destruct (match pos with Some _ => _ | None => _ end); [|apply grows_refl].
  by apply grows_same.
Qed.

Lemma grows_processFieldDynamics e w :
  0 <= clock w -> grows w (processFieldDynamics Math_sqrt e w).
Proof.
  intros Hnow. unfold processFieldDynamics.
  destruct (steady_rotate Math_sqrt w) as (_ & _ & Rc & Rt & Rce & Rse).
  eapply grows_trans; [apply (grows_same w (rotate Math_sqrt w)); done|].
  set (w0 := rotate Math_sqrt w) in *.
  assert (grows w0 (updateParticles Math_sqrt e w0)) as G.
  { unfold updateParticles.
    apply (grows_trans _ (world (fieldPass Math_sqrt e w0))).
    - rewrite fieldPass_unfold.
      apply (grows_processNodes _ (mkPass w0 (assigned e w0) ∅ 0%nat)). simpl. by rewrite Rc.
    - eapply grows_trans; [apply grows_scheduleRespawns|]. by apply grows_same. }
  eapply grows_trans; [exact G|].
  unfold thresholdRule. destruct (_ && _); [apply grows_spawnParticle|apply grows_refl].
Qed.

End Timers.

(** Growth keeps the timers and the events in agreement. *)
Lemma timely_grows w w' :
  timely w -> grows w w' ->
  timely w'
  /\ (forall ev, ev ∈ collisionEvents w -> ev ∈ collisionEvents w')
  /\ (forall ev, ev ∈ supernovaEvents w -> ev ∈ supernovaEvents w')
  /\ (forall ev, ev ∈ collisionEvents w' ->
        ev ∈ collisionEvents w \/ collision_timestamp ev = clock w)
  /\ (forall ev, ev ∈ supernovaEvents w' ->
        ev ∈ supernovaEvents w \/ supernova_timestamp ev = clock w).
Proof.
  intros (T0 & T1 & T2 & T3 & T4 & T5)
         (Hc & newT & newC & newS & Ht & Hce & Hse & Ft & Fc & Fs).
  pose proof (proj1 (Forall_forall _ _) Ft) as Ft'.
  pose proof (proj1 (Forall_forall _ _) Fc) as Fc'.
  pose proof (proj1 (Forall_forall _ _) Fs) as Fs'.
  clear Ft Fc Fs. rename Ft' into Ft, Fc' into Fc, Fs' into Fs.
  split; [|split; [|split; [|split]]].
  - unfold timely. rewrite Hc, Ht, Hce, Hse.
    split; [done|]. split; [|split; [|split; [|split]]].
    + intros d task Hin. apply elem_of_app in Hin. destruct Hin as [Hin|Hin].
      * by eapply T1.
      * by destruct (Ft _ Hin) as [? _].
    + intros ev Hin. apply elem_of_app in Hin. destruct Hin as [Hin|Hin].
      * destruct (T2 ev Hin) as [? ?]. split; [done|]. apply elem_of_app. by left.
      * destruct (Fc ev Hin) as (? & ? & ?). split; [done|]. apply elem_of_app. by right.
    + intros d i Hin. apply elem_of_app in Hin. destruct Hin as [Hin|Hin].
      * by eapply T3.
      * by destruct (Ft _ Hin) as [_ ?].
    + intros ev Hin. apply elem_of_app in Hin. destruct Hin as [Hin|Hin].
      * destruct (T4 ev Hin) as [? ?]. split; [done|]. apply elem_of_app. by left.
      * destruct (Fs ev Hin) as (? & ? & ?). split; [done|]. apply elem_of_app. by right.
    + intros d i Hin. apply elem_of_app in Hin. destruct Hin as [Hin|Hin].
      * by eapply T5.
      * by destruct (Ft _ Hin) as [_ ?].
  - intros ev Hin. rewrite Hce. apply elem_of_app. by left.
  - intros ev Hin. rewrite Hse. apply elem_of_app. by left.
  - intros ev Hin. rewrite Hce in Hin. apply elem_of_app in Hin.
    destruct Hin as [Hin|Hin]; [by left|right]. by destruct (Fc ev Hin) as (? & _).
  - intros ev Hin. rewrite Hse in Hin. apply elem_of_app in Hin.
    destruct Hin as [Hin|Hin]; [by left|right]. by destruct (Fs ev Hin) as (? & _).
Qed.

(** * The passing of time *)

Lemma enqueue_elem x t q : x ∈ enqueue t q <-> x = t \/ x ∈ q.
Proof.
  induction q as [|t' q IH]; simpl.
  - rewrite list_elem_of_singleton. split; [by left|]. intros [?|H]; [done|].
    by apply elem_of_nil in H.
  - destruct (t'.1 <=? t.1); rewrite !elem_of_cons; [rewrite IH|]; tauto.
Qed.

Lemma inDueOrder_fold x l : forall q,
  x ∈ fold_left (fun queue t => enqueue t queue) l q <-> x ∈ l \/ x ∈ q.
Proof.
  induction l as [|t l IH]; intros q; simpl.
  - split; [by right|]. intros [H|H]; [by apply elem_of_nil in H|done].
  - rewrite IH, enqueue_elem, elem_of_cons. tauto.
Qed.

Lemma inDueOrder_elem x l : x ∈ inDueOrder l <-> x ∈ l.
Proof.
  unfold inDueOrder. rewrite inDueOrder_fold. split; [|by left].
  intros [H|H]; [done|]. by apply elem_of_nil in H.
Qed.

Lemma events_spawnParticle pos e w :
  collisionEvents (spawnParticle pos e w) = collisionEvents w
  /\ supernovaEvents (spawnParticle pos e w) = supernovaEvents w
  /\ clock (spawnParticle pos e w) = clock w.
Proof.
  unfold spawnParticle. destruct (_ <=? _)%nat; [done|].
  by destruct (match pos with Some _ => _ | None => _ end).
Qed.

Lemma runTask_fields task e w :
  timers (runTask task e w) = timers w
  /\ clock (runTask task e w) = clock w
  /\ (forall ev, ev ∈ collisionEvents (runTask task e w) <->
        ev ∈ collisionEvents w /\ task <> ExpireCollision (collision_id ev))
  /\ (forall ev, ev ∈ supernovaEvents (runTask task e w) <->
        ev ∈ supernovaEvents w /\ task <> ExpireSupernova (supernova_id ev)).
Proof.
  destruct task as [i|i|]; simpl.
  - split; [done|]. split; [done|]. split; intros ev.
    + rewrite list_elem_of_filter. split.
      * intros [Hne Hin]. split; [done|]. intros [= Hi]. by apply Hne.
      * intros [Hin Hne]. split; [|done]. congruence.
    + split; [by intros ?|tauto].
  - split; [done|]. split; [done|]. split; intros ev.
    + split; [by intros ?|tauto].
    + rewrite list_elem_of_filter. split.
      * intros [Hne Hin]. split; [done|]. intros [= Hi]. by apply Hne.
      * intros [Hin Hne]. split; [|done]. congruence.
  - destruct (events_spawnParticle None e w) as (-> & -> & ->).
    rewrite timers_spawnParticle.
    split; [done|]. split; [done|]. split; intros ev; (split; [by intros ?|tauto]).
Qed.

Lemma fire_fields es l : forall st,
  timers (fold_left (fire es) l st).2 = timers st.2
  /\ (forall ev, ev ∈ collisionEvents (fold_left (fire es) l st).2 <->
        ev ∈ collisionEvents st.2
        /\ forall d, (d, ExpireCollision (collision_id ev)) ∉ l)
  /\ (forall ev, ev ∈ supernovaEvents (fold_left (fire es) l st).2 <->
        ev ∈ supernovaEvents st.2
        /\ forall d, (d, ExpireSupernova (supernova_id ev)) ∉ l).
Proof.
  induction l as [|[d task] l IH]; intros st; simpl.
  - split; [done|]. split; intros ev; (split; [intros H; split; [done|]|tauto]);
      intros d Hd; by apply elem_of_nil in Hd.
  - destruct (IH (fire es st (d, task))) as (Ht & Hce & Hse).
    destruct (runTask_fields task (es st.1) (set_clock (Z.max d (clock st.2)) st.2))
      as (Rt & _ & Rce & Rse).
    split; [rewrite Ht; simpl; by rewrite Rt|].
    split; intros ev.
    + rewrite Hce. simpl. rewrite Rce. simpl. split.
      * intros ((Hin & Hne) & Hl). split; [done|].
        intros d' Hd'. apply elem_of_cons in Hd'. destruct Hd' as [[= -> Hd']|Hd'].
        -- by apply Hne.
        -- by apply (Hl d').
      * intros (Hin & Hl). split; [split; [done|]|].
        -- intros ->. apply (Hl d). by left.
        -- intros d' Hd'. apply (Hl d'). by right.
    + rewrite Hse. simpl. rewrite Rse. simpl. split.
      * intros ((Hin & Hne) & Hl). split; [done|].
        intros d' Hd'. apply elem_of_cons in Hd'. destruct Hd' as [[= -> Hd']|Hd'].
        -- by apply Hne.
        -- by apply (Hl d').
      * intros (Hin & Hl). split; [split; [done|]|].
        -- intros ->. apply (Hl d). by left.
        -- intros d' Hd'. apply (Hl d'). by right.
Qed.

Lemma advance_fields t es w :
  clock w < t ->
  clock (advance t es w) = t
  /\ (forall x, x ∈ timers (advance t es w) <-> x ∈ timers w /\ t < x.1)
  /\ (forall ev, ev ∈ collisionEvents (advance t es w) <->
        ev ∈ collisionEvents w
        /\ forall d, (d, ExpireCollision (collision_id ev)) ∈ timers w -> t < d)
  /\ (forall ev, ev ∈ supernovaEvents (advance t es w) <->
        ev ∈ supernovaEvents w
        /\ forall d, (d, ExpireSupernova (supernova_id ev)) ∈ timers w -> t < d).
Proof.
  intros Hlt. unfold advance.
  destruct (t <=? clock w) eqn:E; [apply Z.leb_le in E; lia|].
  set (due := inDueOrder _). set (w0 := set_timers _ w).
  destruct (fire_fields es due (0%nat, w0)) as (Ht & Hce & Hse).
  assert (forall x, x ∈ due <-> x ∈ timers w /\ x.1 <= t) as Hdue.
  { intros x. subst due. rewrite inDueOrder_elem, !list_elem_of_In, filter_In.
    rewrite Z.leb_le. tauto. }
  split; [done|]. split; [|split].
  - intros x. simpl. rewrite Ht. subst w0. simpl.
    rewrite !list_elem_of_In, filter_In, negb_true_iff, Z.leb_gt. tauto.
  - intros ev. simpl. rewrite Hce. subst w0. simpl. split.
    + intros [Hin Hno]. split; [done|]. intros d Hd.
      destruct (decide (t < d)) as [?|Hge]; [done|]. exfalso.
      apply (Hno d), Hdue. simpl. split; [done|lia].
    + intros [Hin Hall]. split; [done|]. intros d Hd.
      apply Hdue in Hd. simpl in Hd. destruct Hd as [Hd Hle].
      specialize (Hall d Hd). lia.
  - intros ev. simpl. rewrite Hse. subst w0. simpl. split.
    + intros [Hin Hno]. split; [done|]. intros d Hd.
      destruct (decide (t < d)) as [?|Hge]; [done|]. exfalso.
      apply (Hno d), Hdue. simpl. split; [done|lia].
    + intros [Hin Hall]. split; [done|]. intros d Hd.
      apply Hdue in Hd. simpl in Hd. destruct Hd as [Hd Hle].
      specialize (Hall d Hd). lia.
Qed.

Lemma timely_advance t es w :
  timely w ->
  timely (advance t es w)
  /\ clock w <= clock (advance t es w)
  /\ (forall ev, ev ∈ collisionEvents w ->
        clock (advance t es w) < collision_timestamp ev + 1500 ->
        ev ∈ collisionEvents (advance t es w))
  /\ (forall ev, ev ∈ supernovaEvents w ->
        clock (advance t es w) < supernova_timestamp ev + 2000 ->
        ev ∈ supernovaEvents (advance t es w))
  /\ (forall ev, ev ∈ collisionEvents (advance t es w) -> ev ∈ collisionEvents w)
  /\ (forall ev, ev ∈ supernovaEvents (advance t es w) -> ev ∈ supernovaEvents w).
Proof.
  intros Hw. destruct (decide (clock w < t)) as [Hlt|Hge].
  2:{ unfold advance. destruct (t <=? clock w) eqn:E; [|apply Z.leb_gt in E; lia].
      split; [done|]. split; [lia|]. by repeat split. }
  destruct (advance_fields t es w Hlt) as (Hc & Ht & Hce & Hse).
  destruct Hw as (T0 & T1 & T2 & T3 & T4 & T5).
  split; [|split; [lia|split; [|split; [|split]]]].
  - unfold timely. rewrite Hc. split; [lia|]. split; [|split; [|split; [|split]]].
    + intros d task Hin. apply Ht in Hin. by destruct Hin as [_ ?].
    + intros ev Hin. apply Hce in Hin. destruct Hin as [Hin Hall].
      destruct (T2 ev Hin) as [Hs Htm]. split; [done|].
      apply Ht. split; [done|]. simpl. by apply Hall.
    + intros d i Hin. apply Ht in Hin. destruct Hin as [Hin _]. by eapply T3.
    + intros ev Hin. apply Hse in Hin. destruct Hin as [Hin Hall].
      destruct (T4 ev Hin) as [Hs Htm]. split; [done|].
      apply Ht. split; [done|]. simpl. by apply Hall.
    + intros d i Hin. apply Ht in Hin. destruct Hin as [Hin _]. by eapply T5.
  - intros ev Hin Hlive. rewrite Hc in Hlive. apply Hce. split; [done|].
    intros d Hd. destruct (T2 ev Hin) as [Hs _].
    pose proof (stamped_inj _ _ _ Hs (T3 d _ Hd)). lia.
  - intros ev Hin Hlive. rewrite Hc in Hlive. apply Hse. split; [done|].
    intros d Hd. destruct (T4 ev Hin) as [Hs _].
    pose proof (stamped_inj _ _ _ Hs (T5 d _ Hd)). lia.
  - intros ev Hin. by apply Hce in Hin as [? _].
  - intros ev Hin. by apply Hse in Hin as [? _].
Qed.

Lemma timely_live w :
  timely w ->
  (forall ev, ev ∈ collisionEvents w -> clock w < collision_timestamp ev + 1500)
  /\ (forall ev, ev ∈ supernovaEvents w -> clock w < supernova_timestamp ev + 2000).
Proof.
  intros (T0 & T1 & T2 & T3 & T4 & T5). split; intros ev Hin.
  - destruct (T2 ev Hin) as [_ Ht]. by apply T1 in Ht.
  - destruct (T4 ev Hin) as [_ Ht]. by apply T1 in Ht.
Qed.

Lemma timely_blank now : 0 <= now -> timely (blank now).
Proof.
  intros H. unfold timely. simpl. split; [done|].
  repeat split; intros; by match goal with H : _ ∈ [] |- _ => apply elem_of_nil in H end.
Qed.

Lemma timely_boot now e : 0 <= now -> timely (boot now e).
Proof.
  intros H. unfold boot.
  apply (timely_grows (initializeNodes (blank now))); [|apply grows_spawnParticle].
  by apply timely_blank.
Qed.

Section Expiry.
Variable Math_sqrt : Q -> Q.

Lemma timely_perform w a :
  timely w ->
  timely (perform Math_sqrt w a)
  /\ clock w <= clock (perform Math_sqrt w a)
  /\ (forall ev, ev ∈ collisionEvents w ->
        clock (perform Math_sqrt w a) < collision_timestamp ev + 1500 ->
        ev ∈ collisionEvents (perform Math_sqrt w a))
  /\ (forall ev, ev ∈ supernovaEvents w ->
        clock (perform Math_sqrt w a) < supernova_timestamp ev + 2000 ->
        ev ∈ supernovaEvents (perform Math_sqrt w a)).
Proof.
  intros Hw.
  assert (forall w', grows w w' ->
            timely w' /\ clock w <= clock w'
            /\ (forall ev, ev ∈ collisionEvents w ->
                  clock w' < collision_timestamp ev + 1500 -> ev ∈ collisionEvents w')
            /\ (forall ev, ev ∈ supernovaEvents w ->
                  clock w' < supernova_timestamp ev + 2000 -> ev ∈ supernovaEvents w')) as Hg.
  { intros w' G. destruct (timely_grows w w' Hw G) as (H1 & H2 & H3 & _).
    destruct G as [Hc _]. split; [done|]. split; [lia|]. split; intros ev Hin _; auto. }
  destruct a as [pos e|e|t es]; simpl.
  - apply Hg, grows_spawnParticle.
  - apply Hg, grows_processFieldDynamics. by destruct Hw as [? _].
  - destruct (timely_advance t es w Hw) as (H1 & H2 & H3 & H4 & _). tauto.
Qed.

(** C9: over the logical clock.  As long as the timers and the events
    agree, which holds from the constructor on, they agree after any
    sequence of spawns, ticks and passages of time, and in every state
    reached: a published collision event is never present 1500 ms or more
    after its time stamp, a supernova event never 2000 ms or more after
    it; an event that is present stays present in every later state whose
    clock is before its time stamp plus its lifetime.  When time passes to
    [t], the clock is [t] and the expiry callbacks that are due have run:
    an event that was present is still present exactly if [t] is before
    its time stamp plus its lifetime (1500 ms for a collision event,
    2000 ms for a supernova event), and the passage of time publishes no
    event.  The events that a tick adds carry the time of the tick as
    their time stamp; and an expiry callback deletes exactly the events
    with its identifier, from its own channel. *)
Theorem event_expiry actions w :
  timely w ->
  let w' := run Math_sqrt actions w in
  timely w'
  /\ (forall ev, ev ∈ collisionEvents w' -> clock w' < collision_timestamp ev + 1500)
  /\ (forall ev, ev ∈ supernovaEvents w' -> clock w' < supernova_timestamp ev + 2000)
  /\ (forall ev, ev ∈ collisionEvents w ->
        clock w' < collision_timestamp ev + 1500 -> ev ∈ collisionEvents w')
  /\ (forall ev, ev ∈ supernovaEvents w ->
        clock w' < supernova_timestamp ev + 2000 -> ev ∈ supernovaEvents w')
  /\ (forall t es, clock w' < t -> clock (advance t es w') = t)
  /\ (forall t es ev, ev ∈ collisionEvents w' ->
        (ev ∈ collisionEvents (advance t es w') <-> t < collision_timestamp ev + 1500))
  /\ (forall t es ev, ev ∈ supernovaEvents w' ->
        (ev ∈ supernovaEvents (advance t es w') <-> t < supernova_timestamp ev + 2000))
  /\ (forall t es ev, ev ∈ collisionEvents (advance t es w') -> ev ∈ collisionEvents w')
  /\ (forall t es ev, ev ∈ supernovaEvents (advance t es w') -> ev ∈ supernovaEvents w')
  /\ (forall e ev, ev ∈ collisionEvents (processFieldDynamics Math_sqrt e w) ->
        ev ∈ collisionEvents w \/ collision_timestamp ev = clock w)
  /\ (forall e ev, ev ∈ supernovaEvents (processFieldDynamics Math_sqrt e w) ->
        ev ∈ supernovaEvents w \/ supernova_timestamp ev = clock w)
  /\ (forall i e,
        collisionEvents (runTask (ExpireCollision i) e w)
        = filter (fun ev => collision_id ev <> i) (collisionEvents w)
        /\ supernovaEvents (runTask (ExpireCollision i) e w) = supernovaEvents w)
  /\ (forall i e,
        supernovaEvents (runTask (ExpireSupernova i) e w)
        = filter (fun ev => supernova_id ev <> i) (supernovaEvents w)
        /\ collisionEvents (runTask (ExpireSupernova i) e w) = collisionEvents w).
Proof.
  intros Hw w'.
  assert (timely w' /\ clock w <= clock w'
          /\ (forall ev, ev ∈ collisionEvents w ->
                clock w' < collision_timestamp ev + 1500 -> ev ∈ collisionEvents w')
          /\ (forall ev, ev ∈ supernovaEvents w ->
                clock w' < supernova_timestamp ev + 2000 -> ev ∈ supernovaEvents w'))
    as (Ht & _ & Hpc & Hps).
  { subst w'. unfold run. revert w Hw.
    induction actions as [|a rest IH]; intros w Hw; simpl.
    - split; [done|]. split; [lia|]. by split; intros.
    - destruct (timely_perform w a Hw) as (H1 & H2 & H3 & H4).
      destruct (IH _ H1) as (I1 & I2 & I3 & I4).
      split; [done|]. split; [lia|]. split; intros ev Hin Hlive.
      + apply I3; [|done]. apply H3; [done|lia].
      + apply I4; [|done]. apply H4; [done|lia]. }
  destruct (timely_live w' Ht) as [L1 L2].
  split; [done|]. split; [done|]. split; [done|]. split; [done|]. split; [done|].
  assert (forall t es, t <= clock w' -> advance t es w' = w') as Hstay.
  { intros t es Hle. unfold advance.
    destruct (t <=? clock w') eqn:E; [done|]. apply Z.leb_gt in E. lia. }
  pose proof Ht as (_ & _ & T2 & T3 & T4 & T5).
  split; [|split; [|split; [|split; [|split]]]].
  - intros t es Hlt. by destruct (advance_fields t es w' Hlt) as [Hc _].
  - intros t es ev Hin. destruct (decide (clock w' < t)) as [Hlt|Hge].
    + destruct (advance_fields t es w' Hlt) as (_ & _ & Hce & _).
      destruct (T2 ev Hin) as [Hs Htm]. rewrite Hce. split.
      * intros [_ Hall]. by apply (Hall _ Htm).
      * intros Hlive. split; [done|]. intros d Hd.
        pose proof (stamped_inj _ _ _ Hs (T3 d _ Hd)). lia.
    + rewrite Hstay by lia. pose proof (L1 ev Hin). split; [lia|done].
  - intros t es ev Hin. destruct (decide (clock w' < t)) as [Hlt|Hge].
    + destruct (advance_fields t es w' Hlt) as (_ & _ & _ & Hse).
      destruct (T4 ev Hin) as [Hs Htm]. rewrite Hse. split.
      * intros [_ Hall]. by apply (Hall _ Htm).
      * intros Hlive. split; [done|]. intros d Hd.
        pose proof (stamped_inj _ _ _ Hs (T5 d _ Hd)). lia.
    + rewrite Hstay by lia. pose proof (L2 ev Hin). split; [lia|done].
  - intros t es ev Hin. destruct (decide (clock w' < t)) as [Hlt|Hge].
    + destruct (advance_fields t es w' Hlt) as (_ & _ & Hce & _).
      by apply Hce in Hin as [? _].
    + by rewrite Hstay in Hin by lia.
  - intros t es ev Hin. destruct (decide (clock w' < t)) as [Hlt|Hge].
    + destruct (advance_fields t es w' Hlt) as (_ & _ & _ & Hse).
      by apply Hse in Hin as [? _].
    + by rewrite Hstay in Hin by lia.
  - split; [|split; [|split]].
    + intros e ev Hin.
      destruct (timely_grows w _ Hw (grows_processFieldDynamics Math_sqrt e w
                  (proj1 Hw))) as (_ & _ & _ & H & _). by apply H.
    + intros e ev Hin.
      destruct (timely_grows w _ Hw (grows_processFieldDynamics Math_sqrt e w
                  (proj1 Hw))) as (_ & _ & _ & _ & H). by apply H.
    + done.
    + done.
Qed.

End Expiry.

End EventTiming.

(** * The bounds of the store *)

Lemma round_band x : 100 <= x -> x < 999 -> 100 <= Js.round x /\ Js.round x <= 999.
Proof.
  intros H0 H1. unfold Js.round. split.
  - change 100 with (inject_Z 100). rewrite <- Zle_Qle.
    change 100%Z with (Qfloor 100). apply Qfloor_resp_le. lra.
  - change 999 with (inject_Z 999). rewrite <- Zle_Qle.
    assert (Qfloor (x + (1 # 2)) < 1000)%Z; [|lia].
    rewrite Zlt_Qlt. eapply Qle_lt_trans; [apply Qfloor_le|].
    change (inject_Z 1000) with 1000. lra.
Qed.

Lemma modulo_range a b : 0 < b -> 0 <= modulo a b /\ modulo a b < b.
Proof.
  intros Hb. unfold modulo.
  pose proof (Qfloor_le (a / b)) as Hle.
  pose proof (Qlt_floor (a / b)) as Hlt.
  rewrite inject_Z_plus in Hlt. change (inject_Z 1) with 1 in Hlt.
  set (k := inject_Z (Qfloor (a / b))) in *.
  assert (a == (a / b) * b) as Ha by (field; lra).
  split.
  - assert (k * b <= (a / b) * b) by (apply Qmult_le_compat_r; lra). lra.
  - assert ((a / b) * b < (k + 1) * b) by (apply Qmult_lt_compat_r; lra). lra.
Qed.

(** With a non-negative hash the lattice frequency lies in the band. *)
Lemma calculateNodeFrequency_band pos :
  0 <= positionHash pos ->
  100 <= calculateNodeFrequency pos /\ calculateNodeFrequency pos <= 999.
Proof.
  intros H. rewrite calculateNodeFrequency_spec by done.
  unfold specFrequency.
  destruct (modulo_range (positionHash pos) 899) as [M0 M1]; [reflexivity|].
  apply (round_band (100 + modulo (positionHash pos) 899)); lra.
Qed.

Lemma randomFrequency_band e w f :
  bandSafe w -> unitRange e -> randomFrequency e w = Some f ->
  100 <= f /\ f <= 999.
Proof.
  intros Hsafe ((Hp0 & Hp1) & (Hj0 & Hj1)). unfold randomFrequency.
  fold (nonCornerNodes w). destruct (0 <? _)%nat.
  - unfold at_index. destruct (_ <? 0)%Z; [done|].
    destruct (nonCornerNodes w !! _) as [n|] eqn:E; [|done]. simpl.
    intros [= <-]. unfold bandSafe in Hsafe. rewrite Forall_lookup in Hsafe.
    destruct (Hsafe _ _ E). lra.
  - intros [= <-]. lra.
Qed.

Lemma newParticle_ok e f :
  100 <= f -> f <= 999 -> inBounds (newParticle e f) /\ inBand (newParticle e f).
Proof.
  intros H0 H1. unfold inBounds, inBand. simpl.
  unfold SIM_CONFIG.DEFAULT_AMPLITUDE. repeat split; lra.
Qed.

Lemma updateTargetNodes_ok w :
  Forall (fun p => inBounds p /\ inBand p) (particles w) ->
  Forall (fun p => inBounds p /\ inBand p) (particles (updateTargetNodes w)).
Proof.
  intros H. unfold updateTargetNodes. simpl. apply Forall_fmap.
  eapply Forall_impl; [exact H|]. by intros p [? ?].
Qed.

Lemma spawnParticle_ok pos e w :
  bandSafe w -> tame (Spawn pos e) ->
  Forall (fun p => inBounds p /\ inBand p) (particles w) ->
  Forall (fun p => inBounds p /\ inBand p) (particles (spawnParticle pos e w)).
Proof.
  intros Hsafe Htame H. unfold spawnParticle.
  destruct (_ <=? _)%nat; [done|].
  destruct (match pos with Some _ => _ | None => _ end) as [f|] eqn:Ef; [|done].
  apply updateTargetNodes_ok. simpl. apply Forall_app. split; [done|].
  apply Forall_singleton. apply newParticle_ok.
  - destruct pos as [p|].
    + injection Ef as <-. by apply calculateNodeFrequency_band.
    + by eapply randomFrequency_band.
  - destruct pos as [p|].
    + injection Ef as <-. by apply calculateNodeFrequency_band.
    + by eapply randomFrequency_band.
Qed.

Lemma spawnParticle_inBounds pos e w :
  Forall inBounds (particles w) -> Forall inBounds (particles (spawnParticle pos e w)).
Proof.
  intros H. unfold spawnParticle.
  destruct (_ <=? _)%nat; [done|].
  destruct (match pos with Some _ => _ | None => _ end) as [f|]; [|done].
  unfold updateTargetNodes. simpl. apply Forall_fmap, Forall_app. split.
  - eapply Forall_impl; [exact H|]. by intros p.
  - apply Forall_singleton. unfold inBounds. simpl.
    unfold SIM_CONFIG.DEFAULT_AMPLITUDE. repeat split; lra.
Qed.

(** Distinct identifiers stay distinct when a spawn draws a fresh one. *)
Lemma spawnParticle_distinct pos e w :
  NoDup (id <$> particles w) -> fresh_id e ∉ id <$> particles w ->
  NoDup (id <$> particles (spawnParticle pos e w)).
Proof.
  intros Hnd Hfresh. unfold spawnParticle.
  destruct (_ <=? _)%nat; [done|].
  destruct (match pos with Some _ => _ | None => _ end) as [f|]; [|done].
  unfold updateTargetNodes. simpl.
  rewrite <- list_fmap_compose, fmap_app. simpl.
  apply NoDup_app. split; [done|]. split; [|apply NoDup_singleton].
  intros x Hx Hx'. apply list_elem_of_singleton in Hx'. by subst x.
Qed.

Section StoreBounds.
Variable Math_sqrt : Q -> Q.

Lemma updateParticles_distinct e w :
  NoDup (id <$> particles w) ->
  NoDup (id <$> particles (updateParticles Math_sqrt e w)).
Proof.
  intros Hnd. unfold updateParticles. simpl. unfold finalParticles.
  apply NoDup_ids_filter.
  rewrite (sameIdentity_ids _ _ (identity_fieldPass Math_sqrt e w)).
  by rewrite ids_assigned.
Qed.

Lemma updateParticles_ok e w :
  Forall inBounds (particles w) ->
  Forall (fun p => inBounds p /\ inBand p) (particles (updateParticles Math_sqrt e w)).
Proof.
  intros H. unfold updateParticles. simpl. unfold finalParticles.
  apply Forall_forall. intros q Hq.
  apply list_elem_of_filter in Hq. destruct Hq as [_ Hq].
  split.
  - pose proof (inBounds_passAfter Math_sqrt e w (nodeOccupancy e w) H) as Hb.
    rewrite <- fieldPass_unfold in Hb. rewrite Forall_forall in Hb. by apply Hb.
  - apply list_elem_of_lookup_1 in Hq. destruct Hq as [i Hi].
    destruct (Forall2_lookup_r _ _ _ _ _ (identity_fieldPass Math_sqrt e w) Hi)
      as (p & Hp & (_ & _ & Hl & _)).
    pose proof (inBand_assigned e w) as Hband. rewrite Forall_lookup in Hband.
    unfold inBand. rewrite Hl. by apply (Hband i p).
Qed.

(** After a tick every stored particle has its frequency in [100, 999]
    and its amplitude, harmonic factor and energy within their bounds. *)
Lemma processFieldDynamics_ok e w :
  bandSafe w -> tame (Tick e) ->
  Forall inBounds (particles w) ->
  Forall (fun p => inBounds p /\ inBand p) (particles (processFieldDynamics Math_sqrt e w)).
Proof.
  intros Hsafe Htame H. unfold processFieldDynamics.
  destruct (steady_rotate Math_sqrt w) as (Hn & Hp & _).
  assert (Forall (fun p => inBounds p /\ inBand p)
            (particles (updateParticles Math_sqrt e (rotate Math_sqrt w)))) as H1.
  { apply updateParticles_ok. by rewrite Hp. }
  unfold thresholdRule. destruct (_ && _); [|done].
  apply spawnParticle_ok; [|done|done].
  unfold bandSafe, nonCornerNodes. by rewrite nodes_updateParticles, Hn.
Qed.

Lemma perform_inBounds w a :
  Forall inBounds (particles w) -> Forall inBounds (particles (perform Math_sqrt w a)).
Proof.
  intros H. destruct a as [pos e|e|t es]; simpl.
  - by apply spawnParticle_inBounds.
  - unfold processFieldDynamics, thresholdRule.
    assert (Forall inBounds (particles (updateParticles Math_sqrt e (rotate Math_sqrt w)))) as H1.
    { eapply Forall_impl; [apply updateParticles_ok|by intros p [? _]].
      by rewrite (proj1 (proj2 (steady_rotate Math_sqrt w))). }
    destruct (_ && _); [|done]. by apply spawnParticle_inBounds.
  - unfold advance. destruct (_ <=? _)%Z; [done|]. simpl.
    set (l := inDueOrder _). set (st := (0%nat, set_timers _ w)).
    assert (Forall inBounds (particles st.2)) as Hst by done.
    clearbody st l. revert st Hst.
    induction l as [|x l IH]; intros st Hst; simpl; [done|].
    apply IH. simpl. destruct x.2; simpl; try done. by apply spawnParticle_inBounds.
Qed.

(** Amplitude, harmonic factor and energy are within their bounds in every
    state that the service reaches from its constructor. *)
Lemma run_inBounds actions now e :
  Forall inBounds (particles (run Math_sqrt actions (boot now e))).
Proof.
  assert (Forall inBounds (particles (boot now e))) as H.
  { unfold boot. apply spawnParticle_inBounds. apply Forall_nil_2. }
  unfold run. revert H. generalize (boot now e).
  induction actions as [|a rest IH]; intros w H; simpl; [done|].
  by apply IH, perform_inBounds.
Qed.

End StoreBounds.

(** C1 fails at a spawn: the hash of the position (0, -100, 0) is negative,
    the remainder operator keeps the sign, and the particle enters the
    store with the frequency -660, below the band. *)
Theorem spawn_below_band :
  exists p,
    last (particles (spawnParticle (Some below) (quiet "b") started)) = Some p
    /\ locationalFrequency p = -660
    /\ ~ inBand p.
Proof.
  eexists. split; [vm_compute; reflexivity|]. split; [reflexivity|].
  intros [H _]. simpl in H. vm_compute in H. by apply H.
Qed.

(** * Sample stores *)

Lemma duo_ids : NoDup (id <$> particles duo).
Proof. apply (bool_decide_unpack _). vm_compute. exact I. Qed.

Lemma duo_occupancy :
  nodeOccupancy calm duo = [] ++ ("-3_-3_-2"%string, ["a"; "b"]%string) :: [].
Proof. vm_compute. reflexivity. Qed.




Lemma started_particle_ids : NoDup (id <$> particles started).
Proof. apply (bool_decide_unpack _). vm_compute. exact I. Qed.

(** * Further properties: the quantities of a tick *)

(** ** Means *)

Lemma count_succ (n : nat) : inject_Z (Z.of_nat (S n)) == inject_Z (Z.of_nat n) + 1.
Proof. rewrite Nat2Z.inj_succ. unfold Z.succ. rewrite inject_Z_plus. reflexivity. Qed.

Lemma sum_between (f : ParticleState -> Q) lo hi ps : forall acc,
  Forall (fun p => lo <= f p /\ f p <= hi) ps ->
  acc + inject_Z (Z.of_nat (length ps)) * lo
    <= fold_left (fun acc p => acc + f p) ps acc
  /\ fold_left (fun acc p => acc + f p) ps acc
    <= acc + inject_Z (Z.of_nat (length ps)) * hi.
Proof.
  induction ps as [|p ps IH]; intros acc H.
  - simpl. change (inject_Z (Z.of_nat 0)) with 0. lra.
  - apply Forall_cons in H as [[Hlo Hhi] H].
    destruct (IH (acc + f p) H) as [I1 I2].
    cbn [fold_left length]. pose proof (count_succ (length ps)) as Hn.
    set (n := inject_Z (Z.of_nat (length ps))) in *.
    set (m := inject_Z (Z.of_nat (S (length ps)))) in *.
    split.
    + eapply Qle_trans; [|exact I1]. rewrite Hn. lra.
    + eapply Qle_trans; [exact I2|]. rewrite Hn. lra.
Qed.

Lemma count_pos {A} (l : list A) : l <> [] -> 0 < inject_Z (Z.of_nat (length l)).
Proof.
  intros H. destruct l; [done|]. change 0 with (inject_Z 0).
  rewrite <- Zlt_Qlt. simpl length. lia.
Qed.

Lemma mean_between (f : ParticleState -> Q) lo hi ps :
  ps <> [] -> Forall (fun p => lo <= f p /\ f p <= hi) ps ->
  lo <= mean f ps /\ mean f ps <= hi.
Proof.
  intros Hne H. unfold mean.
  pose proof (count_pos ps Hne) as Hn.
  destruct (sum_between f lo hi ps 0 H) as [S1 S2].
  split.
  - apply Qle_shift_div_l; [done|]. lra.
  - apply Qle_shift_div_r; [done|]. lra.
Qed.

Lemma globalAmplitude_empty w : particles w = [] -> globalAmplitude w = 0.
Proof. unfold globalAmplitude. by intros ->. Qed.



(** ** Resonance *)

Lemma unit_square t : 0 <= t -> t <= 1 -> Js.sq t <= 1.
Proof. intros H0 H1. unfold Js.sq. nra. Qed.

Lemma abs_between a b lo hi :
  lo <= a -> a <= hi -> lo <= b -> b <= hi -> Qabs (a - b) <= hi - lo.
Proof. intros. apply Qabs_Qle_condition. lra. Qed.

(** X2: for base frequencies in the band the resonance factor of a
    collision lies in [0, 1]; it is 1 when the base frequency of the
    particle equals the mean of the others; and with amplitudes of at most
    1 the harmonic increase is at most [0.6 + 0.2 * n] for [n] other
    particles. *)
Theorem resonance_range cur others :
  others <> [] ->
  100 <= baseFrequency cur /\ baseFrequency cur <= 999 ->
  Forall (fun p => 100 <= baseFrequency p /\ baseFrequency p <= 999) others ->
  (0 <= resonanceFactor cur others /\ resonanceFactor cur others <= 1)
  /\ (baseFrequency cur == mean baseFrequency others -> resonanceFactor cur others == 1)
  /\ (0 <= amplitude cur /\ amplitude cur <= 1 ->
      Forall (fun p => 0 <= amplitude p /\ amplitude p <= 1) others ->
      harmonicIncrease cur others
      <= (6 # 10) + inject_Z (Z.of_nat (length others)) * (2 # 10)).
Proof.
  intros Hne [Hc0 Hc1] Ho.
  destruct (mean_between baseFrequency 100 999 others Hne Ho) as [M0 M1].
  pose proof (abs_between _ _ 100 999 Hc0 Hc1 M0 M1) as Habs.
  pose proof (Qabs_nonneg (baseFrequency cur - mean baseFrequency others)) as Hpos.
  unfold resonanceFactor. cbv zeta. simpl fst. simpl snd. unfold Js.abs.
  set (d := Qabs (baseFrequency cur - mean baseFrequency others)) in *.
  assert (0 <= d / (999 - 100) /\ d / (999 - 100) <= 1) as [D0 D1].
  { split.
    - apply Qle_shift_div_l; [reflexivity|]. lra.
    - apply Qle_shift_div_r; [reflexivity|]. lra. }
  assert (0 <= Js.sq (1 - d / (999 - 100)) /\ Js.sq (1 - d / (999 - 100)) <= 1) as Hr.
  { split; [apply sq_nonneg|]. apply unit_square; lra. }
  split; [exact Hr|]. split.
  - intros Heq.
    assert (d <= 0) as Hd by (apply Qabs_Qle_condition; lra).
    assert (d / (999 - 100) == 0) as E.
    { assert (d == 0) as -> by lra. reflexivity. }
    unfold Js.sq. rewrite E. reflexivity.
  - intros [A0 A1] Ha.
    destruct (mean_between amplitude 0 1 others Hne Ha) as [N0 N1].
    unfold harmonicIncrease, resonanceFactor. cbv zeta. simpl fst. simpl snd.
    unfold Js.abs. fold d.
    pose proof (count_nonneg (length others)) as Hn.
    set (r := Js.sq (1 - d / (999 - 100))) in *.
    set (k := (6 # 10) + inject_Z (Z.of_nat (length others)) * (2 # 10)).
    assert (0 <= k) as Hk by (unfold k; lra).
    assert (0 <= amplitudeFactor cur others /\ amplitudeFactor cur others <= 1) as [F0 F1].
    { unfold amplitudeFactor. split.
      - apply half_nonneg. lra.
      - apply Qle_shift_div_r; [reflexivity|]. lra. }
    set (f := amplitudeFactor cur others) in *.
    destruct Hr as [R0 R1].
    assert (r * f <= 1) as Hrf by nra.
    assert (0 <= r * f) as Hrf0 by nra.
    nra.
Qed.

Lemma resonance_range_witness :
  (0 <= resonanceFactor (newParticle (quiet "a") 300) [newParticle (quiet "b") 300]
   /\ resonanceFactor (newParticle (quiet "a") 300) [newParticle (quiet "b") 300] <= 1)
  /\ resonanceFactor (newParticle (quiet "a") 300) [newParticle (quiet "b") 300] == 1
  /\ harmonicIncrease (newParticle (quiet "a") 300) [newParticle (quiet "b") 300]
      <= (6 # 10) + inject_Z (Z.of_nat (length [newParticle (quiet "b") 300])) * (2 # 10).
Proof.
  destruct (resonance_range (newParticle (quiet "a") 300) [newParticle (quiet "b") 300])
    as (H1 & H2 & H3).
  - discriminate.
  - simpl. lra.
  - apply Forall_cons_2; [simpl; lra|apply Forall_nil_2].
  - split; [exact H1|]. split.
    + apply H2. vm_compute. reflexivity.
    + apply H3; [split; vm_compute; discriminate|].
      apply Forall_cons_2; [|apply Forall_nil_2].
      split; vm_compute; discriminate.
Defined.

(** ** Drift and decay *)

Lemma clamp_near lo hi x d :
  lo <= x -> x <= hi -> Qabs (Js.max lo (Js.min hi (x + d)) - x) <= Qabs d.
Proof.
  intros H0 H1. unfold Js.max, Js.min.
  pose proof (Qle_Qabs d) as A1.
  pose proof (Qle_Qabs (- d)) as A2. rewrite Qabs_opp in A2.
  apply Qabs_Qle_condition.
  destruct (Q.max_spec lo (Qmin hi (x + d))) as [[M1 M2]|[M1 M2]];
    destruct (Q.min_spec hi (x + d)) as [[N1 N2]|[N1 N2]];
    rewrite M2; rewrite ?N2; rewrite ?N2 in M1; lra.
Qed.

(** X3: while the grid is at rest (the squared angular velocity is at most
    1e-6) a tick moves the frequency of a particle in the band by at most
    2; and whatever the rotation, a tick lowers the amplitude by at most
    0.005, the harmonic factor by at most 0.02 and the energy by at most
    0.002, and raises none of them above its floor. *)
Theorem drift_at_rest w noise p :
  lengthSq (gridAngularVelocity w) <= 1 # 1000000 ->
  0 <= noise /\ noise < 1 ->
  inBand p ->
  Qabs (locationalFrequency (driftAndDecay w noise p) - locationalFrequency p) <= 2
  /\ amplitude p - (5 # 1000) <= amplitude (driftAndDecay w noise p)
  /\ amplitude (driftAndDecay w noise p) <= Qmax (4 # 10) (amplitude p)
  /\ harmonicFactor p - (2 # 100) <= harmonicFactor (driftAndDecay w noise p)
  /\ harmonicFactor (driftAndDecay w noise p) <= Qmax 1 (harmonicFactor p)
  /\ energyLevel p - (2 # 1000) <= energyLevel (driftAndDecay w noise p)
  /\ energyLevel (driftAndDecay w noise p) <= Qmax (1 # 10) (energyLevel p).
Proof.
  intros Hrest [N0 N1] [B0 B1]. unfold driftAndDecay. cbv zeta.
  assert (Js.gt (lengthSq (gridAngularVelocity w)) (1 # 1000000) = false) as ->.
  { unfold Js.gt. apply negb_false_iff. by apply Qle_bool_iff. }
  cbn [locationalFrequency amplitude harmonicFactor energyLevel].
  split.
  - eapply Qle_trans; [apply clamp_near; assumption|].
    apply Qabs_Qle_condition. lra.
  - unfold Js.max, SIM_CONFIG.DEFAULT_AMPLITUDE.
    repeat split.
    + apply Q.le_max_r.
    + apply Q.max_lub; [apply Q.le_max_l|].
      eapply Qle_trans; [|apply Q.le_max_r]. lra.
    + apply Q.le_max_r.
    + apply Q.max_lub; [apply Q.le_max_l|].
      eapply Qle_trans; [|apply Q.le_max_r]. lra.
    + apply Q.le_max_r.
    + apply Q.max_lub; [apply Q.le_max_l|].
      eapply Qle_trans; [|apply Q.le_max_r]. lra.
Qed.

Lemma drift_at_rest_witness :
  Qabs (locationalFrequency (driftAndDecay started (5 # 10) (newParticle (quiet "a") 200))
        - locationalFrequency (newParticle (quiet "a") 200)) <= 2
  /\ amplitude (newParticle (quiet "a") 200) - (5 # 1000)
     <= amplitude (driftAndDecay started (5 # 10) (newParticle (quiet "a") 200))
  /\ amplitude (driftAndDecay started (5 # 10) (newParticle (quiet "a") 200))
     <= Qmax (4 # 10) (amplitude (newParticle (quiet "a") 200))
  /\ harmonicFactor (newParticle (quiet "a") 200) - (2 # 100)
     <= harmonicFactor (driftAndDecay started (5 # 10) (newParticle (quiet "a") 200))
  /\ harmonicFactor (driftAndDecay started (5 # 10) (newParticle (quiet "a") 200))
     <= Qmax 1 (harmonicFactor (newParticle (quiet "a") 200))
  /\ energyLevel (newParticle (quiet "a") 200) - (2 # 1000)
     <= energyLevel (driftAndDecay started (5 # 10) (newParticle (quiet "a") 200))
  /\ energyLevel (driftAndDecay started (5 # 10) (newParticle (quiet "a") 200))
     <= Qmax (1 # 10) (energyLevel (newParticle (quiet "a") 200)).
Proof.
  apply (drift_at_rest started (5 # 10) (newParticle (quiet "a") 200)).
  - vm_compute. discriminate.
  - lra.
  - unfold inBand. simpl. lra.
Defined.

(** ** The remainder operator and the lattice frequency *)

Lemma trunc_neg x : x < 0 -> Js.trunc x = Qceiling x.
Proof.
  intros H. unfold Js.trunc.
  destruct (Qle_bool 0 x) eqn:E; [|done].
  apply Qle_bool_iff in E. lra.
Qed.

Lemma rem_range a b :
  0 < b ->
  (- b < Js.rem a b /\ Js.rem a b < b)
  /\ (0 <= a -> 0 <= Js.rem a b)
  /\ (a <= 0 -> Js.rem a b <= 0).
Proof.
  intros Hb.
  assert (a == (a / b) * b) as Ha by (field; lra).
  destruct (Qlt_le_dec a 0) as [Hneg|Hpos].
  - assert (a / b < 0) as Hq.
    { apply Qlt_shift_div_r; [done|]. lra. }
    unfold Js.rem. rewrite trunc_neg by done.
    pose proof (Qle_ceiling (a / b)) as C1.
    pose proof (Qceiling_lt (a / b)) as C2.
    unfold Zminus in C2. rewrite inject_Z_plus in C2.
    change (inject_Z (- (1))%Z) with (-1) in C2.
    set (k := inject_Z (Qceiling (a / b))) in *.
    assert ((a / b) * b <= k * b) by (apply Qmult_le_compat_r; lra).
    assert ((k + -1) * b < (a / b) * b) by (apply Qmult_lt_compat_r; lra).
    repeat split; intros; lra.
  - rewrite rem_modulo by done.
    destruct (modulo_range a b Hb) as [M0 M1].
    repeat split; intros; try lra.
    assert (a == 0) as Hz by lra.
    unfold modulo.
    assert (a / b == 0) as Hq by (rewrite Hz; field; lra).
    rewrite Hq. change (Qfloor 0) with 0%Z. change (inject_Z 0) with 0. lra.
Qed.

Lemma round_between (lo hi : Z) x :
  inject_Z lo <= x -> x < inject_Z hi ->
  (lo <= Qfloor (x + (1 # 2)) <= hi)%Z.
Proof.
  intros H0 H1. split.
  - rewrite <- (Qfloor_Z lo). apply Qfloor_resp_le. lra.
  - assert (Qfloor (x + (1 # 2)) < hi + 1)%Z; [|lia].
    rewrite Zlt_Qlt. eapply Qle_lt_trans; [apply Qfloor_le|].
    rewrite inject_Z_plus. change (inject_Z 1) with 1. lra.
Qed.

(** X4: at a position with integer coordinates of magnitude at most
    [10^6], where the arithmetic of the code is exact,
    [calculateNodeFrequency] returns an integer between -799 and 999; the
    result is at least 100 when the position hash
    [(x+20)*1.5 + (y+20)*10 + (z+20)*0.5] is not negative; and for a hash
    strictly between -899 and -1/2 the result is the rounding of
    [100 + hash], which is below 100. *)
Theorem frequency_range (x y z : Z) :
  (Z.abs x <= 1000000)%Z -> (Z.abs y <= 1000000)%Z -> (Z.abs z <= 1000000)%Z ->
  let pos := mkVector3 (inject_Z x) (inject_Z y) (inject_Z z) in
  (exists f : Z, calculateNodeFrequency pos = inject_Z f /\ (-799 <= f <= 999)%Z)
  /\ (0 <= positionHash pos -> 100 <= calculateNodeFrequency pos)
  /\ (- 899 < positionHash pos -> positionHash pos < - (1 # 2) ->
      calculateNodeFrequency pos = Js.round (100 + positionHash pos)
      /\ calculateNodeFrequency pos < 100).
Proof.
  intros _ _ _ pos.
  assert (calculateNodeFrequency pos
          = Js.round (100 + Js.rem (positionHash pos) (999 - 100))) as Hdef by reflexivity.
  destruct (rem_range (positionHash pos) (999 - 100)) as ([R0 R1] & Rpos & Rneg);
    [reflexivity|].
  split; [|split].
  - exists (Qfloor (100 + Js.rem (positionHash pos) (999 - 100) + (1 # 2))).
    split; [exact Hdef|].
    apply round_between.
    + change (inject_Z (-799)) with (-799). lra.
    + change (inject_Z 999) with 999. lra.
  - intros H. by apply calculateNodeFrequency_band.
  - intros H0 H1.
    assert (Js.rem (positionHash pos) (999 - 100) = positionHash pos - 0 * (999 - 100)) as Hrem.
    { unfold Js.rem. rewrite trunc_neg.
      - assert (Qceiling (positionHash pos / (999 - 100)) = 0%Z) as ->; [|reflexivity].
        pose proof (Qle_ceiling (positionHash pos / (999 - 100))) as C1.
        pose proof (Qceiling_lt (positionHash pos / (999 - 100))) as C2.
        assert (positionHash pos / (999 - 100) < 0) as Hq.
        { apply Qlt_shift_div_r; [reflexivity|]. lra. }
        assert (- 1 < positionHash pos / (999 - 100)) as Hq'.
        { apply Qlt_shift_div_l; [reflexivity|]. lra. }
        assert (-1 < Qceiling (positionHash pos / (999 - 100)))%Z.
        { rewrite Zlt_Qlt. change (inject_Z (-1)) with (-1). lra. }
        assert (Qceiling (positionHash pos / (999 - 100)) - 1 < 0)%Z; [|lia].
        rewrite Zlt_Qlt. change (inject_Z 0) with 0. lra.
      - apply Qlt_shift_div_r; [reflexivity|]. lra. }
    rewrite Hdef, Hrem. unfold Js.round. split.
    + f_equal. apply Qfloor_comp. lra.
    + change 100 with (inject_Z 100). rewrite <- Zlt_Qlt.
      assert (inject_Z (Qfloor (100 + (positionHash pos - 0 * (999 - 100)) + (1 # 2)))
              < inject_Z 100); [|by rewrite Zlt_Qlt].
      eapply Qle_lt_trans; [apply Qfloor_le|]. change (inject_Z 100) with 100. lra.
Qed.

Lemma frequency_range_witness :
  100 <= calculateNodeFrequency (mkVector3 (inject_Z 0) (inject_Z 0) (inject_Z 0))
  /\ calculateNodeFrequency (mkVector3 (inject_Z 0) (inject_Z (-100)) (inject_Z 0))
     = Js.round (100 + positionHash (mkVector3 (inject_Z 0) (inject_Z (-100)) (inject_Z 0)))
  /\ calculateNodeFrequency (mkVector3 (inject_Z 0) (inject_Z (-100)) (inject_Z 0)) < 100.
Proof.
  split.
  - apply (proj1 (proj2 (frequency_range 0 0 0 ltac:(simpl; lia) ltac:(simpl; lia)
                           ltac:(simpl; lia)))).
    vm_compute. discriminate.
  - apply (proj2 (proj2 (frequency_range 0 (-100) 0 ltac:(simpl; lia) ltac:(simpl; lia)
                           ltac:(simpl; lia)))); vm_compute; reflexivity.
Defined.

(** * Further properties: the pass over the store *)

Section Pass.
Variable Math_sqrt : Q -> Q.

(** ** The population of a tick *)

Lemma particles_updateParticles e w :
  particles (updateParticles Math_sqrt e w) = finalParticles (fieldPass Math_sqrt e w).
Proof. reflexivity. Qed.

Lemma length_updateParticles e w :
  (length (particles (updateParticles Math_sqrt e w)) <= length (particles w))%nat.
Proof.
  rewrite particles_updateParticles. etrans; [apply length_finalParticles|].
  by rewrite length_fieldPass.
Qed.

Lemma updateParticles_empty e w :
  particles w = [] -> particles (updateParticles Math_sqrt e w) = [].
Proof.
  intros H. pose proof (length_updateParticles e w) as Hl. rewrite H in Hl.
  destruct (particles (updateParticles Math_sqrt e w)); [done|]. simpl in Hl. lia.
Qed.

(** X5: the update of a tick never enlarges the store; the threshold rule
    that ends the tick adds at most one particle, and only when fewer than
    3 particles are left and their mean amplitude is at least 0.7; a tick
    on an empty store leaves the store empty. *)
Theorem tick_population e w :
  let w1 := updateParticles Math_sqrt e (rotate Math_sqrt w) in
  let w2 := processFieldDynamics Math_sqrt e w in
  (length (particles w1) <= length (particles w))%nat
  /\ (length (particles w1) <= length (particles w2) <= S (length (particles w1)))%nat
  /\ ((length (particles w1) < length (particles w2))%nat ->
      (length (particles w1) < 3)%nat /\ 7 # 10 <= globalAmplitude w1)
  /\ (particles w = [] -> particles w2 = []).
Proof.
  intros w1 w2.
  assert (length (particles w1) <= length (particles w))%nat as H1.
  { subst w1. etrans; [apply length_updateParticles|].
    by rewrite (proj1 (proj2 (steady_rotate Math_sqrt w))). }
  assert (w2 = thresholdRule e w1) as Hw2 by reflexivity.
  split; [exact H1|].
  unfold thresholdRule in Hw2.
  destruct (Js.ge (globalAmplitude w1) (7 # 10)) eqn:Ea;
    destruct (length (particles w1) <? 3)%nat eqn:El; simpl in Hw2.
  - (* the rule fires *)
    apply ge_spec in Ea. apply Nat.ltb_lt in El.
    assert (length (particles w1) <= length (particles w2)
            <= S (length (particles w1)))%nat as H2.
    { rewrite Hw2. unfold spawnParticle.
      destruct (_ <=? _)%nat; [lia|].
      destruct (randomFrequency _ _); [|lia].
      rewrite length_updateTargetNodes. simpl. rewrite length_app. simpl. lia. }
    split; [exact H2|]. split; [done|].
    intros Hw. exfalso.
    assert (particles w1 = []) as Hp.
    { destruct (particles w1); [done|]. rewrite Hw in H1. simpl in H1. lia. }
    rewrite (globalAmplitude_empty w1 Hp) in Ea. lra.
  - rewrite Hw2. split; [lia|]. split; [lia|].
    intros Hw. destruct (particles w1); [done|]. rewrite Hw in H1. simpl in H1. lia.
  - rewrite Hw2. split; [lia|]. split; [lia|].
    intros Hw. destruct (particles w1); [done|]. rewrite Hw in H1. simpl in H1. lia.
  - rewrite Hw2. split; [lia|]. split; [lia|].
    intros Hw. destruct (particles w1); [done|]. rewrite Hw in H1. simpl in H1. lia.
Qed.

(** ** Identity through the update *)

Lemma identity_driftAndDecay w noise p :
  id (driftAndDecay w noise p) = id p
  /\ baseFrequency (driftAndDecay w noise p) = baseFrequency p.
Proof. done. Qed.

Lemma identity_retarget w p :
  id (retarget w p) = id p /\ baseFrequency (retarget w p) = baseFrequency p.
Proof. unfold retarget. by destruct (findNearestNode _ _). Qed.

Lemma assigned_origin e w i q :
  assigned e w !! i = Some q ->
  exists p, particles w !! i = Some p
            /\ q = retarget w (driftAndDecay w (drift_noise e i) p).
Proof.
  unfold assigned, drifted. rewrite list_lookup_fmap, list_lookup_imap.
  destruct (particles w !! i) as [p|]; [|done]. simpl. intros [= <-]. by exists p.
Qed.

(** X6: the update of a tick creates no particle and reorders none: the
    identifiers left in the store are a subsequence of those before the
    update, and every particle left carries the identifier and the base
    frequency of a particle of the store before the update, its frequency
    is in the band [100, 999], whatever it was before. *)
Theorem update_keeps_identity e w :
  id <$> particles (updateParticles Math_sqrt e w) `sublist_of` id <$> particles w
  /\ forall q, q ∈ particles (updateParticles Math_sqrt e w) ->
       (exists p, p ∈ particles w /\ id q = id p /\ baseFrequency q = baseFrequency p)
       /\ inBand q.
Proof.
  rewrite particles_updateParticles. unfold finalParticles. split.
  - rewrite <- (ids_passAfter Math_sqrt e w (nodeOccupancy e w)), <- fieldPass_unfold.
    apply fmap_sublist, sublist_filter.
  - intros q Hq. apply list_elem_of_filter in Hq as [_ Hq].
    apply list_elem_of_lookup_1 in Hq as [i Hi].
    destruct (Forall2_lookup_r _ _ _ _ _ (identity_fieldPass Math_sqrt e w) Hi)
      as (a & Ha & Hid & Hbase & Hfreq & Htarget).
    destruct (assigned_origin e w i a Ha) as (p & Hp & ->).
    split.
    + exists p. split; [by eapply list_elem_of_lookup_2|].
      rewrite Hid, Hbase.
      destruct (identity_retarget w (driftAndDecay w (drift_noise e i) p)) as [-> ->].
      done.
    + pose proof (inBand_assigned e w) as Hb.
      rewrite Forall_lookup in Hb. specialize (Hb _ _ Ha).
      unfold inBand in *. by rewrite Hfreq.
Qed.

(** ** Nodes with at most one occupant *)

Lemma quiet_processNode a nid pIds :
  (length pIds <= 1)%nat ->
  let a' := processNode Math_sqrt a (nid, pIds) in
  updated a' = updated a
  /\ particleIdsToRemove a' = particleIdsToRemove a
  /\ explosionsToProcess a' = explosionsToProcess a
  /\ collisionEvents (world a') = collisionEvents (world a)
  /\ supernovaEvents (world a') = supernovaEvents (world a)
  /\ timers (world a') = timers (world a).
Proof.
  intros Hlen. cbv zeta. unfold processNode.
  destruct (findNode _ _) as [node|]; [|done].
  assert ((1 <? length pIds)%nat = false) as -> by (apply Nat.ltb_ge; lia).
  destruct (isCorner node); [|done].
  destruct (cornerTorques_fields Math_sqrt node pIds a) as (_ & Ht & Hc & Hs).
  rewrite updated_cornerTorques, Ht, Hc, Hs. repeat split.
  - clear. revert a. induction pIds as [|pid l IH]; intros a; simpl; [done|].
    rewrite IH. unfold cornerTorque. destruct (findParticle _ _); [|done].
    by destruct (Js.gt _ _).
  - clear. revert a. induction pIds as [|pid l IH]; intros a; simpl; [done|].
    rewrite IH. unfold cornerTorque. destruct (findParticle _ _); [|done].
    by destruct (Js.gt _ _).
Qed.

Lemma quiet_processNodes entries : forall a,
  (forall k pids, (k, pids) ∈ entries -> (length pids <= 1)%nat) ->
  let a' := fold_left (processNode Math_sqrt) entries a in
  updated a' = updated a
  /\ particleIdsToRemove a' = particleIdsToRemove a
  /\ explosionsToProcess a' = explosionsToProcess a
  /\ collisionEvents (world a') = collisionEvents (world a)
  /\ supernovaEvents (world a') = supernovaEvents (world a)
  /\ timers (world a') = timers (world a).
Proof.
  induction entries as [|[k pids] l IH]; intros a H; cbn [fold_left]; [done|].
  destruct (IH (processNode Math_sqrt a (k, pids))) as (H1&H2&H3&H4&H5&H6).
  { intros k' pids' Hin. apply (H k'). by right. }
  destruct (quiet_processNode a k pids) as (G1&G2&G3&G4&G5&G6).
  { apply (H k). by left. }
  cbv zeta in *. by rewrite H1, H2, H3, H4, H5, H6.
Qed.

(** X7: a tick in which no two particles have the same nearest node is
    quiet: the store after the update is the array after drift, decay and
    target assignment, no particle is removed, no event is published and
    no timer is set. *)
Theorem quiet_update e w :
  (forall k, (length (filter (fun p => nearestId w p = Some k) (drifted e w)) <= 1)%nat) ->
  let w' := updateParticles Math_sqrt e w in
  particles w' = assigned e w
  /\ collisionEvents w' = collisionEvents w
  /\ supernovaEvents w' = supernovaEvents w
  /\ timers w' = timers w.
Proof.
  intros Hq w'.
  destruct (nodeOccupancy_spec e w) as [_ Hocc].
  destruct (quiet_processNodes (nodeOccupancy e w) (mkPass w (assigned e w) ∅ 0%nat))
    as (H1&H2&H3&H4&H5&H6).
  { intros k pids Hin. rewrite (Hocc k pids Hin), length_fmap. apply Hq. }
  cbv zeta in *. fold (passAfter Math_sqrt e w (nodeOccupancy e w)) in *.
  rewrite <- fieldPass_unfold in *. simpl in *.
  destruct (scheduleRespawns_fields (fieldPass Math_sqrt e w))
    as (_&_&_&Gc&Gs&_&_&Gt).
  subst w'. unfold updateParticles. cbn [particles collisionEvents supernovaEvents
    timers set_particles].
  rewrite Gc, Gs, Gt, H3, H4, H5, H6. simpl. rewrite app_nil_r.
  split; [|done].
  unfold finalParticles. rewrite H1, H2. apply filter_all.
  apply Forall_forall. intros p _. apply not_elem_of_empty.
Qed.

(** ** The collision events of a tick *)

(** The event published for an entry of the occupancy at time [now]. *)
Lemma crowded_processNode a nid pIds :
  is_Some (findNode (world a) nid) -> (2 <= length pIds)%nat ->
  collisionEvents (world (processNode Math_sqrt a (nid, pIds)))
  = collisionEvents (world a)
    ++ [mkCollision (nid +:+ "-" +:+ Js.show (clock (world a))) nid pIds (clock (world a))].
Proof.
  intros [node Hnode] Hlen.
  destruct (processNode_found Math_sqrt a nid pIds node Hnode Hlen)
    as (a1 & _ & _ & _ & Hc & _ & _ & Hk & ->).
  destruct (collide_effects node nid pIds a1) as (_ & -> & _).
  by rewrite Hc, Hk.
Qed.

Lemma events_processNodes now entries : forall a,
  clock (world a) = now ->
  (forall k pids, (k, pids) ∈ entries -> pids <> [] -> is_Some (findNode (world a) k)) ->
  collisionEvents (world (fold_left (processNode Math_sqrt) entries a))
  = collisionEvents (world a)
    ++ ((fun entry : string * list string =>
           mkCollision (entry.1 +:+ "-" +:+ Js.show now) entry.1 entry.2 now)
        <$> filter (fun entry : string * list string => (2 <= length entry.2)%nat) entries).
Proof.
  induction entries as [|[k pids] l IH]; intros a Hnow Hfound; cbn [fold_left].
  - by rewrite filter_nil, fmap_nil, app_nil_r.
  - pose proof (steady_processNode Math_sqrt a (k, pids)) as (Hn & _ & Hc & _).
    rewrite IH.
    2:{ by rewrite Hc. }
    2:{ intros k' pids' Hin Hne. unfold findNode. rewrite Hn.
        apply (Hfound k' pids'); [by right|done]. }
    rewrite filter_cons. cbn [snd]. destruct (decide (2 <= length pids)%nat) as [Hl|Hl].
    + rewrite crowded_processNode; [|apply (Hfound k pids); [by left|]|done].
      * rewrite Hnow, <- app_assoc. done.
      * intros ->. simpl in Hl. lia.
    + destruct (quiet_processNode a k pids ltac:(lia)) as (_&_&_&->&_). done.
Qed.

End Pass.

(** * Further properties: events, removal and survival *)

(** ** Identifiers of events *)

Lemma length_append (a s : string) :
  String.length (a +:+ s) = (String.length a + String.length s)%nat.
Proof.
  induction a as [|ch a IH]; [done|].
  change (String ch a +:+ s) with (String ch (a +:+ s)).
  cbn [String.length]. by rewrite IH.
Qed.

Lemma append_inj_r (s a b : string) : (a +:+ s = b +:+ s)%string -> a = b.
Proof.
  intros H.
  assert (String.length a = String.length b) as Hl.
  { apply (f_equal String.length) in H. rewrite !length_append in H. lia. }
  revert b H Hl. induction a as [|ch a IH]; intros [|ch' b] H Hl; try done.
  change (String ch (a +:+ s) = String ch' (b +:+ s)) in H.
  injection H as -> H. f_equal. apply IH; [done|]. simpl in Hl. lia.
Qed.

(** ** Filters *)

Lemma filter_iff_on {A} (P1 P2 : A -> Prop)
    `{!forall x, Decision (P1 x), !forall x, Decision (P2 x)} (l : list A) :
  (forall x, x ∈ l -> P1 x <-> P2 x) -> filter P1 l = filter P2 l.
Proof.
  induction l as [|a l IH]; intros Hon; [done|].
  assert (filter P1 l = filter P2 l) as Hl.
  { apply IH. intros x Hx. apply Hon. by right. }
  assert (P1 a <-> P2 a) as Ha by (apply Hon; by left).
  destruct (decide (P1 a)).
  - rewrite !filter_cons_True by tauto. by rewrite Hl.
  - rewrite !filter_cons_False by tauto. done.
Qed.

Lemma filter_none {A} (P : A -> Prop) `{!forall x, Decision (P x)} (l : list A) :
  (forall x, x ∈ l -> ~ P x) -> filter P l = [].
Proof.
  induction l as [|a l IH]; intros Hno; [done|].
  rewrite filter_cons_False by (apply Hno; by left).
  apply IH. intros x Hx. apply Hno. by right.
Qed.

Section Events.
Variable Math_sqrt : Q -> Q.

(** X8: the collision events of a tick.  The update appends to the
    published events exactly one event for each node with at least two
    occupants, in the order in which the nodes were first occupied; the
    event names the node and carries the identifiers of all the particles
    of which the node is the nearest one, in the order of the store, and
    the time of the tick; the new events have pairwise distinct
    identifiers; the threshold rule that ends the tick publishes none. *)
Theorem collisions_published e w :
  let now := clock w in
  let crowded_nodes :=
    filter (fun entry : string * list string => (2 <= length entry.2)%nat)
           (nodeOccupancy e w) in
  let published :=
    (fun entry : string * list string =>
       mkCollision (entry.1 +:+ "-" +:+ Js.show now) entry.1 entry.2 now)
    <$> crowded_nodes in
  collisionEvents (updateParticles Math_sqrt e w) = collisionEvents w ++ published
  /\ collisionEvents (thresholdRule e (updateParticles Math_sqrt e w))
     = collisionEvents w ++ published
  /\ NoDup (collision_id <$> published)
  /\ NoDup (nodeId <$> published)
  /\ forall ev, ev ∈ published ->
       (2 <= length (particleIds ev))%nat
       /\ particleIds ev
          = id <$> filter (fun p => nearestId w p = Some (nodeId ev)) (drifted e w).
Proof.
  intros now crowded_nodes published.
  destruct (nodeOccupancy_spec e w) as [Hkeys Hocc].
  assert (collisionEvents (updateParticles Math_sqrt e w) = collisionEvents w ++ published)
    as Hpub.
  { unfold updateParticles. cbn [collisionEvents set_particles].
    destruct (scheduleRespawns_fields (fieldPass Math_sqrt e w)) as (_&_&_&->&_).
    rewrite fieldPass_unfold. unfold passAfter.
    rewrite (events_processNodes Math_sqrt now); [done|done|].
    intros k pids Hin Hne. by apply (entry_node e w k pids). }
  assert (NoDup crowded_nodes.*1) as Hnd.
  { eapply sublist_NoDup; [exact Hkeys|]. apply fmap_sublist, sublist_filter. }
  split; [exact Hpub|]. split; [|split; [|split]].
  - unfold thresholdRule. destruct (_ && _); [|exact Hpub].
    destruct (events_spawnParticle None (threshold_spawn e) (updateParticles Math_sqrt e w))
      as [-> _].
    exact Hpub.
  - unfold published. rewrite <- list_fmap_compose.
    assert ((collision_id ∘ (fun entry : string * list string =>
               mkCollision (entry.1 +:+ "-" +:+ Js.show now) entry.1 entry.2 now))
              <$> crowded_nodes
            = (fun k : string => k +:+ "-" +:+ Js.show now) <$> crowded_nodes.*1) as ->.
    { rewrite <- list_fmap_compose. by apply list_fmap_ext. }
    apply NoDup_fmap_2; [|exact Hnd].
    intros a b Hab. by apply append_inj_r in Hab.
  - unfold published. rewrite <- list_fmap_compose.
    assert ((nodeId ∘ (fun entry : string * list string =>
               mkCollision (entry.1 +:+ "-" +:+ Js.show now) entry.1 entry.2 now))
              <$> crowded_nodes = crowded_nodes.*1) as ->.
    { by apply list_fmap_ext. }
    exact Hnd.
  - intros ev Hev. unfold published in Hev.
    apply list_elem_of_fmap in Hev as ([k pids] & -> & Hin).
    apply list_elem_of_filter in Hin as [Hlen Hin]. simpl in *.
    split; [done|]. by apply Hocc.
Qed.

(** ** What the pass marks for removal *)

Lemma marks_cornerTorques node pIds : forall a,
  particleIdsToRemove (fold_left (cornerTorque Math_sqrt node) pIds a)
  = particleIdsToRemove a.
Proof.
  induction pIds as [|pid l IH]; intros a; simpl; [done|].
  rewrite IH. unfold cornerTorque. destruct (findParticle _ _); [|done].
  by destruct (Js.gt _ _).
Qed.

Lemma marks_processNode a nid pIds x :
  x ∈ particleIdsToRemove (processNode Math_sqrt a (nid, pIds)) ->
  x ∈ particleIdsToRemove a \/ x ∈ pIds.
Proof.
  unfold processNode. destruct (findNode _ _) as [node|]; [|by left].
  set (a1 := if isCorner node then _ else a).
  assert (particleIdsToRemove a1 = particleIdsToRemove a) as H1.
  { subst a1. destruct (isCorner node); [apply marks_cornerTorques|done]. }
  destruct (1 <? length pIds)%nat; [|rewrite H1; by left].
  destruct (collide_effects node nid pIds a1) as (_ & _ & _ & He).
  destruct ((if (1 <? _)%nat then _ else _).2).
  - destruct He as (_ & _ & -> & _). rewrite H1, elem_of_union, elem_of_list_to_set. done.
  - destruct He as (_ & _ & -> & _). rewrite H1. by left.
Qed.

Lemma marks_processNodes entries : forall a x,
  x ∈ particleIdsToRemove (fold_left (processNode Math_sqrt) entries a) ->
  x ∈ particleIdsToRemove a
  \/ exists k pids, (k, pids) ∈ entries /\ x ∈ pids.
Proof.
  induction entries as [|[k pids] l IH]; intros a x Hx; cbn [fold_left] in Hx; [by left|].
  destruct (IH _ _ Hx) as [H|(k' & pids' & Hin & Hx')].
  - destruct (marks_processNode a k pids x H) as [H'|H']; [by left|].
    right. exists k, pids. split; [by left|done].
  - right. exists k', pids'. split; [by right|done].
Qed.

(** The identifiers of an entry whose callback marks nothing are not
    marked when the pass ends. *)
Lemma unmarked_until_end e w pre nid pIds post :
  NoDup (id <$> particles w) ->
  nodeOccupancy e w = pre ++ (nid, pIds) :: post ->
  particleIdsToRemove (processNode Math_sqrt (passAfter Math_sqrt e w pre) (nid, pIds))
  = particleIdsToRemove (passAfter Math_sqrt e w pre) ->
  forall pid, pid ∈ pIds -> pid ∉ particleIdsToRemove (fieldPass Math_sqrt e w).
Proof.
  intros Hnd Hocc Hsame pid Hpid Hmarked.
  destruct (nodeOccupancy_entries e w Hnd pre nid pIds post Hocc) as (_ & _ & Hdisj).
  rewrite fieldPass_unfold, Hocc, passAfter_split in Hmarked.
  apply marks_processNodes in Hmarked as [H|(k & pids & Hin & Hx)].
  - rewrite Hsame in H. unfold passAfter in H.
    apply marks_processNodes in H as [H|(k & pids & Hin & Hx)].
    + simpl in H. by apply not_elem_of_empty in H.
    + apply (Hdisj k pids pid); [|done|done]. apply elem_of_app. by left.
  - apply (Hdisj k pids pid); [|done|done]. apply elem_of_app. by right.
Qed.

Lemma survivor e w pid :
  pid ∈ id <$> particles w ->
  pid ∉ particleIdsToRemove (fieldPass Math_sqrt e w) ->
  pid ∈ id <$> particles (updateParticles Math_sqrt e w).
Proof.
  intros Hin Hnot. rewrite particles_updateParticles. unfold finalParticles.
  rewrite <- (ids_passAfter Math_sqrt e w (nodeOccupancy e w)), <- fieldPass_unfold in Hin.
  apply list_elem_of_fmap in Hin as (p & -> & Hp).
  apply list_elem_of_fmap. exists p. split; [done|].
  apply list_elem_of_filter. done.
Qed.

(** ** The energy of the occupants after a collision *)

Lemma energy_resonate cur others target :
  energyLevel (resonate cur others target)
  = Js.min 1 (energyLevel cur + (2 # 10) * inject_Z (Z.of_nat (length others))).
Proof. reflexivity. Qed.

Lemma min_reaches x : 1 <= Js.min 1 x <-> 1 <= x.
Proof.
  unfold Js.min. split; intros H.
  - eapply Qle_trans; [exact H|apply Q.le_min_r].
  - apply Q.min_glb; [lra|done].
Qed.

(** The occupants of an entry with at least two identifiers: each one is
    still as the assignment left it when the callback of the entry starts,
    and its energy after the callback is that energy plus 0.2 for each of
    the others, capped at 1. *)
Lemma occupant_energy e w pre nid pIds post :
  NoDup (id <$> particles w) ->
  nodeOccupancy e w = pre ++ (nid, pIds) :: post ->
  (2 <= length pIds)%nat ->
  let a := passAfter Math_sqrt e w pre in
  let a' := processNode Math_sqrt a (nid, pIds) in
  let boost := (2 # 10) * inject_Z (Z.of_nat (length pIds - 1)) in
  (forall r, r ∈ colliding (updated a) pIds ->
     exists p, assigned e w !! r = Some p /\ id p ∈ pIds
               /\ exists q, updated a' !! r = Some q
                            /\ energyLevel q = Js.min 1 (energyLevel p + boost))
  /\ (forall p, p ∈ assigned e w -> id p ∈ pIds ->
        exists r, r ∈ colliding (updated a) pIds /\ assigned e w !! r = Some p).
Proof.
  intros Hnd Hocc Hlen a a' boost.
  destruct (entry_state Math_sqrt e w pre nid pIds post Hnd Hocc)
    as (Hnd' & Hp & Hin & Hsame).
  fold a in Hnd', Hin, Hsame.
  destruct (entry_node e w nid pIds) as [node Hnode].
  { rewrite Hocc. apply elem_of_app. right. by left. }
  { intros ->. simpl in Hlen. lia. }
  assert (findNode (world a) nid = Some node) as Hnode'.
  { unfold findNode in *. subst a. unfold passAfter.
    by rewrite (proj1 (steady_processNodes Math_sqrt pre (mkPass w (assigned e w) ∅ 0%nat))). }
  destruct (processNode_found Math_sqrt a nid pIds node Hnode' Hlen)
    as (a1 & Hu1 & _ & _ & _ & _ & _ & _ & Hproc).
  destruct (collideAll_spec (updated a) pIds Hnd' Hp Hin Hlen)
    as (Hl & Hat & Hid & _ & Hres & _).
  assert (updated a'
          = (fold_left (collideOne (colliding (updated a) pIds))
                       (colliding (updated a) pIds) (updated a, false)).1) as Hafter.
  { subst a'. rewrite Hproc, updated_collide, Hu1.
    fold (colliding (updated a) pIds).
    destruct (1 <? _)%nat eqn:E; [done|]. apply Nat.ltb_ge in E. lia. }
  rewrite <- Hafter in Hid, Hres.
  pose proof (identity_passAfter Math_sqrt e w pre) as Hpass. fold a in Hpass.
  assert (forall r p, updated a !! r = Some p -> id p ∈ pIds ->
            assigned e w !! r = Some p) as Hback.
  { intros r p Hr Hmem.
    destruct (Forall2_lookup_r _ _ _ _ _ Hpass Hr) as (p0 & Hp0 & Hsid).
    assert (id p0 ∈ pIds) as Hmem0 by (destruct Hsid as (<- & _); done).
    pose proof (Hsame r p0 Hp0 Hmem0). congruence. }
  split.
  - intros r Hr. apply list_elem_of_lookup_1 in Hr as [k Hk].
    destruct (Hat k r Hk) as (p & Hpr & Hpk).
    assert (id p ∈ pIds) as Hmem by (by eapply list_elem_of_lookup_2).
    exists p. split; [by apply Hback|]. split; [done|].
    eexists. split; [by apply Hres|].
    rewrite energy_resonate, length_seenBy.
    + by rewrite Hl.
    + intros r' Hr'. apply list_elem_of_lookup_1 in Hr'. destruct Hr' as [k' Hk'].
      destruct (Hat k' r' Hk') as (q & Hq & _). by exists q.
    + intros r' Hr'. apply lookup_lt_is_Some. rewrite <- (Forall2_length _ _ _ Hid).
      apply list_elem_of_lookup_1 in Hr'. destruct Hr' as [k' Hk'].
      destruct (Hat k' r' Hk') as (q & Hq & _). by eapply lookup_lt_Some.
    + by eapply lookup_lt_Some.
  - intros p Hpa Hmem. apply list_elem_of_lookup_1 in Hpa as [r Hr].
    exists r. split; [|done].
    pose proof (Hsame r p Hr Hmem) as Hu.
    apply list_elem_of_lookup_1 in Hmem as [k Hk].
    destruct (lookup_lt_is_Some_2 (colliding (updated a) pIds) k) as [r' Hr'].
    { rewrite Hl. by eapply lookup_lt_Some. }
    destruct (Hat k r' Hr') as (p' & Hp' & Hpk).
    assert (id p' = id p) as Heq by congruence.
    assert (r' = r) as <-.
    { eapply NoDup_lookup; [exact Hnd'| |].
      - by rewrite list_lookup_fmap, Hp'.
      - rewrite list_lookup_fmap, Hu. simpl. by rewrite Heq. }
    by eapply list_elem_of_lookup_2.
Qed.

(** X9: the criterion of a supernova in terms of the energies before the
    collision.  In a tick on a store with distinct identifiers, take a node
    with [n >= 2] occupants; the occupants are as drift, decay and target
    assignment left them.  If the energy of one of them plus [0.2 * (n-1)]
    reaches 1 (for two occupants: an energy of at least 0.8), no particle
    with the identifier of an occupant is in the store after the update;
    otherwise every occupant is still in the store after the update.  The
    occupants of a node are removed together or not at all. *)
Theorem supernova_threshold e w pre nid pIds post :
  NoDup (id <$> particles w) ->
  nodeOccupancy e w = pre ++ (nid, pIds) :: post ->
  (2 <= length pIds)%nat ->
  let boost := (2 # 10) * inject_Z (Z.of_nat (length pIds - 1)) in
  ((exists p, p ∈ assigned e w /\ id p ∈ pIds /\ 1 <= energyLevel p + boost) ->
   forall pid, pid ∈ pIds -> pid ∉ id <$> particles (updateParticles Math_sqrt e w))
  /\ ((forall p, p ∈ assigned e w -> id p ∈ pIds -> energyLevel p + boost < 1) ->
      forall pid, pid ∈ pIds -> pid ∈ id <$> particles (updateParticles Math_sqrt e w)).
Proof.
  intros Hnd Hocc Hlen boost.
  destruct (occupant_energy e w pre nid pIds post Hnd Hocc Hlen) as [Hen Hfind].
  destruct (callback_effects Math_sqrt e w pre nid pIds post Hnd Hocc Hlen)
    as (node & _ & Htrig & Hquiet).
  cbv zeta in *. subst boost.
  set (a := passAfter Math_sqrt e w pre) in *.
  set (a' := processNode Math_sqrt a (nid, pIds)) in *.
  split.
  - intros (p & Hp & Hmem & Hhot) pid Hpid Hleft.
    destruct (Hfind p Hp Hmem) as (r & Hr & Hrp).
    destruct (Hen r Hr) as (p' & Hp' & _ & q & Hq & Hqe).
    assert (p' = p) as -> by congruence.
    destruct Htrig as (_ & _ & Hmark & _).
    { exists r, q. split; [done|]. split; [done|]. rewrite Hqe. by apply min_reaches. }
    rewrite particles_updateParticles in Hleft. unfold finalParticles in Hleft.
    apply list_elem_of_fmap in Hleft as (s & -> & Hs).
    apply list_elem_of_filter in Hs as [Hs _]. apply Hs.
    apply (marked_until_end Math_sqrt e w pre (nid, pIds) post Hocc).
    fold a a'. rewrite Hmark. apply elem_of_union. right. by apply elem_of_list_to_set.
  - intros Hcool pid Hpid.
    destruct (nodeOccupancy_entries e w Hnd pre nid pIds post Hocc) as (_ & Hsub & _).
    apply survivor; [by apply Hsub|].
    apply (unmarked_until_end e w pre nid pIds post Hnd Hocc); [|done].
    fold a a'. apply Hquiet.
    intros (r & q & Hr & Hq & Hqe).
    destruct (Hen r Hr) as (p & Hp & Hmem & q' & Hq' & Hqe').
    assert (q' = q) as -> by congruence.
    rewrite Hqe' in Hqe. apply (proj1 (min_reaches _)) in Hqe.
    assert (p ∈ assigned e w) as Hpa by (by eapply list_elem_of_lookup_2).
    pose proof (Hcool p Hpa Hmem). lra.
Qed.

(** X10: a particle that is alone at its nearest node leaves the update
    exactly as drift, decay and target assignment left it: it is in the
    store after the update, with the node as its target, whatever happens
    at the other nodes. *)
Theorem lone_particle_survives e w pre nid pid post :
  NoDup (id <$> particles w) ->
  nodeOccupancy e w = pre ++ (nid, [pid]) :: post ->
  exists p,
    p ∈ assigned e w /\ id p = pid /\ targetNodeId p = Some nid
    /\ p ∈ particles (updateParticles Math_sqrt e w).
Proof.
  intros Hnd Hocc.
  destruct (findParticle_entry Math_sqrt e w pre nid [pid] post pid Hnd Hocc)
    as (p & Hfu & Hfa & Ht); [by left|].
  destruct (entry_state Math_sqrt e w pre nid [pid] post Hnd Hocc)
    as (Hnd' & _ & _ & Hsame).
  destruct (nodeOccupancy_entries e w Hnd pre nid [pid] post Hocc) as (_ & _ & Hdisj).
  rewrite findParticle_findIndex in Hfa.
  destruct (findIndex (assigned e w) pid) as [i|] eqn:Ei; [|done]. simpl in Hfa.
  apply findIndex_Some in Ei as (p' & Hp' & Hid).
  assert (p' = p) as -> by congruence.
  exists p. split; [by eapply list_elem_of_lookup_2|]. split; [done|]. split; [done|].
  rewrite particles_updateParticles. unfold finalParticles.
  apply list_elem_of_filter. split.
  - rewrite Hid.
    apply (unmarked_until_end e w pre nid [pid] post Hnd Hocc); [|by left].
    by destruct (quiet_processNode Math_sqrt (passAfter Math_sqrt e w pre) nid [pid])
      as (_ & -> & _); [simpl; lia|].
  - apply (list_elem_of_lookup_2 _ i).
    rewrite fieldPass_unfold, Hocc, passAfter_split.
    apply processNodes_untouched.
    + destruct (quiet_processNode Math_sqrt (passAfter Math_sqrt e w pre) nid [pid])
        as (-> & _); [simpl; lia|].
      apply Hsame; [done|]. rewrite Hid. by left.
    + intros k pids Hin Hmem. apply (Hdisj k pids pid).
      * apply elem_of_app. by right.
      * by rewrite <- Hid.
      * by left.
Qed.

(** ** Damping *)

Lemma energy_assigned e w p :
  p ∈ assigned e w ->
  exists p0, p0 ∈ particles w
             /\ energyLevel p = Js.max (1 # 10) (energyLevel p0 - (2 # 1000)).
Proof.
  intros Hp. apply list_elem_of_lookup_1 in Hp as [i Hi].
  destruct (assigned_origin e w i p Hi) as (p0 & Hp0 & ->).
  exists p0. split; [by eapply list_elem_of_lookup_2|].
  unfold retarget. by destruct (findNearestNode _ _).
Qed.

Lemma gt_spec_false a b : Js.gt a b = false <-> a <= b.
Proof. unfold Js.gt. rewrite negb_false_iff. apply Qle_bool_iff. Qed.

(** X11: without an energetic particle the grid only slows down.  In a
    tick on a store with distinct identifiers in which every particle has
    an energy of at most 0.202 (so that no decayed energy exceeds 0.2),
    the angular velocity after the tick is 0.97 times the one before, even
    when corner nodes are occupied. *)
Theorem damping_only e w :
  NoDup (id <$> particles w) ->
  (forall p, p ∈ particles w -> energyLevel p <= 202 # 1000) ->
  veq (gridAngularVelocity (processFieldDynamics Math_sqrt e w))
      (multiplyScalar (97 # 100) (gridAngularVelocity w)).
Proof.
  intros Hnd Hlow. unfold processFieldDynamics. rewrite angular_after_pass.
  rewrite <- (angular_rotate Math_sqrt w).
  set (w1 := rotate Math_sqrt w).
  assert (particles w1 = particles w) as Hp.
  { apply (steady_rotate Math_sqrt w). }
  assert (NoDup (id <$> particles w1)) as Hnd1 by (by rewrite Hp).
  assert (forall c : Vector3 -> Q, c vzero = 0 ->
            qsum (fun p => c (torqueOf Math_sqrt w1 p)) (assigned e w1) == 0) as Hzero.
  { intros c Hc. apply qsum_zero. intros p Hpa.
    destruct (energy_assigned e w1 p Hpa) as (p0 & Hp0 & He).
    rewrite Hp in Hp0. pose proof (Hlow p0 Hp0) as Hl.
    assert (Js.gt (energyLevel p) (2 # 10) = false) as Hgt.
    { apply gt_spec_false. rewrite He. unfold Js.max. apply Q.max_lub; lra. }
    unfold torqueOf. destruct (_ ≫= _) as [node|]; [|by rewrite Hc].
    rewrite Hgt, andb_false_r. by rewrite Hc. }
  repeat split.
  - rewrite (fieldPass_push Math_sqrt vx) by done.
    rewrite (c_cornerTorques Math_sqrt vx) by done. rewrite Hzero by done. lra.
  - rewrite (fieldPass_push Math_sqrt vy) by done.
    rewrite (c_cornerTorques Math_sqrt vy) by done. rewrite Hzero by done. lra.
  - rewrite (fieldPass_push Math_sqrt vz) by done.
    rewrite (c_cornerTorques Math_sqrt vz) by done. rewrite Hzero by done. lra.
Qed.

(** ** The population after supernovas *)

Lemma explosion_step a nid pIds :
  let a' := processNode Math_sqrt a (nid, pIds) in
  (particleIdsToRemove a' = particleIdsToRemove a
   /\ explosionsToProcess a' = explosionsToProcess a)
  \/ (particleIdsToRemove a' = particleIdsToRemove a ∪ list_to_set pIds
      /\ explosionsToProcess a' = S (explosionsToProcess a)
      /\ (2 <= length pIds)%nat).
Proof.
  cbv zeta. unfold processNode. destruct (findNode _ _) as [node|]; [|by left].
  set (a1 := if isCorner node then _ else a).
  assert (particleIdsToRemove a1 = particleIdsToRemove a
          /\ explosionsToProcess a1 = explosionsToProcess a) as [H1 H2].
  { subst a1. destruct (isCorner node); [|done]. split; [apply marks_cornerTorques|].
    clear. revert a. induction pIds as [|pid l IH]; intros a; simpl; [done|].
    rewrite IH. unfold cornerTorque. destruct (findParticle _ _); [|done].
    by destruct (Js.gt _ _). }
  destruct (1 <? length pIds)%nat eqn:El; [|left; by rewrite H1, H2].
  apply Nat.ltb_lt in El.
  destruct (collide_effects node nid pIds a1) as (_ & _ & _ & He).
  destruct ((if (1 <? _)%nat then _ else _).2).
  - destruct He as (_ & _ & -> & ->). right. rewrite H1, H2. split; [done|]. split; [done|lia].
  - destruct He as (_ & _ & -> & ->). left. by rewrite H1, H2.
Qed.

Lemma filter_marked (marked : gset string) : forall u : list ParticleState,
  NoDup (id <$> u) ->
  (forall x, x ∈ marked -> x ∈ id <$> u) ->
  (length (filter (fun p => id p ∉ marked) u) + size marked = length u)%nat.
Proof.
  intros u. revert marked. induction u as [|p u IH]; intros marked Hnd Hsub.
  - assert (marked = ∅) as ->.
    { apply set_eq. intros x. split; [|by intros H%not_elem_of_empty].
      intros Hx. apply Hsub in Hx. by apply elem_of_nil in Hx. }
    by rewrite size_empty.
  - rewrite fmap_cons in Hnd. apply NoDup_cons in Hnd as [Hfresh Hnd].
    destruct (decide (id p ∈ marked)) as [Hin|Hout].
    + rewrite filter_cons_False by (intros H; by apply H).
      assert (filter (fun q => id q ∉ marked) u
              = filter (fun q => id q ∉ marked ∖ {[id p]}) u) as ->.
      { apply filter_iff_on. intros q Hq. rewrite elem_of_difference, elem_of_singleton.
        assert (id q <> id p) as Hne.
        { intros Heq. apply Hfresh. rewrite <- Heq. apply list_elem_of_fmap. by exists q. }
        split; [intros H [? _]; by apply H|intros H ?; by apply H]. }
      pose proof (IH (marked ∖ {[id p]}) Hnd) as Hlen.
      assert (size marked = S (size (marked ∖ {[id p]}))) as ->.
      { rewrite (union_difference_L {[id p]} marked) at 1.
        - rewrite size_union.
          + rewrite size_singleton. lia.
          + intros x Hx [_ Hx']%elem_of_difference. done.
        - by apply singleton_subseteq_l. }
      cbn [length]. rewrite <- Hlen; [lia|].
      intros x Hx. apply elem_of_difference in Hx as [Hx Hne].
      apply Hsub in Hx. rewrite fmap_cons, elem_of_cons in Hx.
      destruct Hx as [ -> |Hx]; [|done]. exfalso. apply Hne. by apply elem_of_singleton.
    + rewrite filter_cons_True by done. cbn [length].
      rewrite <- (IH marked Hnd); [lia|].
      intros x Hx. pose proof (Hsub x Hx) as Hx'. rewrite fmap_cons, elem_of_cons in Hx'.
      destruct Hx' as [ -> |Hx']; done.
Qed.

Lemma explosions_counted e w :
  NoDup (id <$> particles w) ->
  forall pre post, nodeOccupancy e w = pre ++ post ->
    (2 * explosionsToProcess (passAfter Math_sqrt e w pre)
     <= size (particleIdsToRemove (passAfter Math_sqrt e w pre)))%nat.
Proof.
  intros Hnd pre. induction pre as [|[nid pIds] pre IH] using rev_ind; intros post Hocc.
  - unfold passAfter. simpl. lia.
  - rewrite <- app_assoc in Hocc. simpl in Hocc.
    specialize (IH _ Hocc). rewrite passAfter_app.
    destruct (explosion_step (passAfter Math_sqrt e w pre) nid pIds)
      as [[-> ->]|(-> & -> & Hlen)]; [done|].
    destruct (nodeOccupancy_entries e w Hnd pre nid pIds post Hocc) as (Hp & _ & Hdisj).
    rewrite size_union.
    + rewrite size_list_to_set by done. lia.
    + intros x Hx Hx'. apply elem_of_list_to_set in Hx'.
      unfold passAfter in Hx. apply marks_processNodes in Hx as [Hx|(k & pids & Hin & Hx)].
      * simpl in Hx. by apply not_elem_of_empty in Hx.
      * apply (Hdisj k pids x); [|done|done]. apply elem_of_app. by left.
Qed.

Lemma respawns_replicate (t : Z) (n : nat) :
  length (List.filter (fun x : Z * Task => (x.1 <=? t)%Z && isRespawn x.2)
            (replicate n (t, Respawn))) = n.
Proof.
  induction n as [|n IH]; [done|].
  cbn [replicate List.filter fst snd isRespawn]. rewrite Z.leb_refl. cbn [andb length].
  by rewrite IH.
Qed.

(** X12: the population after supernovas.  In a tick on a store with
    distinct identifiers the update removes exactly the marked particles;
    every explosion marks at least two particles, and brings back one
    replacement, 50 ms later: the store after the update holds at most the
    particles before it less two for each explosion, and one timer of a
    replacement spawn is added for each explosion. *)
Theorem supernova_balance e w :
  NoDup (id <$> particles w) ->
  let a := fieldPass Math_sqrt e w in
  (length (particles (updateParticles Math_sqrt e w)) + size (particleIdsToRemove a)
   = length (particles w))%nat
  /\ (2 * explosionsToProcess a <= size (particleIdsToRemove a))%nat
  /\ (length (particles (updateParticles Math_sqrt e w)) + 2 * explosionsToProcess a
      <= length (particles w))%nat
  /\ respawnsDue (clock w + 50) (updateParticles Math_sqrt e w)
     = (respawnsDue (clock w + 50) (world a) + explosionsToProcess a)%nat.
Proof.
  intros Hnd a.
  assert (length (particles (updateParticles Math_sqrt e w)) + size (particleIdsToRemove a)
          = length (particles w))%nat as H1.
  { rewrite particles_updateParticles. unfold finalParticles. fold a.
    rewrite filter_marked.
    - subst a. apply length_fieldPass.
    - subst a. rewrite fieldPass_unfold, ids_passAfter. done.
    - intros x Hx. subst a. rewrite fieldPass_unfold in *. rewrite ids_passAfter.
      unfold passAfter in Hx. apply marks_processNodes in Hx as [Hx|(k & pids & Hin & Hx)].
      + simpl in Hx. by apply not_elem_of_empty in Hx.
      + apply list_elem_of_split in Hin as (pre & post & Hocc).
        destruct (nodeOccupancy_entries e w Hnd pre k pids post Hocc) as (_ & Hsub & _).
        by apply Hsub. }
  assert (2 * explosionsToProcess a <= size (particleIdsToRemove a))%nat as H2.
  { subst a. rewrite fieldPass_unfold.
    apply (explosions_counted e w Hnd (nodeOccupancy e w) []). by rewrite app_nil_r. }
  split; [done|]. split; [done|]. split; [lia|].
  unfold respawnsDue, updateParticles. cbn [timers set_particles]. fold a.
  destruct (scheduleRespawns_fields a) as (_&_&_&_&_&_&_&->).
  rewrite List.filter_app, length_app. f_equal.
  assert (clock (world a) = clock w) as ->.
  { subst a. rewrite fieldPass_unfold. apply clock_passAfter. }
  apply respawns_replicate.
Qed.

End Events.

(** * Further properties: spawning on the generated grid, timers, reachable states *)

(** ** The generated grid *)

Lemma generated_nonCorner_range :
  forallb (fun n => Qle_bool 198 (frequency n) && Qle_bool (frequency n) 482)
          (List.filter (fun n => negb (isCorner n)) (generateNodes SIM_CONFIG.GRID_SIZE))
  = true.
Proof. vm_compute. reflexivity. Qed.

Lemma generated_nonCorner_count :
  length (List.filter (fun n => negb (isCorner n)) (generateNodes SIM_CONFIG.GRID_SIZE))
  = 335%nat.
Proof. vm_compute. reflexivity. Qed.

Lemma generated_nonCorner n :
  n ∈ List.filter (fun n => negb (isCorner n)) (generateNodes SIM_CONFIG.GRID_SIZE) ->
  n ∈ generateNodes SIM_CONFIG.GRID_SIZE /\ isCorner n = false
  /\ 198 <= frequency n /\ frequency n <= 482.
Proof.
  intros Hn. pose proof generated_nonCorner_range as Hall.
  rewrite forallb_forall in Hall.
  apply list_elem_of_In in Hn.
  specialize (Hall n Hn). apply andb_true_iff in Hall as [H1 H2].
  apply Qle_bool_iff in H1, H2.
  apply filter_In in Hn as [Hin Hc]. apply negb_true_iff in Hc.
  by rewrite list_elem_of_In.
Qed.

Lemma generated_bandSafe w :
  nodes w = generateNodes SIM_CONFIG.GRID_SIZE -> bandSafe w.
Proof.
  intros Hn. unfold bandSafe, nonCornerNodes. rewrite Hn.
  apply Forall_forall. intros n Hin.
  destruct (generated_nonCorner n Hin) as (_ & _ & H1 & H2). lra.
Qed.

(** The index that [spawnParticle] computes from a value of [Math.random]
    hits the array. *)
Lemma randomFrequency_Some e w :
  0 <= pick e -> pick e < 1 ->
  match nonCornerNodes w with
  | [] => randomFrequency e w = Some (200 + pick e * 600)
  | _ :: _ => exists node, node ∈ nonCornerNodes w
                /\ randomFrequency e w = Some (frequency node + (jitter e - (5 # 10)) * 10)
  end.
Proof.
  intros Hp0 Hp1. unfold nonCornerNodes, randomFrequency.
  destruct (List.filter _ (nodes w)) as [|n0 ns] eqn:Encs; [done|].
  set (ncs := n0 :: ns) in *.
  destruct (floor_index (pick e) (length ncs) Hp0 Hp1) as ([Hk0 Hk1] & _).
  { simpl. lia. }
  set (k := Js.floor _) in *.
  destruct (lookup_lt_is_Some_2 ncs (Z.to_nat k)) as [node Hnode]; [lia|].
  exists node. split; [by eapply list_elem_of_lookup_2|].
  simpl length at 1. simpl Nat.ltb. cbv iota. unfold at_index.
  destruct (k <? 0)%Z eqn:E; [lia|]. by rewrite Hnode.
Qed.

Lemma spawn_adds_one e w :
  0 <= pick e -> pick e < 1 ->
  (length (particles w) < SIM_CONFIG.MAX_PARTICLES)%nat ->
  length (particles (spawnParticle None e w)) = S (length (particles w)).
Proof.
  intros Hp0 Hp1 Hcap.
  assert (exists f, randomFrequency e w = Some f) as [f Hf].
  { pose proof (randomFrequency_Some e w Hp0 Hp1) as H.
    destruct (nonCornerNodes w); [by eexists|]. destruct H as (n & _ & H). by eexists. }
  rewrite (particles_spawnParticle None e w f Hcap Hf).
  rewrite length_app, length_updateTargetNodes. simpl. lia.
Qed.

(** X13: on the generated grid a spawn without a position never takes the
    fallback branch and never misses the array: below the cap, with the
    values of [Math.random] in [0, 1), it appends one particle whose
    frequency is that of a non-corner node of the grid moved by less than
    5, hence within [193, 487) and inside the band, and whose target is
    not [null]. *)
Theorem grid_spawn e w :
  nodes w = generateNodes SIM_CONFIG.GRID_SIZE ->
  unitRange e ->
  (length (particles w) < SIM_CONFIG.MAX_PARTICLES)%nat ->
  exists node f target,
    node ∈ nodes w /\ isCorner node = false
    /\ f = frequency node + (jitter e - (5 # 10)) * 10
    /\ (193 <= f /\ f < 487)
    /\ findNearestNode w f = Some target
    /\ particles (spawnParticle None e w)
       = particles (updateTargetNodes w)
         ++ [mkParticle (fresh_id e) f f 1 (4 # 10) (1 # 10) (Some (node_id target))].
Proof.
  intros Hn ((Hp0 & Hp1) & (Hj0 & Hj1)) Hcap.
  pose proof (randomFrequency_Some e w Hp0 Hp1) as Hf.
  pose proof generated_nonCorner_count as Hcount.
  unfold nonCornerNodes in Hf. rewrite Hn in Hf.
  destruct (List.filter _ (generateNodes _)) as [|n0 ns] eqn:Encs; [done|].
  destruct Hf as (node & Hin & Hf). rewrite <- Encs in Hin.
  destruct (generated_nonCorner node Hin) as (Hgen & Hc & H1 & H2).
  set (f := frequency node + (jitter e - (5 # 10)) * 10) in *.
  destruct (findNearestNode w f) as [target|] eqn:Et.
  2:{ apply findNearestNode_None in Et. rewrite Hn in Et. done. }
  exists node, f, target. rewrite Hn.
  split; [done|]. split; [done|]. split; [done|]. split; [subst f; lra|].
  split; [done|].
  rewrite (particles_spawnParticle None e w f Hcap Hf), Et. simpl.
  rewrite or_null_nonempty; [done|].
  pose proof generated_ids_nonempty as Hids. rewrite Forall_forall in Hids.
  apply Hids.
  destruct (findNearestNode_first w f target) as (i & Hi & _); [done|].
  rewrite Hn in Hi. by eapply list_elem_of_lookup_2.
Qed.

Lemma grid_spawn_witness :
  exists node f target,
    node ∈ nodes started /\ isCorner node = false
    /\ f = frequency node + (jitter (quiet "b") - (5 # 10)) * 10
    /\ (193 <= f /\ f < 487)
    /\ findNearestNode started f = Some target
    /\ particles (spawnParticle None (quiet "b") started)
       = particles (updateTargetNodes started)
         ++ [mkParticle (fresh_id (quiet "b")) f f 1 (4 # 10) (1 # 10)
               (Some (node_id target))].
Proof.
  apply (grid_spawn (quiet "b") started).
  - apply nodes_boot.
  - unfold unitRange. simpl. lra.
  - vm_compute. lia.
Defined.

(** ** Seeding at a node *)

(** X14: seeding at the position of a node.  Below the cap,
    [spawnParticle] called with the position of a node whose frequency is
    the lattice frequency of its position appends a particle with exactly
    the frequency of that node; the target of the particle is the first
    node of the array with that frequency (the node itself, unless an
    earlier node shares its frequency). *)
Theorem seed_at_node e w n :
  n ∈ nodes w ->
  frequency n = calculateNodeFrequency (position n) ->
  (length (particles w) < SIM_CONFIG.MAX_PARTICLES)%nat ->
  exists target,
    firstNearest (nodes w) (frequency n) target
    /\ frequency target == frequency n
    /\ particles (spawnParticle (Some (position n)) e w)
       = particles (updateTargetNodes w)
         ++ [mkParticle (fresh_id e) (frequency n) (frequency n) 1 (4 # 10) (1 # 10)
               (or_null (node_id target))].
Proof.
  intros Hin Hfreq Hcap.
  destruct (findNearestNode w (frequency n)) as [target|] eqn:Et.
  2:{ apply findNearestNode_None in Et. rewrite Et in Hin. by apply elem_of_nil in Hin. }
  pose proof (findNearestNode_first w (frequency n) target Et) as Hfirst.
  exists target. split; [done|]. split.
  - destruct Hfirst as (i & _ & Hmin & _).
    apply list_elem_of_lookup_1 in Hin as [j Hj].
    pose proof (Hmin j n Hj) as Hle. unfold distance in Hle.
    assert (Qabs (frequency n - frequency n) == 0) as Hz.
    { assert (frequency n - frequency n == 0) as -> by lra. reflexivity. }
    rewrite Hz in Hle.
    pose proof (Qabs_nonneg (frequency target - frequency n)) as Hpos.
    assert (Qabs (frequency target - frequency n) <= 0) as Hz' by lra.
    apply Qabs_Qle_condition in Hz'. lra.
  - rewrite (particles_spawnParticle (Some (position n)) e w (frequency n) Hcap).
    + by rewrite Et.
    + by rewrite Hfreq.
Qed.

Lemma seed_at_node_witness :
  exists target,
    firstNearest (nodes started) (frequency (makeNode 3 0 0 0)) target
    /\ frequency target == frequency (makeNode 3 0 0 0)
    /\ particles (spawnParticle (Some (position (makeNode 3 0 0 0))) (quiet "b") started)
       = particles (updateTargetNodes started)
         ++ [mkParticle (fresh_id (quiet "b")) (frequency (makeNode 3 0 0 0))
               (frequency (makeNode 3 0 0 0)) 1 (4 # 10) (1 # 10)
               (or_null (node_id target))].
Proof.
  apply (seed_at_node (quiet "b") started (makeNode 3 0 0 0)).
  - apply (list_elem_of_lookup_2 _ 171%nat). vm_compute. reflexivity.
  - reflexivity.
  - vm_compute. lia.
Defined.

(** ** Timers *)

Lemma filter_enqueue (f : Z * Task -> bool) t q :
  length (List.filter f (enqueue t q)) = length (List.filter f (t :: q)).
Proof.
  induction q as [|t' q IH]; [done|].
  cbn [enqueue]. destruct (t'.1 <=? t.1)%Z; [|done].
  cbn [List.filter] in *. destruct (f t'), (f t); simpl in *; lia.
Qed.

Lemma filter_inDueOrder_fold (f : Z * Task -> bool) l : forall q,
  length (List.filter f (fold_left (fun queue t => enqueue t queue) l q))
  = (length (List.filter f l) + length (List.filter f q))%nat.
Proof.
  induction l as [|t l IH]; intros q; [done|].
  cbn [fold_left]. rewrite IH, filter_enqueue. cbn [List.filter].
  destruct (f t); simpl; lia.
Qed.

Lemma filter_inDueOrder (f : Z * Task -> bool) l :
  length (List.filter f (inDueOrder l)) = length (List.filter f l).
Proof. unfold inDueOrder. rewrite filter_inDueOrder_fold. simpl. lia. Qed.

Lemma filter_filter {A} (f g : A -> bool) l :
  List.filter g (List.filter f l) = List.filter (fun x => f x && g x) l.
Proof.
  induction l as [|x l IH]; [done|]. simpl.
  destruct (f x); simpl; [|done]. destruct (g x); by rewrite IH.
Qed.

Lemma fire_particles es l : forall st,
  (forall k, 0 <= pick (es k) /\ pick (es k) < 1) ->
  (length (particles st.2) <= SIM_CONFIG.MAX_PARTICLES)%nat ->
  length (particles (fold_left (fire es) l st).2)
  = Nat.min SIM_CONFIG.MAX_PARTICLES
      (length (particles st.2)
       + length (List.filter (fun x : Z * Task => isRespawn x.2) l)).
Proof.
  unfold SIM_CONFIG.MAX_PARTICLES.
  induction l as [|[d task] l IH]; intros st Hes Hcap.
  - cbn [fold_left List.filter length]. lia.
  - cbn [fold_left]. rewrite IH; [|done|].
    + cbn [List.filter snd fire fst isRespawn].
      destruct task; cbn [isRespawn runTask particles set_collisionEvents
                            set_supernovaEvents set_clock length]; try lia.
      destruct (decide (length (particles st.2) < 8)%nat) as [Hlt|Hge].
      * rewrite spawn_adds_one; [cbn [particles set_clock]; lia|apply Hes|apply Hes|done].
      * unfold spawnParticle. cbn [particles set_clock].
        assert ((SIM_CONFIG.MAX_PARTICLES <=? length (particles st.2))%nat = true) as ->.
        { apply Nat.leb_le. unfold SIM_CONFIG.MAX_PARTICLES. lia. }
        cbn [particles set_clock]. lia.
    + cbn [fire snd fst]. apply runTask_population. done.
Qed.

Lemma nodes_advance t es w : nodes (advance t es w) = nodes w.
Proof.
  unfold advance. destruct (_ <=? _)%Z; [done|]. cbn [nodes set_clock].
  set (st := (0%nat, set_timers _ w)).
  change (nodes w) with (nodes st.2). generalize st. clear st.
  induction (inDueOrder _) as [|x l IH]; intros st; [done|].
  cbn [fold_left]. rewrite IH. cbn [fire snd].
  destruct x.2; simpl; try done. by rewrite nodes_spawnParticle.
Qed.

(** X15: the passing of time.  [advance t] does nothing when [t] is not
    after the clock.  Otherwise it sets the clock to [t], keeps exactly the
    timers due after [t], in their order, leaves the nodes and the angular
    velocity alone, and, when the values of [Math.random] lie in [0, 1)
    and the store holds at most 8 particles, leaves
    [min 8 (n + r)] particles in the store, [n] being the number before
    and [r] the number of replacement spawns due by [t]: every due
    replacement adds a particle until the cap is reached. *)
Theorem advance_outcome t es w :
  ((t <= clock w)%Z -> advance t es w = w)
  /\ ((clock w < t)%Z ->
      clock (advance t es w) = t
      /\ timers (advance t es w)
         = List.filter (fun x : Z * Task => negb (x.1 <=? t)%Z) (timers w)
      /\ nodes (advance t es w) = nodes w
      /\ gridAngularVelocity (advance t es w) = gridAngularVelocity w
      /\ ((forall k, 0 <= pick (es k) /\ pick (es k) < 1) ->
          (length (particles w) <= SIM_CONFIG.MAX_PARTICLES)%nat ->
          length (particles (advance t es w))
          = Nat.min SIM_CONFIG.MAX_PARTICLES (length (particles w) + respawnsDue t w))).
Proof.
  split.
  - intros H. unfold advance. apply Z.leb_le in H. by rewrite H.
  - intros H.
    assert ((t <=? clock w)%Z = false) as Hleb by (apply Z.leb_gt; lia).
    split; [|split; [|split; [|split]]].
    + unfold advance. by rewrite Hleb.
    + unfold advance. rewrite Hleb. cbn [timers set_clock].
      by rewrite (proj1 (fire_fields es _ _)).
    + apply nodes_advance.
    + apply angular_advance.
    + intros Hes Hcap. unfold advance. rewrite Hleb. cbn [particles set_clock].
      rewrite fire_particles; [|done|done].
      cbn [snd particles set_timers]. f_equal. f_equal.
      unfold respawnsDue. rewrite filter_inDueOrder, filter_filter. done.
Qed.

Lemma advance_outcome_witness :
  advance 0 (fun _ => quiet "r") started = started
  /\ clock (advance 2000 (fun _ => quiet "r") started) = 2000%Z.
Proof.
  split.
  - apply (proj1 (advance_outcome 0 (fun _ => quiet "r") started)). vm_compute. discriminate.
  - apply (proj2 (advance_outcome 2000 (fun _ => quiet "r") started)). vm_compute. reflexivity.
Defined.

(** ** Reachable states *)

Section Reachable.
Variable Math_sqrt : Q -> Q.

Lemma nodes_perform w a : nodes (perform Math_sqrt w a) = nodes w.
Proof.
  destruct a; simpl.
  - apply nodes_spawnParticle.
  - apply nodes_processFieldDynamics.
  - apply nodes_advance.
Qed.

Lemma bandSafe_nodes w w' : nodes w' = nodes w -> bandSafe w -> bandSafe w'.
Proof. intros H. unfold bandSafe, nonCornerNodes. by rewrite H. Qed.

Lemma perform_ok w a :
  bandSafe w -> tame a ->
  Forall (fun p => inBounds p /\ inBand p) (particles w) ->
  Forall (fun p => inBounds p /\ inBand p) (particles (perform Math_sqrt w a)).
Proof.
  intros Hsafe Htame H. destruct a as [pos e|e|t es]; simpl.
  - by apply spawnParticle_ok.
  - apply processFieldDynamics_ok; try done.
    eapply Forall_impl; [exact H|]. by intros p [? _].
  - unfold advance. destruct (_ <=? _)%Z; [done|]. cbn [particles set_clock].
    set (l := inDueOrder _). set (st := (0%nat, set_timers _ w)).
    assert (Forall (fun p => inBounds p /\ inBand p) (particles st.2)) as Hst by done.
    assert (bandSafe st.2) as Hsafe' by done.
    clearbody st l. revert st Hst Hsafe'.
    induction l as [|x l IH]; intros st Hst Hsafe'; [done|].
    cbn [fold_left]. apply IH; cbn [fire snd].
    + destruct x.2; simpl; try done.
      apply spawnParticle_ok; [done| |done]. simpl. apply Htame.
    + eapply bandSafe_nodes; [|exact Hsafe'].
      destruct x.2; simpl; try done. by rewrite nodes_spawnParticle.
Qed.

Lemma has_target w p :
  nodes w <> [] -> targetOk w p -> is_Some (targetNodeId p).
Proof.
  intros Hne. unfold targetOk. destruct (targetNodeId p); [by eexists|done].
Qed.

Lemma perform_targetOk w a :
  Forall (fun n => node_id n <> EmptyString) (nodes w) ->
  Forall (targetOk w) (particles w) ->
  Forall (targetOk (perform Math_sqrt w a)) (particles (perform Math_sqrt w a)).
Proof.
  intros Hids Hinv. destruct a; simpl.
  - by apply targetOk_spawnParticle.
  - by apply targetOk_processFieldDynamics.
  - by apply targetOk_advance.
Qed.

(** X16: the states that the service reaches from its constructor by
    calls of [spawnParticle], ticks and the passing of time.  In every
    such state the nodes are those of the generated grid; the amplitude of
    every particle lies in [0.4, 1], its harmonic factor in [1, 4] and its
    energy in [0.1, 1]; every particle has a target; and when the values
    of [Math.random] lie in [0, 1) and every position passed to
    [spawnParticle] has a non-negative hash, every frequency lies in the
    band [100, 999]. *)
Theorem reachable_invariants actions now e :
  let w := run Math_sqrt actions (boot now e) in
  nodes w = generateNodes SIM_CONFIG.GRID_SIZE
  /\ Forall inBounds (particles w)
  /\ Forall (fun p => is_Some (targetNodeId p)) (particles w)
  /\ (unitRange e -> Forall tame actions -> Forall inBand (particles w)).
Proof.
  intros w. subst w.
  assert (forall w0,
            nodes w0 = generateNodes SIM_CONFIG.GRID_SIZE ->
            Forall (targetOk w0) (particles w0) ->
            nodes (run Math_sqrt actions w0) = generateNodes SIM_CONFIG.GRID_SIZE
            /\ Forall (targetOk (run Math_sqrt actions w0))
                      (particles (run Math_sqrt actions w0))) as Hrun.
  { unfold run. induction actions as [|a rest IH]; intros w0 Hn Ht; [done|].
    cbn [fold_left]. apply IH.
    - by rewrite nodes_perform.
    - apply perform_targetOk; [|done]. rewrite Hn. exact generated_ids_nonempty. }
  destruct (Hrun (boot now e) (nodes_boot now e) (targetOk_boot now e)) as [Hn Ht].
  split; [exact Hn|]. split; [apply run_inBounds|]. split.
  - eapply Forall_impl; [exact Ht|]. intros p Hp.
    apply (has_target (run Math_sqrt actions (boot now e))); [|done].
    rewrite Hn. by vm_compute.
  - intros He Htame.
    assert (Forall (fun p => inBounds p /\ inBand p) (particles (boot now e))) as H0.
    { unfold boot. apply spawnParticle_ok; [|exact He|apply Forall_nil_2].
      by apply generated_bandSafe. }
    assert (forall w0,
              nodes w0 = generateNodes SIM_CONFIG.GRID_SIZE ->
              Forall (fun p => inBounds p /\ inBand p) (particles w0) ->
              Forall (fun p => inBounds p /\ inBand p)
                     (particles (run Math_sqrt actions w0))) as Hband.
    { unfold run. clear Hrun Hn Ht H0.
      induction Htame as [|a rest Ha _ IH]; intros w0 Hn H0; [done|].
      cbn [fold_left]. apply IH.
      - by rewrite nodes_perform.
      - apply perform_ok; [by apply generated_bandSafe|done|done]. }
    eapply Forall_impl; [apply (Hband (boot now e) (nodes_boot now e) H0)|].
    by intros p [_ ?].
Qed.

(** X17: distinct identifiers stay distinct.  The update of a tick keeps
    the identifiers of the store pairwise distinct, and so does a spawn
    whose new identifier is not in the store; the identifiers after a
    spawn are those before it and at most the new one. *)
Theorem distinct_ids_preserved w :
  NoDup (id <$> particles w) ->
  (forall e, NoDup (id <$> particles (updateParticles Math_sqrt e w)))
  /\ (forall pos e, fresh_id e ∉ id <$> particles w ->
        NoDup (id <$> particles (spawnParticle pos e w)))
  /\ (forall pos e pid, pid ∈ id <$> particles (spawnParticle pos e w) ->
        pid ∈ id <$> particles w \/ pid = fresh_id e).
Proof.
  intros Hnd. split; [|split].
  - intros e. by apply updateParticles_distinct.
  - intros pos e Hfresh. by apply spawnParticle_distinct.
  - intros pos e pid. unfold spawnParticle.
    destruct (_ <=? _)%nat; [by left|].
    destruct (match pos with Some _ => _ | None => _ end) as [f|]; [|by left].
    unfold updateTargetNodes. cbn [particles set_particles].
    rewrite <- list_fmap_compose, fmap_app, elem_of_app. simpl.
    intros [H|H]; [by left|]. right. by apply list_elem_of_singleton in H.
Qed.

End Reachable.

Lemma reachable_invariants_witness :
  Forall inBand (particles (run sqrt_floor [Tick calm; Spawn None (quiet "b")]
                              (boot 1000 (quiet "a")))).
Proof.
  apply (proj2 (proj2 (proj2
           (reachable_invariants sqrt_floor [Tick calm; Spawn None (quiet "b")]
              1000 (quiet "a"))))).
  - unfold unitRange. simpl. lra.
  - apply Forall_cons_2; [|apply Forall_cons_2; [|apply Forall_nil_2]].
    + unfold tame, unitRange. simpl. lra.
    + unfold tame, unitRange. simpl. lra.
Defined.

Lemma distinct_ids_preserved_witness :
  NoDup (id <$> particles (updateParticles sqrt_floor calm duo)).
Proof. apply (proj1 (distinct_ids_preserved sqrt_floor duo duo_ids)). Defined.

(** * The scene: the bookkeeping of the effects *)

(** ** The effects over the events *)

Lemma handleCollision_spec sc ev :
  let sc' := handleCollision sc ev in
  stabilizerMeshes sc' = stabilizerMeshes sc
  /\ particleLastNode sc' = particleLastNode sc
  /\ handledSupernovas sc' = handledSupernovas sc
  /\ supernovaVisuals sc' = supernovaVisuals sc
  /\ handledCollisions sc' = handledCollisions sc ∪ {[collision_id ev]}
  /\ collisionVisuals sc'
     = collisionVisuals sc
       ++ (if bool_decide (collision_id ev ∈ handledCollisions sc) then []
           else [collision_id ev]).
Proof.
  cbv zeta. unfold handleCollision.
  destruct (bool_decide _) eqn:E.
  - apply bool_decide_eq_true in E. rewrite app_nil_r. repeat split; try done.
    apply set_eq. intros x. rewrite elem_of_union, elem_of_singleton.
    split; [by left|]. intros [?| ->]; done.
  - unfold collisionVisuals, supernovaVisuals. simpl. rewrite !omap_app. simpl.
    rewrite app_nil_r. done.
Qed.

Lemma handleSupernova_spec sc ev :
  let sc' := handleSupernova sc ev in
  stabilizerMeshes sc' = stabilizerMeshes sc
  /\ particleLastNode sc' = particleLastNode sc
  /\ handledCollisions sc' = handledCollisions sc
  /\ collisionVisuals sc' = collisionVisuals sc
  /\ handledSupernovas sc' = handledSupernovas sc ∪ {[supernova_id ev]}
  /\ supernovaVisuals sc'
     = supernovaVisuals sc
       ++ (if bool_decide (supernova_id ev ∈ handledSupernovas sc) then []
           else [supernova_id ev]).
Proof.
  cbv zeta. unfold handleSupernova.
  destruct (bool_decide _) eqn:E.
  - apply bool_decide_eq_true in E. rewrite app_nil_r. repeat split; try done.
    apply set_eq. intros x. rewrite elem_of_union, elem_of_singleton.
    split; [by left|]. intros [?| ->]; done.
  - unfold collisionVisuals, supernovaVisuals. simpl. rewrite !omap_app. simpl.
    rewrite app_nil_r. done.
Qed.

(** Adding a key to a list shown once. *)
Lemma shown_snoc (shown : list string) (handled : gset string) i :
  NoDup shown -> (forall x, x ∈ shown <-> x ∈ handled) ->
  NoDup (shown ++ (if bool_decide (i ∈ handled) then [] else [i]))
  /\ (forall x, x ∈ shown ++ (if bool_decide (i ∈ handled) then [] else [i])
                <-> x ∈ handled ∪ {[i]}).
Proof.
  intros Hnd Hiff. destruct (bool_decide _) eqn:E.
  - apply bool_decide_eq_true in E. rewrite app_nil_r. split; [done|].
    intros x. rewrite elem_of_union, elem_of_singleton, Hiff.
    split; [by left|]. intros [?| ->]; done.
  - apply bool_decide_eq_false in E. split.
    + apply NoDup_app. split; [done|]. split; [|apply NoDup_singleton].
      intros x Hx Hx'. apply list_elem_of_singleton in Hx' as ->. by apply E, Hiff.
    + intros x. rewrite elem_of_app, list_elem_of_singleton, elem_of_union,
        elem_of_singleton, Hiff. done.
Qed.

Lemma collisionEffect_spec w : forall sc,
  shownOnce sc ->
  let sc' := collisionEffect w sc in
  shownOnce sc'
  /\ stabilizerMeshes sc' = stabilizerMeshes sc
  /\ particleLastNode sc' = particleLastNode sc
  /\ supernovaVisuals sc' = supernovaVisuals sc
  /\ (forall i, i ∈ collisionVisuals sc' <->
        i ∈ collisionVisuals sc \/ i ∈ collision_id <$> collisionEvents w).
Proof.
  unfold collisionEffect. induction (collisionEvents w) as [|ev l IH]; intros sc H.
  - cbn [fold_left]. repeat split; try done; try apply H.
    + by left.
    + intros [?|Hx]; [done|]. by apply elem_of_nil in Hx.
  - cbn [fold_left].
    destruct (handleCollision_spec sc ev) as (H1 & H2 & H3 & H4 & H5 & H6).
    destruct H as (Hc & Hci & Hs & Hsi).
    destruct (shown_snoc _ _ (collision_id ev) Hc Hci) as [Hc' Hci'].
    destruct (IH (handleCollision sc ev)) as (G & G1 & G2 & G3 & G4).
    { unfold shownOnce. rewrite H6, H5, H4, H3. done. }
    cbv zeta in *. rewrite G1, G2, G3, H1, H2, H4.
    split; [done|]. repeat split; try done.
    + intros Hi. apply G4 in Hi. rewrite H6, elem_of_app in Hi. rewrite fmap_cons, elem_of_cons.
      destruct Hi as [[Hi|Hi]|Hi]; [by left| |by right; right].
      destruct (bool_decide _); [by apply elem_of_nil in Hi|].
      apply list_elem_of_singleton in Hi. by right; left.
    + intros Hi. apply G4. rewrite H6, elem_of_app. rewrite fmap_cons, elem_of_cons in Hi.
      destruct Hi as [Hi|[ -> |Hi]]; [by left; left| |by right].
      left. destruct (bool_decide _) eqn:E; [|right; by left].
      apply bool_decide_eq_true in E. left. by apply Hci.
Qed.

Lemma supernovaEffect_spec w : forall sc,
  shownOnce sc ->
  let sc' := supernovaEffect w sc in
  shownOnce sc'
  /\ stabilizerMeshes sc' = stabilizerMeshes sc
  /\ particleLastNode sc' = particleLastNode sc
  /\ collisionVisuals sc' = collisionVisuals sc
  /\ (forall i, i ∈ supernovaVisuals sc' <->
        i ∈ supernovaVisuals sc \/ i ∈ supernova_id <$> supernovaEvents w).
Proof.
  unfold supernovaEffect. induction (supernovaEvents w) as [|ev l IH]; intros sc H.
  - cbn [fold_left]. repeat split; try done; try apply H.
    + by left.
    + intros [?|Hx]; [done|]. by apply elem_of_nil in Hx.
  - cbn [fold_left].
    destruct (handleSupernova_spec sc ev) as (H1 & H2 & H3 & H4 & H5 & H6).
    destruct H as (Hc & Hci & Hs & Hsi).
    destruct (shown_snoc _ _ (supernova_id ev) Hs Hsi) as [Hs' Hsi'].
    destruct (IH (handleSupernova sc ev)) as (G & G1 & G2 & G3 & G4).
    { unfold shownOnce. rewrite H6, H5, H4, H3. done. }
    cbv zeta in *. rewrite G1, G2, G3, H1, H2, H4.
    split; [done|]. repeat split; try done.
    + intros Hi. apply G4 in Hi. rewrite H6, elem_of_app in Hi. rewrite fmap_cons, elem_of_cons.
      destruct Hi as [[Hi|Hi]|Hi]; [by left| |by right; right].
      destruct (bool_decide _); [by apply elem_of_nil in Hi|].
      apply list_elem_of_singleton in Hi. by right; left.
    + intros Hi. apply G4. rewrite H6, elem_of_app. rewrite fmap_cons, elem_of_cons in Hi.
      destruct Hi as [Hi|[ -> |Hi]]; [by left; left| |by right].
      left. destruct (bool_decide _) eqn:E; [|right; by left].
      apply bool_decide_eq_true in E. left. by apply Hsi.
Qed.

(** ** The particle effect *)

Lemma omap_call (f : SceneCall -> option string) c sc :
  omap f (calls (call c sc)) = omap f (calls sc) ++ omap f [c].
Proof. unfold call. simpl. by rewrite omap_app. Qed.

(** The calls of a scene after some more calls. *)
Ltac scene_calls :=
  unfold createdMeshes, createdTrails, fadedMeshes, collisionVisuals, supernovaVisuals;
  cbn [calls call set_particleLastNode set_stabilizerMeshes set_handledCollisions
       set_handledSupernovas stabilizerMeshes particleLastNode handledCollisions
       handledSupernovas];
  rewrite ?omap_app; cbn [omap list_omap]; rewrite ?app_nil_r, <- ?app_assoc.

(** One particle of the particle effect. *)
Lemma syncParticle_spec w sc p :
  let sc' := syncParticle w sc p in
  let created := if bool_decide (id p ∈ stabilizerMeshes sc) then [] else [id p] in
  stabilizerMeshes sc' = stabilizerMeshes sc ++ created
  /\ createdMeshes sc' = createdMeshes sc ++ created
  /\ createdTrails sc'
     = createdTrails sc ++ (if decide (leavesTrail w sc p) then [id p] else [])
  /\ particleLastNode sc'
     = (if decide (id p ∉ stabilizerMeshes sc \/ leavesTrail w sc p)
        then <[id p := targetNodeId p]> (particleLastNode sc)
        else particleLastNode sc)
  /\ fadedMeshes sc' = fadedMeshes sc
  /\ collisionVisuals sc' = collisionVisuals sc
  /\ supernovaVisuals sc' = supernovaVisuals sc
  /\ handledCollisions sc' = handledCollisions sc
  /\ handledSupernovas sc' = handledSupernovas sc.
Proof.
  cbv zeta. unfold syncParticle.
  destruct (bool_decide (id p ∈ stabilizerMeshes sc)) eqn:Emesh.
  - (* the mesh exists *)
    apply bool_decide_eq_true in Emesh.
    destruct (n ← targetNodeId p; findNode w n) as [targetNode|] eqn:Efound.
    + destruct (truthy (targetNodeId p)) eqn:Etruthy; cbn [andb].
      * destruct (bool_decide (particleLastNode sc !! id p = Some (targetNodeId p))) eqn:Elast;
          cbn [negb].
        -- apply bool_decide_eq_true in Elast.
           rewrite decide_False by (intros (_ & _ & _ & H); done).
           rewrite decide_False by (intros [H|(_ & _ & _ & H)]; done).
           scene_calls. done.
        -- apply bool_decide_eq_false in Elast.
           rewrite decide_True by (split; [done|split; [by rewrite Efound|done]]).
           rewrite decide_True by (right; split; [done|split; [by rewrite Efound|done]]).
           scene_calls. done.
      * rewrite decide_False by (intros (_ & _ & H & _); congruence).
        rewrite decide_False by (intros [H|(_ & _ & H & _)]; [done|congruence]).
        scene_calls. done.
    + rewrite decide_False by (intros (_ & H & _); rewrite Efound in H; by destruct H).
      rewrite decide_False
        by (intros [H|(_ & H & _)]; [done|rewrite Efound in H; by destruct H]).
      by rewrite !app_nil_r.
  - (* the mesh is created *)
    apply bool_decide_eq_false in Emesh.
    rewrite decide_False by (intros (H & _); done).
    rewrite decide_True by (by left).
    destruct (n ← targetNodeId p; findNode w n) as [targetNode|] eqn:Efound.
    + cbn [particleLastNode set_particleLastNode]. rewrite lookup_insert_eq.
      rewrite bool_decide_eq_true_2 by done. cbn [negb]. rewrite andb_false_r.
      scene_calls. done.
    + scene_calls. done.
Qed.

Lemma fadeMissing_spec parts : forall (l : list string) sc,
  let sc' := fold_left (fadeMissing parts) l sc in
  stabilizerMeshes sc' = stabilizerMeshes sc
  /\ particleLastNode sc' = particleLastNode sc
  /\ createdMeshes sc' = createdMeshes sc
  /\ createdTrails sc' = createdTrails sc
  /\ fadedMeshes sc' = fadedMeshes sc ++ filter (fun i => i ∉ id <$> parts) l
  /\ collisionVisuals sc' = collisionVisuals sc
  /\ supernovaVisuals sc' = supernovaVisuals sc
  /\ handledCollisions sc' = handledCollisions sc
  /\ handledSupernovas sc' = handledSupernovas sc.
Proof.
  induction l as [|i l IH]; intros sc; cbn [fold_left].
  - rewrite filter_nil, app_nil_r. done.
  - destruct (IH (fadeMissing parts sc i)) as (H1&H2&H3&H4&H5&H6&H7&H8&H9).
    cbv zeta in *. rewrite H1, H2, H3, H4, H5, H6, H7, H8, H9.
    unfold fadeMissing. rewrite findParticle_findIndex.
    destruct (findIndex parts i) as [k|] eqn:E.
    + apply findIndex_Some in E as (p & Hp & Hid). simpl. rewrite Hp. simpl.
      rewrite filter_cons_False; [done|].
      intros H. apply H. rewrite <- Hid. apply list_elem_of_fmap.
      exists p. split; [done|]. by eapply list_elem_of_lookup_2.
    + apply findIndex_None in E. simpl.
      rewrite filter_cons_True by done.
      scene_calls. done.
Qed.

(** The first loop of the particle effect on a list of particles with
    distinct identifiers: every particle meets the maps as they were before
    the loop. *)
Lemma syncParticles_spec w parts : forall sc,
  NoDup (id <$> parts) ->
  let sc' := fold_left (syncParticle w) parts sc in
  stabilizerMeshes sc'
  = stabilizerMeshes sc ++ (id <$> filter (fun p => id p ∉ stabilizerMeshes sc) parts)
  /\ createdMeshes sc'
     = createdMeshes sc ++ (id <$> filter (fun p => id p ∉ stabilizerMeshes sc) parts)
  /\ createdTrails sc' = createdTrails sc ++ (id <$> filter (leavesTrail w sc) parts)
  /\ (forall p, p ∈ parts ->
        particleLastNode sc' !! id p
        = if decide (id p ∉ stabilizerMeshes sc \/ leavesTrail w sc p)
          then Some (targetNodeId p) else particleLastNode sc !! id p)
  /\ (forall k, k ∉ id <$> parts -> particleLastNode sc' !! k = particleLastNode sc !! k)
  /\ fadedMeshes sc' = fadedMeshes sc
  /\ collisionVisuals sc' = collisionVisuals sc
  /\ supernovaVisuals sc' = supernovaVisuals sc
  /\ handledCollisions sc' = handledCollisions sc
  /\ handledSupernovas sc' = handledSupernovas sc.
Proof.
  induction parts as [|p parts IH]; intros sc Hnd; cbn [fold_left].
  - rewrite !filter_nil, !fmap_nil, !app_nil_r. repeat split; try done.
    intros q Hq. by apply elem_of_nil in Hq.
  - rewrite fmap_cons in Hnd. apply NoDup_cons in Hnd as [Hfresh Hnd].
    destruct (syncParticle_spec w sc p) as (S1&S2&S3&S4&S5&S6&S7&S8&S9).
    destruct (IH (syncParticle w sc p) Hnd) as (H1&H2&H3&H4&H5&H6&H7&H8&H9&H10).
    cbv zeta in *.
    set (sc1 := syncParticle w sc p) in *.
    (* the other particles see the maps of [sc] at their own key *)
    assert (forall q, q ∈ parts ->
              (id q ∈ stabilizerMeshes sc1 <-> id q ∈ stabilizerMeshes sc)
              /\ particleLastNode sc1 !! id q = particleLastNode sc !! id q) as Hother.
    { intros q Hq.
      assert (id q <> id p) as Hne.
      { intros Heq. apply Hfresh. rewrite <- Heq. apply list_elem_of_fmap. by exists q. }
      split.
      - rewrite S1, elem_of_app. split; [|by left].
        intros [?|Hx]; [done|]. destruct (bool_decide _); [by apply elem_of_nil in Hx|].
        by apply list_elem_of_singleton in Hx.
      - rewrite S4.
        destruct (decide (id p ∉ stabilizerMeshes sc \/ leavesTrail w sc p)); [|done].
        by rewrite lookup_insert_ne. }
    assert (filter (fun q => id q ∉ stabilizerMeshes sc1) parts
            = filter (fun q => id q ∉ stabilizerMeshes sc) parts) as Hf1.
    { apply filter_iff_on. intros q Hq.
      destruct (Hother q Hq) as [-> _]. done. }
    assert (filter (leavesTrail w sc1) parts = filter (leavesTrail w sc) parts) as Hf2.
    { apply filter_iff_on. intros q Hq.
      destruct (Hother q Hq) as [Hm Hl]. unfold leavesTrail. by rewrite Hm, Hl. }
    rewrite H1, H2, H3, H6, H7, H8, H9, H10, Hf1, Hf2, S1, S2, S3, S5, S6, S7, S8, S9.
    rewrite !filter_cons, <- !app_assoc.
    split; [|split; [|split; [|split; [|split]]]]; try done.
    + f_equal. destruct (bool_decide (id p ∈ stabilizerMeshes sc)) eqn:E.
      * apply bool_decide_eq_true in E. by rewrite decide_False by (intros H; by apply H).
      * apply bool_decide_eq_false in E. by rewrite decide_True.
    + f_equal. destruct (bool_decide (id p ∈ stabilizerMeshes sc)) eqn:E.
      * apply bool_decide_eq_true in E. by rewrite decide_False by (intros H; by apply H).
      * apply bool_decide_eq_false in E. by rewrite decide_True.
    + f_equal. by destruct (decide (leavesTrail w sc p)).
    + intros q Hq. apply elem_of_cons in Hq as [ -> |Hq].
      * rewrite H5 by done. rewrite S4.
        destruct (decide (id p ∉ stabilizerMeshes sc \/ leavesTrail w sc p));
          [by rewrite lookup_insert_eq|done].
      * rewrite (H4 q Hq). destruct (Hother q Hq) as [Hm Hl].
        assert ((id q ∉ stabilizerMeshes sc1 \/ leavesTrail w sc1 q)
                <-> (id q ∉ stabilizerMeshes sc \/ leavesTrail w sc q)) as Hiff.
        { unfold leavesTrail. by rewrite Hm, Hl. }
        destruct (decide (id q ∉ stabilizerMeshes sc1 \/ leavesTrail w sc1 q)) as [Hd|Hd];
          destruct (decide (id q ∉ stabilizerMeshes sc \/ leavesTrail w sc q)) as [Hd'|Hd'];
          try done; tauto.
    + intros k Hk. rewrite fmap_cons, not_elem_of_cons in Hk. destruct Hk as [Hk1 Hk2].
      rewrite (H5 k Hk2), S4.
      destruct (decide (id p ∉ stabilizerMeshes sc \/ leavesTrail w sc p)); [|done].
      by rewrite lookup_insert_ne.
Qed.

(** The first loop of the particle effect on any list of particles. *)
Lemma syncParticle_maps w sc p : mapsAgree sc -> mapsAgree (syncParticle w sc p).
Proof.
  intros [Hnd Hdom].
  destruct (syncParticle_spec w sc p) as (S1 & _ & _ & S4 & _).
  cbv zeta in *. unfold mapsAgree. rewrite S1, S4.
  destruct (bool_decide (id p ∈ stabilizerMeshes sc)) eqn:E.
  - apply bool_decide_eq_true in E. rewrite app_nil_r. split; [done|].
    intros i. destruct (decide (id p ∉ stabilizerMeshes sc \/ leavesTrail w sc p)); [|done].
    rewrite lookup_insert_is_Some, Hdom.
    split; [intros H; destruct (decide (id p = i)); [by left|by right]|].
    intros [<-|[_ H]]; [by apply Hdom|done].
  - apply bool_decide_eq_false in E. rewrite decide_True by (by left). split.
    + apply NoDup_app. split; [done|]. split; [|apply NoDup_singleton].
      intros x Hx Hx'. apply list_elem_of_singleton in Hx' as ->. done.
    + intros i. rewrite elem_of_app, list_elem_of_singleton, lookup_insert_is_Some, Hdom.
      split.
      * intros [H| ->]; [|by left]. destruct (decide (id p = i)); [by left|by right].
      * intros [<-|[_ H]]; [by right|by left].
Qed.

Lemma syncParticles_meshes w parts : forall sc,
  let sc' := fold_left (syncParticle w) parts sc in
  (exists news,
     stabilizerMeshes sc' = stabilizerMeshes sc ++ news
     /\ createdMeshes sc' = createdMeshes sc ++ news
     /\ forall i, i ∈ news <-> i ∈ id <$> parts /\ i ∉ stabilizerMeshes sc)
  /\ (mapsAgree sc -> mapsAgree sc')
  /\ fadedMeshes sc' = fadedMeshes sc
  /\ collisionVisuals sc' = collisionVisuals sc
  /\ supernovaVisuals sc' = supernovaVisuals sc
  /\ handledCollisions sc' = handledCollisions sc
  /\ handledSupernovas sc' = handledSupernovas sc.
Proof.
  induction parts as [|p parts IH]; intros sc; cbn [fold_left].
  - split; [|done]. exists []. rewrite !app_nil_r. split; [done|]. split; [done|].
    intros i. rewrite fmap_nil. split; [intros H|intros [H _]]; by apply elem_of_nil in H.
  - destruct (syncParticle_spec w sc p) as (S1&S2&_&_&S5&S6&S7&S8&S9).
    destruct (IH (syncParticle w sc p)) as ((news & H1 & H2 & H3) & H4 & H5&H6&H7&H8&H9).
    cbv zeta in *.
    rewrite H5, H6, H7, H8, H9, S5, S6, S7, S8, S9.
    split; [|split; [|done]].
    + exists ((if bool_decide (id p ∈ stabilizerMeshes sc) then [] else [id p]) ++ news).
      rewrite H1, H2, S1, S2, <- !app_assoc. split; [done|]. split; [done|].
      intros i. rewrite elem_of_app, H3, S1, fmap_cons, elem_of_cons, elem_of_app.
      destruct (bool_decide (id p ∈ stabilizerMeshes sc)) eqn:E.
      * apply bool_decide_eq_true in E. rewrite elem_of_nil. split.
        -- intros [?|(Hi & Hn)]; [done|]. split; [by right|]. tauto.
        -- intros ([ -> |Hi] & Hn); [done|]. right. split; [done|]. tauto.
      * apply bool_decide_eq_false in E. rewrite list_elem_of_singleton. split.
        -- intros [ -> |(Hi & Hn)]; [split; [by left|done]|]. split; [by right|]. tauto.
        -- intros ([ -> |Hi] & Hn); [by left|].
           destruct (decide (i = id p)) as [ -> |Hne]; [by left|]. right. split; [done|]. tauto.
    + intros Hm. by apply H4, syncParticle_maps.
Qed.

Lemma meshes_covered w sc p :
  p ∈ particles w -> id p ∈ stabilizerMeshes (particleEffect w sc).
Proof.
  intros Hp. unfold particleEffect.
  destruct (syncParticles_meshes w (particles w) sc) as ((news & H1 & _ & H3) & _).
  cbv zeta in *. set (sc1 := fold_left (syncParticle w) (particles w) sc) in *.
  destruct (fadeMissing_spec (particles w) (stabilizerMeshes sc1) sc1) as (G1 & _).
  cbv zeta in *. rewrite G1, H1, elem_of_app.
  destruct (decide (id p ∈ stabilizerMeshes sc)) as [Hin|Hout]; [by left|].
  right. apply H3. split; [|done]. apply list_elem_of_fmap. by exists p.
Qed.

(** X18: the particle effect makes the meshes follow the store.  After a
    run of the effect every particle of the store has a mesh; the meshes
    created are those of the particles that had none, each created once and
    registered behind the existing ones; no mesh is unregistered by the
    effect itself; the meshes that start to fade are exactly the registered
    meshes whose particle is no longer in the store; and when the two maps
    of the scene had the same keys, without repetition, they still have. *)
Theorem meshes_follow_store w sc :
  let sc' := particleEffect w sc in
  (forall p, p ∈ particles w -> id p ∈ stabilizerMeshes sc')
  /\ (exists news,
        stabilizerMeshes sc' = stabilizerMeshes sc ++ news
        /\ createdMeshes sc' = createdMeshes sc ++ news
        /\ forall i, i ∈ news <-> i ∈ id <$> particles w /\ i ∉ stabilizerMeshes sc)
  /\ fadedMeshes sc'
     = fadedMeshes sc ++ filter (fun i => i ∉ id <$> particles w) (stabilizerMeshes sc)
  /\ (mapsAgree sc -> mapsAgree sc').
Proof.
  intros sc'. subst sc'. unfold particleEffect.
  destruct (syncParticles_meshes w (particles w) sc)
    as ((news & H1 & H2 & H3) & H4 & H5 & _).
  cbv zeta in *. set (sc1 := fold_left (syncParticle w) (particles w) sc) in *.
  destruct (fadeMissing_spec (particles w) (stabilizerMeshes sc1) sc1)
    as (G1 & G2 & G3 & _ & G5 & _).
  cbv zeta in *. rewrite G1, G3, G5, H5.
  split; [|split; [|split]].
  - intros p Hp. rewrite <- G1. by apply (meshes_covered w sc p).
  - by exists news.
  - f_equal. rewrite H1, filter_app.
    rewrite (filter_none _ news); [by rewrite app_nil_r|].
    intros i Hi Hn. apply Hn. by apply H3.
  - intros Hm. destruct (H4 Hm) as [Hnd Hdom]. unfold mapsAgree. by rewrite G1, G2.
Qed.

(** X19: the trails of the particle effect, for a store with distinct
    identifiers.  A run of the effect creates a trail exactly for the
    particles whose mesh existed before the run, whose target is a node,
    and whose target differs from the one recorded for the mesh; so a
    particle leaves no trail in the run that creates its mesh.  After the
    run no particle of the store would leave a trail, and a second run on
    the same store creates no mesh and no trail and leaves both maps of the
    scene as they are. *)
Theorem trail_rule w sc :
  NoDup (id <$> particles w) ->
  let sc1 := particleEffect w sc in
  let sc2 := particleEffect w sc1 in
  createdTrails sc1 = createdTrails sc ++ (id <$> filter (leavesTrail w sc) (particles w))
  /\ createdMeshes sc1
     = createdMeshes sc ++ (id <$> filter (fun p => id p ∉ stabilizerMeshes sc) (particles w))
  /\ (forall p, p ∈ particles w -> ~ leavesTrail w sc1 p)
  /\ stabilizerMeshes sc2 = stabilizerMeshes sc1
  /\ particleLastNode sc2 = particleLastNode sc1
  /\ createdMeshes sc2 = createdMeshes sc1
  /\ createdTrails sc2 = createdTrails sc1.
Proof.
  intros Hnd sc1 sc2.
  assert (forall sc0,
            let sc' := particleEffect w sc0 in
            stabilizerMeshes sc'
            = stabilizerMeshes sc0
              ++ (id <$> filter (fun p => id p ∉ stabilizerMeshes sc0) (particles w))
            /\ createdMeshes sc'
               = createdMeshes sc0
                 ++ (id <$> filter (fun p => id p ∉ stabilizerMeshes sc0) (particles w))
            /\ createdTrails sc'
               = createdTrails sc0 ++ (id <$> filter (leavesTrail w sc0) (particles w))
            /\ (forall p, p ∈ particles w ->
                  particleLastNode sc' !! id p
                  = if decide (id p ∉ stabilizerMeshes sc0 \/ leavesTrail w sc0 p)
                    then Some (targetNodeId p) else particleLastNode sc0 !! id p)
            /\ (forall k, k ∉ id <$> particles w ->
                  particleLastNode sc' !! k = particleLastNode sc0 !! k)) as Hrun.
  { intros sc0. cbv zeta. unfold particleEffect.
    destruct (syncParticles_spec w (particles w) sc0 Hnd) as (H1&H2&H3&H4&H5&_).
    cbv zeta in *. set (s1 := fold_left (syncParticle w) (particles w) sc0) in *.
    destruct (fadeMissing_spec (particles w) (stabilizerMeshes s1) s1)
      as (G1 & G2 & G3 & G4 & _).
    cbv zeta in *. by rewrite G1, G2, G3, G4. }
  destruct (Hrun sc) as (A1 & A2 & A3 & A4 & A5). fold sc1 in A1, A2, A3, A4, A5.
  assert (forall p, p ∈ particles w -> id p ∈ stabilizerMeshes sc1) as Hmesh.
  { intros p Hp. apply (meshes_covered w sc p Hp). }
  assert (forall p, p ∈ particles w -> ~ leavesTrail w sc1 p) as Hno.
  { intros p Hp (Hm & Hfound & Htruthy & Hlast).
    rewrite (A4 p Hp) in Hlast.
    destruct (decide (id p ∉ stabilizerMeshes sc \/ leavesTrail w sc p)) as [Ht|Ht]; [done|].
    apply Ht. destruct (decide (id p ∈ stabilizerMeshes sc)); [|by left].
    right. done. }
  destruct (Hrun sc1) as (B1 & B2 & B3 & B4 & B5). fold sc2 in B1, B2, B3, B4, B5.
  assert (filter (fun p => id p ∉ stabilizerMeshes sc1) (particles w) = []) as F1.
  { apply filter_none. intros p Hp Hn. by apply Hn, Hmesh. }
  assert (filter (leavesTrail w sc1) (particles w) = []) as F2.
  { by apply filter_none. }
  rewrite F1 in B1, B2. rewrite F2 in B3. rewrite fmap_nil, app_nil_r in B1, B2, B3.
  split; [done|]. split; [done|]. split; [done|]. split; [done|].
  split; [|done].
  apply map_eq. intros k.
  destruct (decide (k ∈ id <$> particles w)) as [Hk|Hk]; [|by apply B5].
  apply list_elem_of_fmap in Hk as (p & -> & Hp).
  rewrite (B4 p Hp). rewrite decide_False; [done|].
  intros [H|H]; [by apply H, Hmesh|by apply (Hno p)].
Qed.

(** ** Sequences of effect runs *)

Lemma particleEffect_frame w sc :
  let sc' := particleEffect w sc in
  collisionVisuals sc' = collisionVisuals sc
  /\ supernovaVisuals sc' = supernovaVisuals sc
  /\ handledCollisions sc' = handledCollisions sc
  /\ handledSupernovas sc' = handledSupernovas sc
  /\ (mapsAgree sc -> mapsAgree sc').
Proof.
  cbv zeta. unfold particleEffect.
  destruct (syncParticles_meshes w (particles w) sc) as (_ & H4 & _ & H6 & H7 & H8 & H9).
  cbv zeta in *. set (sc1 := fold_left (syncParticle w) (particles w) sc) in *.
  destruct (fadeMissing_spec (particles w) (stabilizerMeshes sc1) sc1)
    as (G1 & G2 & _ & _ & _ & G6 & G7 & G8 & G9).
  cbv zeta in *. rewrite G6, G7, G8, G9. repeat split; try done.
  - rewrite G1. by apply H4.
  - rewrite G1, G2. by apply H4.
  - rewrite G1, G2. by apply H4.
Qed.

Lemma fadeComplete_maps i sc :
  mapsAgree sc ->
  mapsAgree (fadeComplete i sc) /\ i ∉ stabilizerMeshes (fadeComplete i sc).
Proof.
  intros [Hnd Hdom]. unfold fadeComplete, mapsAgree.
  cbn [stabilizerMeshes particleLastNode set_particleLastNode set_stabilizerMeshes].
  split; [split|].
  - by apply NoDup_filter.
  - intros k. rewrite list_elem_of_filter, lookup_delete_is_Some, Hdom.
    split; intros [? ?]; done.
  - rewrite list_elem_of_filter. by intros [? _].
Qed.

Lemma sceneStep_maps sc s : mapsAgree sc -> mapsAgree (sceneStep sc s).
Proof.
  intros H. destruct s as [w|w|w|i]; cbn [sceneStep].
  - by apply particleEffect_frame.
  - unfold collisionEffect. revert sc H.
    induction (collisionEvents w) as [|ev l IH]; intros sc H; [done|].
    cbn [fold_left]. apply IH.
    destruct (handleCollision_spec sc ev) as (H1 & H2 & _).
    unfold mapsAgree. cbv zeta in *. by rewrite H1, H2.
  - unfold supernovaEffect. revert sc H.
    induction (supernovaEvents w) as [|ev l IH]; intros sc H; [done|].
    cbn [fold_left]. apply IH.
    destruct (handleSupernova_spec sc ev) as (H1 & H2 & _).
    unfold mapsAgree. cbv zeta in *. by rewrite H1, H2.
  - by apply fadeComplete_maps.
Qed.

Lemma sceneStep_shown sc s :
  shownOnce sc ->
  shownOnce (sceneStep sc s)
  /\ (forall i, i ∈ collisionVisuals (sceneStep sc s) <->
        i ∈ collisionVisuals sc
        \/ exists w, s = CollisionEffect w /\ i ∈ collision_id <$> collisionEvents w)
  /\ (forall i, i ∈ supernovaVisuals (sceneStep sc s) <->
        i ∈ supernovaVisuals sc
        \/ exists w, s = SupernovaEffect w /\ i ∈ supernova_id <$> supernovaEvents w).
Proof.
  intros H. destruct s as [w|w|w|k]; cbn [sceneStep].
  - destruct (particleEffect_frame w sc) as (H1 & H2 & H3 & H4 & _).
    cbv zeta in *. unfold shownOnce. rewrite H1, H2, H3, H4.
    split; [done|]. split; intros i; (split; [by left|]); by intros [?|(? & ? & _)].
  - destruct (collisionEffect_spec w sc H) as (G & _ & _ & G3 & G4). cbv zeta in *.
    split; [done|]. split.
    + intros i. rewrite G4. split; intros [?|Hi]; try (by left).
      * right. by exists w.
      * destruct Hi as (w' & [= <-] & Hi). by right.
    + intros i. rewrite G3. split; [by left|]. by intros [?|(? & ? & _)].
  - destruct (supernovaEffect_spec w sc H) as (G & _ & _ & G3 & G4). cbv zeta in *.
    split; [done|]. split.
    + intros i. rewrite G3. split; [by left|]. by intros [?|(? & ? & _)].
    + intros i. rewrite G4. split; intros [?|Hi]; try (by left).
      * right. by exists w.
      * destruct Hi as (w' & [= <-] & Hi). by right.
  - split; [done|]. split; intros i; (split; [by left|]); by intros [?|(? & ? & _)].
Qed.

Lemma sceneRun_snoc steps s sc :
  sceneRun (steps ++ [s]) sc = sceneStep (sceneRun steps sc) s.
Proof. unfold sceneRun. by rewrite fold_left_app. Qed.

(** X20: every event is shown once.  Whatever the order and the number of
    the runs of the effects, and whatever the stores they see, the visuals
    of a collision have been triggered exactly once for each identifier
    among the collision events seen by a run of the collision effect, and
    for no other identifier; the same holds for the supernova events.  An
    event that is seen again by a later run, or a second event with an
    identifier already seen, triggers nothing. *)
Theorem events_shown_once steps :
  let sc := sceneRun steps newScene in
  NoDup (collisionVisuals sc)
  /\ NoDup (supernovaVisuals sc)
  /\ (forall i, i ∈ collisionVisuals sc <->
        exists w ev, CollisionEffect w ∈ steps /\ ev ∈ collisionEvents w
                     /\ collision_id ev = i)
  /\ (forall i, i ∈ supernovaVisuals sc <->
        exists w ev, SupernovaEffect w ∈ steps /\ ev ∈ supernovaEvents w
                     /\ supernova_id ev = i).
Proof.
  cbv zeta.
  assert (shownOnce (sceneRun steps newScene)
          /\ (forall i, i ∈ collisionVisuals (sceneRun steps newScene) <->
                exists w ev, CollisionEffect w ∈ steps /\ ev ∈ collisionEvents w
                             /\ collision_id ev = i)
          /\ (forall i, i ∈ supernovaVisuals (sceneRun steps newScene) <->
                exists w ev, SupernovaEffect w ∈ steps /\ ev ∈ supernovaEvents w
                             /\ supernova_id ev = i)) as (H & Hc & Hs).
  { induction steps as [|s steps IH] using rev_ind.
    - split; [|split].
      + unfold shownOnce. cbn. repeat split; try apply NoDup_nil_2;
          intros Hx; by apply elem_of_nil in Hx || apply not_elem_of_empty in Hx.
      + intros i. cbn. split; [intros Hx; by apply elem_of_nil in Hx|].
        intros (w & ev & Hx & _). by apply elem_of_nil in Hx.
      + intros i. cbn. split; [intros Hx; by apply elem_of_nil in Hx|].
        intros (w & ev & Hx & _). by apply elem_of_nil in Hx.
    - destruct IH as (H & Hc & Hs). rewrite sceneRun_snoc.
      destruct (sceneStep_shown (sceneRun steps newScene) s H) as (G & Gc & Gs).
      split; [done|]. split.
      + intros i. rewrite Gc, Hc. split.
        * intros [(w & ev & Hin & Hev)|(w & -> & Hi)].
          -- exists w, ev. split; [|done]. apply elem_of_app. by left.
          -- apply list_elem_of_fmap in Hi as (ev & -> & Hev).
             exists w, ev. split; [|done]. apply elem_of_app. right. by left.
        * intros (w & ev & Hin & Hev & <-). apply elem_of_app in Hin as [Hin|Hin].
          -- left. by exists w, ev.
          -- apply list_elem_of_singleton in Hin as <-. right. exists w. split; [done|].
             apply list_elem_of_fmap. by exists ev.
      + intros i. rewrite Gs, Hs. split.
        * intros [(w & ev & Hin & Hev)|(w & -> & Hi)].
          -- exists w, ev. split; [|done]. apply elem_of_app. by left.
          -- apply list_elem_of_fmap in Hi as (ev & -> & Hev).
             exists w, ev. split; [|done]. apply elem_of_app. right. by left.
        * intros (w & ev & Hin & Hev & <-). apply elem_of_app in Hin as [Hin|Hin].
          -- left. by exists w, ev.
          -- apply list_elem_of_singleton in Hin as <-. right. exists w. split; [done|].
             apply list_elem_of_fmap. by exists ev. }
  destruct H as (H1 & _ & H3 & _). done.
Qed.

(** X21: the two maps of the scene stay in step.  Whatever the order of
    the runs of the effects and of the ends of the fades, the meshes
    registered in [stabilizerMeshes] are pairwise distinct, the keys of
    [particleLastNode] are exactly the registered meshes, and when a fade
    has ended its mesh is registered no more. *)
Theorem scene_maps_agree steps :
  mapsAgree (sceneRun steps newScene)
  /\ forall i, i ∉ stabilizerMeshes (sceneRun (steps ++ [FadeComplete i]) newScene).
Proof.
  assert (mapsAgree (sceneRun steps newScene)) as H.
  { induction steps as [|s steps IH] using rev_ind.
    - split; [apply NoDup_nil_2|]. intros i. cbn. rewrite lookup_empty. split.
      + intros Hx. by apply elem_of_nil in Hx.
      + intros [? ?]. done.
    - rewrite sceneRun_snoc. by apply sceneStep_maps. }
  split; [done|]. intros i. rewrite sceneRun_snoc. cbn [sceneStep].
  by apply fadeComplete_maps.
Qed.

(** ** The particle closest to a node *)

Lemma closestParticle_snoc nodePosition closestPos positions x :
  fold_left (closer nodePosition) (positions ++ [x]) (None, closestPos)
  = closer nodePosition (fold_left (closer nodePosition) positions (None, closestPos)) x.
Proof. by rewrite fold_left_app. Qed.

Lemma closest_fold nodePosition closestPos positions :
  positions <> [] ->
  exists (i : nat) best,
    fold_left (closer nodePosition) positions (None, closestPos)
    = (Some (distanceToSquared nodePosition best), best)
    /\ positions !! i = Some best
    /\ (forall (j : nat) q, positions !! j = Some q ->
          distanceToSquared nodePosition best <= distanceToSquared nodePosition q)
    /\ (forall (j : nat) q, (j < i)%nat -> positions !! j = Some q ->
          distanceToSquared nodePosition best < distanceToSquared nodePosition q).
Proof.
  induction positions as [|x pre IH] using rev_ind; [done|]. intros _.
  rewrite closestParticle_snoc.
  destruct pre as [|y pre'] eqn:Epre.
  - exists 0%nat, x. cbn. split; [done|]. split; [done|]. split.
    + intros [|j] q Hq; [|done]. injection Hq as <-. lra.
    + intros j q Hj. lia.
  - rewrite <- Epre in *. destruct IH as (i & best & Hfold & Hi & Hmin & Hfirst).
    { rewrite Epre. done. }
    rewrite Hfold. unfold closer. cbn [fst].
    destruct (Js.lt (distanceToSquared nodePosition x)
                    (distanceToSquared nodePosition best)) eqn:Elt.
    + apply lt_spec in Elt.
      exists (length pre), x. split; [done|]. split.
      { by rewrite lookup_app_r, Nat.sub_diag by lia. }
      split.
      * intros j q Hq. apply lookup_app_Some in Hq as [Hq|[_ Hq]].
        -- pose proof (Hmin j q Hq). lra.
        -- destruct (j - length pre)%nat; [|done]. injection Hq as <-. lra.
      * intros j q Hj Hq. rewrite lookup_app_l in Hq by done.
        pose proof (Hmin j q Hq). lra.
    + apply lt_spec_false in Elt.
      exists i, best. split; [done|]. split.
      { apply lookup_app_l_Some. done. }
      split.
      * intros j q Hq. apply lookup_app_Some in Hq as [Hq|[_ Hq]].
        -- by apply (Hmin j).
        -- destruct (j - length pre)%nat; [|done]. by injection Hq as <-.
      * intros j q Hj Hq.
        assert (j < length pre)%nat.
        { apply lookup_lt_Some in Hi. lia. }
        rewrite lookup_app_l in Hq by done. by apply (Hfirst j).
Qed.

(** X22: the search of [animate] for the particle closest to a node.
    Without particle positions the vector of the uniform is left as it is;
    otherwise it becomes the first of the positions at the least squared
    distance from the node. *)
Theorem closest_particle nodePosition closestPos positions :
  (positions = [] -> closestParticle nodePosition closestPos positions = closestPos)
  /\ (positions <> [] ->
      exists i : nat,
        positions !! i = Some (closestParticle nodePosition closestPos positions)
        /\ (forall (j : nat) q, positions !! j = Some q ->
              distanceToSquared nodePosition
                (closestParticle nodePosition closestPos positions)
              <= distanceToSquared nodePosition q)
        /\ (forall (j : nat) q, (j < i)%nat -> positions !! j = Some q ->
              distanceToSquared nodePosition
                (closestParticle nodePosition closestPos positions)
              < distanceToSquared nodePosition q)).
Proof.
  split.
  - intros ->. reflexivity.
  - intros Hne.
    destruct (closest_fold nodePosition closestPos positions Hne)
      as (i & best & Hfold & Hi & Hmin & Hfirst).
    unfold closestParticle. rewrite Hfold. cbn [snd]. by exists i.
Qed.

Lemma closest_particle_witness :
  closestParticle vzero below [] = below
  /\ exists i : nat,
       [below; vzero] !! i = Some (closestParticle vzero below [below; vzero]).
Proof.
  split.
  - by apply (proj1 (closest_particle vzero below [])).
  - destruct (proj2 (closest_particle vzero below [below; vzero])) as (i & Hi & _).
    + discriminate.
    + by exists i.
Defined.

Lemma trail_rule_witness :
  createdTrails (particleEffect duo newScene)
  = createdTrails newScene ++ (id <$> filter (leavesTrail duo newScene) (particles duo)).
Proof. exact (proj1 (trail_rule duo newScene duo_ids)). Defined.

Lemma meshes_follow_store_witness :
  mapsAgree (particleEffect duo newScene).
Proof.
  apply (proj2 (proj2 (proj2 (meshes_follow_store duo newScene)))).
  split; [apply NoDup_nil_2|]. intros i. cbn. rewrite lookup_empty. split.
  - intros Hx. by apply elem_of_nil in Hx.
  - intros [? ?]. done.
Defined.

(** * Further sample stores *)

Lemma started_occupancy :
  nodeOccupancy calm started = [] ++ ("-3_-3_-2"%string, ["a"%string]) :: [].
Proof. vm_compute. reflexivity. Qed.

Lemma started_energy : forall p, p ∈ particles started -> energyLevel p <= 202 # 1000.
Proof.
  intros p Hp.
  assert (Forall (fun p => energyLevel p <= 202 # 1000) (particles started)) as H.
  { apply Forall_cons_2; [|apply Forall_nil_2]. vm_compute. discriminate. }
  rewrite Forall_forall in H. by apply H.
Qed.

Lemma duo_energy :
  forall p, p ∈ assigned calm duo -> id p ∈ ["a"; "b"]%string ->
    energyLevel p + (2 # 10) * inject_Z (Z.of_nat (length ["a"; "b"]%string - 1)) < 1.
Proof.
  intros p Hp _.
  assert (Forall (fun p => energyLevel p
                           + (2 # 10) * inject_Z (Z.of_nat (length ["a"; "b"]%string - 1)) < 1)
                 (assigned calm duo)) as H.
  { apply Forall_cons_2; [|apply Forall_cons_2; [|apply Forall_nil_2]];
      vm_compute; reflexivity. }
  rewrite Forall_forall in H. by apply H.
Qed.

Lemma tick_population_witness :
  particles (processFieldDynamics sqrt_floor calm (blank 0)) = [].
Proof.
  apply (proj2 (proj2 (proj2 (tick_population sqrt_floor calm (blank 0))))).
  reflexivity.
Defined.

Lemma quiet_update_witness :
  particles (updateParticles sqrt_floor calm started) = assigned calm started.
Proof.
  refine (proj1 (quiet_update sqrt_floor calm started _)).
  intros k. etrans; [apply length_filter|]. vm_compute. lia.
Defined.

Lemma supernova_threshold_witness :
  "a"%string ∈ id <$> particles (updateParticles sqrt_floor calm duo).
Proof.
  refine (proj2 (supernova_threshold sqrt_floor calm duo [] "-3_-3_-2" ["a"; "b"]%string []
                   duo_ids duo_occupancy _) duo_energy "a"%string _).
  - simpl. lia.
  - by left.
Defined.

Lemma supernova_balance_witness :
  (length (particles (updateParticles sqrt_floor calm duo))
   + 2 * explosionsToProcess (fieldPass sqrt_floor calm duo)
   <= length (particles duo))%nat.
Proof.
  exact (proj1 (proj2 (proj2 (supernova_balance sqrt_floor calm duo duo_ids)))).
Defined.

Lemma lone_particle_survives_witness :
  exists p,
    p ∈ assigned calm started /\ id p = "a"%string
    /\ targetNodeId p = Some "-3_-3_-2"%string
    /\ p ∈ particles (updateParticles sqrt_floor calm started).
Proof.
  exact (lone_particle_survives sqrt_floor calm started [] "-3_-3_-2" "a" []
           started_particle_ids started_occupancy).
Defined.

Lemma damping_only_witness :
  veq (gridAngularVelocity (processFieldDynamics sqrt_floor calm started))
      (multiplyScalar (97 # 100) (gridAngularVelocity started)).
Proof. exact (damping_only sqrt_floor calm started started_particle_ids started_energy). Defined.

(** * The collision at a node and the store *)

Lemma keeps_target (p : ParticleState) : set_targetNodeId (targetNodeId p) p = p.
Proof. by destruct p. Qed.

(** The threshold rule keeps every particle of the store; when it spawns,
    the targets are assigned anew. *)
Lemma thresholdRule_keeps e w p :
  p ∈ particles w ->
  exists q, q ∈ particles (thresholdRule e w) /\ q = set_targetNodeId (targetNodeId q) p.
Proof.
  intros Hp.
  assert (exists q, q ∈ particles w /\ q = set_targetNodeId (targetNodeId q) p) as Hsame.
  { exists p. by rewrite keeps_target. }
  unfold thresholdRule. destruct (_ && _); [|done].
  unfold spawnParticle. destruct (_ <=? _)%nat; [done|].
  destruct (randomFrequency _ _) as [freq|]; [|done].
  unfold updateTargetNodes.
  cbn [particles set_particles].
  eexists. split.
  - apply list_elem_of_fmap. exists p. split; [reflexivity|].
    apply elem_of_app. by left.
  - reflexivity.
Qed.

Section Store.
Variable Math_sqrt : Q -> Q.

(** C2: in a tick on a store with distinct identifiers, when the callback
    of a node with at least two occupants runs, every occupant is written
    once and nothing else is:
    the occupant [p] at position [k] becomes [resonate p others p], where
    [others] are the other occupants as the array holds them at that
    moment (those before [k] already updated, those behind not yet).  With
    [n] the number of the others, its harmonic factor becomes
    [min 4 (h + (1 - |base - mean base| / 899)^2 * ((a + mean a) / 2)
    * (0.6 + n * 0.2))], computed from [baseFrequency], its amplitude
    [min 1 (a + (a + mean a) / 2 * 0.15)] and its energy
    [min 1 (e + 0.2 * n)]; none of the three decreases, the attributes
    being within their bounds before the tick.  No later callback
    of the pass writes the occupant again: it is what the pass ends with,
    and what the update stores unless a supernova has marked its
    identifier, in which case no particle with that identifier is stored;
    the threshold rule that ends the tick keeps it, with its target
    assigned anew when the rule spawns. *)
Theorem collision_update e w pre nid pIds post :
  NoDup (id <$> particles w) ->
  nodeOccupancy e w = pre ++ (nid, pIds) :: post ->
  (2 <= length pIds)%nat ->
  let before := updated (passAfter Math_sqrt e w pre) in
  let after := updated (processNode Math_sqrt (passAfter Math_sqrt e w pre) (nid, pIds)) in
  let final := fieldPass Math_sqrt e w in
  let refs := colliding before pIds in
  length refs = length pIds
  /\ (forall j, j ∉ refs -> after !! j = before !! j)
  /\ forall k r, refs !! k = Some r ->
       exists p,
         assigned e w !! r = Some p /\ before !! r = Some p
         /\ pIds !! k = Some (id p)
         /\ let others := seenBy k refs before after in
            let n := inject_Z (Z.of_nat (length others)) in
            length others = (length pIds - 1)%nat
            /\ after !! r = Some (resonate p others p)
            /\ updated final !! r = Some (resonate p others p)
            /\ (id p ∉ particleIdsToRemove final ->
                resonate p others p ∈ particles (updateParticles Math_sqrt e w)
                /\ forall w0, rotate Math_sqrt w0 = w ->
                     exists q, q ∈ particles (processFieldDynamics Math_sqrt e w0)
                               /\ q = set_targetNodeId (targetNodeId q)
                                        (resonate p others p))
            /\ (id p ∈ particleIdsToRemove final ->
                id p ∉ id <$> particles (updateParticles Math_sqrt e w))
            /\ harmonicFactor (resonate p others p)
               = Qmin 4 (harmonicFactor p
                         + Js.sq (1 - Qabs (baseFrequency p - mean baseFrequency others)
                                      / (999 - 100))
                           * ((amplitude p + mean amplitude others) / 2)
                           * ((6 # 10) + n * (2 # 10)))
            /\ amplitude (resonate p others p)
               = Qmin 1 (amplitude p
                         + (amplitude p + mean amplitude others) / 2 * (15 # 100))
            /\ energyLevel (resonate p others p)
               = Qmin 1 (energyLevel p + (2 # 10) * n)
            /\ (Forall inBounds (particles w) ->
                harmonicFactor p <= harmonicFactor (resonate p others p)
                /\ amplitude p <= amplitude (resonate p others p)
                /\ energyLevel p <= energyLevel (resonate p others p)).
Proof.
  intros Hnd Hocc Hlen before after final refs.
  destruct (entry_state Math_sqrt e w pre nid pIds post Hnd Hocc)
    as (Hnd' & Hp & Hin & Hsame).
  fold before in Hnd', Hin, Hsame.
  destruct (nodeOccupancy_entries e w Hnd pre nid pIds post Hocc) as (_ & _ & Hdisj).
  destruct (entry_node e w nid pIds) as [node Hnode].
  { rewrite Hocc. apply elem_of_app. right. by left. }
  { intros ->. simpl in Hlen. lia. }
  assert (findNode (world (passAfter Math_sqrt e w pre)) nid = Some node) as Hnode'.
  { unfold findNode in *. unfold passAfter.
    by rewrite (proj1 (steady_processNodes Math_sqrt pre (mkPass w (assigned e w) ∅ 0%nat))). }
  destruct (processNode_found Math_sqrt _ nid pIds node Hnode' Hlen)
    as (a1 & Hu1 & _ & _ & _ & _ & _ & _ & Hproc).
  destruct (collideAll_spec before pIds Hnd' Hp Hin Hlen)
    as (Hl & Hat & Hid & Hout & Hres & _).
  fold refs in Hl, Hat, Hid, Hout, Hres.
  assert (after = (fold_left (collideOne refs) refs (before, false)).1) as Hafter.
  { subst after. rewrite Hproc, updated_collide, Hu1. fold before. fold (colliding before pIds).
    fold refs. destruct (1 <? length refs)%nat eqn:E; [done|].
    apply Nat.ltb_ge in E. lia. }
  rewrite <- Hafter in Hid, Hout, Hres.
  split; [done|]. split; [done|].
  intros k r Hk. destruct (Hat k r Hk) as (p & Hpr & Hpk).
  exists p.
  assert (id p ∈ pIds) as Hmem by (by eapply list_elem_of_lookup_2).
  assert (assigned e w !! r = Some p) as Hassigned.
  { pose proof (identity_passAfter Math_sqrt e w pre) as Hpass. fold before in Hpass.
    destruct (Forall2_lookup_r _ _ _ _ _ Hpass Hpr) as (p0 & Hp0 & Hsid).
    assert (id p0 ∈ pIds) as Hmem0 by (destruct Hsid as (<- & _); done).
    pose proof (Hsame r p0 Hp0 Hmem0). congruence. }
  split; [done|]. split; [done|]. split; [done|].
  cbv zeta.
  set (others := seenBy k refs before after).
  assert (forall r', r' ∈ refs -> is_Some (before !! r')) as Hvb.
  { intros r' Hr'. apply list_elem_of_lookup_1 in Hr'. destruct Hr' as [k' Hk'].
    destruct (Hat k' r' Hk') as (q & Hq & _). by exists q. }
  assert (forall r', r' ∈ refs -> is_Some (after !! r')) as Hva.
  { intros r' Hr'. apply lookup_lt_is_Some. rewrite <- (Forall2_length _ _ _ Hid).
    apply lookup_lt_is_Some. by apply Hvb. }
  assert (after !! r = Some (resonate p others p)) as Hwritten by (by apply Hres).
  assert (updated final !! r = Some (resonate p others p)) as Hfinal.
  { subst final. rewrite fieldPass_unfold, Hocc, passAfter_split.
    apply processNodes_untouched; [exact Hwritten|].
    intros k' pids Hin' Hmem'. apply (Hdisj k' pids (id p)); [|done|done].
    apply elem_of_app. by right. }
  split.
  { subst others. rewrite length_seenBy; try done; [lia|]. by eapply lookup_lt_Some. }
  split; [done|]. split; [done|]. split.
  { intros Hkept.
    assert (resonate p others p ∈ particles (updateParticles Math_sqrt e w)) as Hstored.
    { rewrite particles_updateParticles. unfold finalParticles.
      apply list_elem_of_filter. split; [done|]. by eapply list_elem_of_lookup_2. }
    split; [done|]. intros w0 Hrot. unfold processFieldDynamics. rewrite Hrot.
    by apply thresholdRule_keeps. }
  split.
  { intros Hmarked Hstill. rewrite particles_updateParticles in Hstill.
    unfold finalParticles in Hstill.
    apply list_elem_of_fmap in Hstill as (q & Hq & Hqin).
    apply list_elem_of_filter in Hqin as [Hqin _]. apply Hqin. by rewrite <- Hq. }
  split; [reflexivity|]. split; [reflexivity|]. split; [reflexivity|].
  intros Hb.
  assert (Forall inBounds before) as Hbefore by (by apply inBounds_passAfter).
  assert (Forall inBounds after) as Hafterb.
  { subst after. by apply inBounds_processNode. }
  assert (inBounds p) as Hpb.
  { rewrite Forall_lookup in Hbefore. by eapply Hbefore. }
  assert (Forall (fun q => 0 <= amplitude q) others) as Hothers.
  { subst others. unfold seenBy. apply Forall_app. split; apply Forall_forall; intros q Hq;
      apply list_elem_of_omap in Hq; destruct Hq as (r' & _ & Hr');
      apply inBounds_amplitude.
    - rewrite Forall_lookup in Hafterb. by eapply Hafterb.
    - rewrite Forall_lookup in Hbefore. by eapply Hbefore. }
  by destruct (resonate_grows p _ Hpb Hothers) as (_ & G1 & G2 & G3).
Qed.

End Store.

(** * The sample stores in a tick *)

Lemma duo_unmarked : particleIdsToRemove (fieldPass sqrt_floor calm duo) = ∅.
Proof. vm_compute. reflexivity. Qed.

Lemma collision_update_witness :
  exists p others,
    assigned calm duo !! 1%nat = Some p
    /\ resonate p others p ∈ particles (updateParticles sqrt_floor calm duo).
Proof.
  destruct (collision_update sqrt_floor calm duo [] "-3_-3_-2" ["a"; "b"]%string []
              duo_ids duo_occupancy ltac:(simpl; lia)) as (_ & _ & H).
  destruct (H 1%nat 1%nat) as (p & Hp & _ & Hid & Hrest).
  { vm_compute. reflexivity. }
  cbv zeta in Hrest. destruct Hrest as (_ & _ & _ & Hkept & _).
  exists p. eexists. split; [exact Hp|]. apply Hkept.
  rewrite duo_unmarked. apply not_elem_of_empty.
Defined.

Lemma heated_ids : NoDup (id <$> particles heated).
Proof. apply (bool_decide_unpack _). vm_compute. exact I. Qed.

Lemma heated_occupancy :
  nodeOccupancy calm heated = [] ++ ("-3_-3_-2"%string, ["a"; "b"]%string) :: [].
Proof. vm_compute. reflexivity. Qed.

Lemma supernova_resolution_witness :
  exists node,
    findNode heated "-3_-3_-2" = Some node
    /\ supernovaEvents
         (world (processNode sqrt_floor (passAfter sqrt_floor calm heated [])
                   ("-3_-3_-2"%string, ["a"; "b"]%string)))
       = supernovaEvents (world (passAfter sqrt_floor calm heated []))
         ++ [mkSupernova ("sn-" +:+ "-3_-3_-2" +:+ "-" +:+ Js.show (clock heated))
                         (position node) (clock heated)]
    /\ list_to_set ["a"; "b"]%string ⊆ particleIdsToRemove (fieldPass sqrt_floor calm heated).
Proof.
  destruct (supernova_resolution sqrt_floor calm heated [] "-3_-3_-2" ["a"; "b"]%string []
              heated_ids heated_occupancy ltac:(simpl; lia)) as (node & Hn & _ & Htrig & _).
  exists node. split; [exact Hn|].
  destruct Htrig as (E1 & _ & _ & _ & E5); [|by split].
  destruct (updated (processNode sqrt_floor (passAfter sqrt_floor calm heated [])
                       ("-3_-3_-2"%string, ["a"; "b"]%string)) !! 0%nat) as [p|] eqn:Ep.
  - exists 0%nat, p. split; [|split; [done|]].
    + vm_compute. left.
    + vm_compute in Ep. injection Ep as <-. vm_compute. discriminate.
  - vm_compute in Ep. discriminate.
Defined.



(** On [spinning] the corner occupant pushes the grid. *)
Lemma spinning_torque :
  nodeOccupancy calm (rotate sqrt_floor spinning) = [("-3_-3_-3"%string, ["a"%string])]
  /\ ~ veq (gridAngularVelocity (rotate sqrt_floor spinning)) vzero
  /\ ~ veq (cornerTorques sqrt_floor (rotate sqrt_floor spinning)
              (assigned calm (rotate sqrt_floor spinning))) vzero.
Proof.
  split; [vm_compute; reflexivity|].
  split; intros [H _]; vm_compute in H; discriminate.
Qed.


Lemma duo_collision :
  collisionEvents (run sqrt_floor [Spawn None (quiet "b"); Tick calm] started)
  = [mkCollision "-3_-3_-2-1000" "-3_-3_-2" ["a"; "b"]%string 1000].
Proof. vm_compute. reflexivity. Qed.

Lemma event_expiry_witness :
  mkCollision "-3_-3_-2-1000" "-3_-3_-2" ["a"; "b"]%string 1000
  ∈ collisionEvents
      (advance 2499 (fun _ => quiet "r")
         (run sqrt_floor [Spawn None (quiet "b"); Tick calm] started))
  /\ mkCollision "-3_-3_-2-1000" "-3_-3_-2" ["a"; "b"]%string 1000
     ∉ collisionEvents
         (advance 2500 (fun _ => quiet "r")
            (run sqrt_floor [Spawn None (quiet "b"); Tick calm] started)).
Proof.
  destruct (event_expiry sqrt_floor [Spawn None (quiet "b"); Tick calm] started
              (timely_boot 1000 (quiet "a") ltac:(lia)))
    as (_ & _ & _ & _ & _ & _ & Hlife & _).
  assert (mkCollision "-3_-3_-2-1000" "-3_-3_-2" ["a"; "b"]%string 1000
          ∈ collisionEvents (run sqrt_floor [Spawn None (quiet "b"); Tick calm] started))
    as Hin.
  { rewrite duo_collision. left. }
  split.
  - apply (Hlife 2499%Z _ _ Hin). simpl. lia.
  - intros Hstill. apply (Hlife 2500%Z _ _ Hin) in Hstill. simpl in Hstill. lia.
Defined.

(** * Repeated identifiers, and the order of the occupants *)

(** C2 as stated fails.  The second occupant of a node reads the
    amplitude that the first one has just been given: on [duo] the amplitudes are 0.4 after the decay;
    the first occupant is raised to 0.46, the second one to
    [0.4 + (0.4 + 0.46) / 2 * 0.15 = 0.4645] and to the harmonic factor
    1.344, not to the 0.46 and 1.32 that the means over the occupants as
    they entered the collision give.  And on [clones], where six particles
    with one identifier share a node, no occupant is updated at all. *)
Lemma means_read_updated_occupants :
  (exists p0 q0 p1 q1,
     assigned calm duo = [p0; q0]
     /\ particles (updateParticles sqrt_floor calm duo) = [p1; q1]
     /\ harmonicFactor q1 == 1344 # 1000
     /\ amplitude q1 == 4645 # 10000
     /\ ~ harmonicFactor q1 == Js.min 4 (harmonicFactor q0 + harmonicIncrease q0 [p0])
     /\ ~ amplitude q1 == Js.min 1 (amplitude q0 + amplitudeFactor q0 [p0] * (15 # 100)))
  /\ nodeOccupancy calm clones
     = [("-3_-3_-2"%string, ["a"; "a"; "a"; "a"; "a"; "a"]%string)]
  /\ particles (updateParticles sqrt_floor calm clones) = assigned calm clones.
Proof.
  split; [|split; vm_compute; reflexivity].
  do 4 eexists.
  split; [vm_compute; reflexivity|].
  split; [vm_compute; reflexivity|].
  split; [vm_compute; reflexivity|].
  split; [vm_compute; reflexivity|].
  split; intros H; vm_compute in H; discriminate.
Qed.

(** C3 as stated fails.  On [aliased] the node [-3_-3_-1] holds two particles named [a].  The
    callback of the node [-3_-3_-2], which runs first, looks up [a] and
    finds the energetic particle of the other node, raises its energy to 1
    and publishes a supernova.  When the callback of [-3_-3_-1] has run,
    an occupant of that node has energy 1, and no supernova event with the
    position of that node has been published: the only supernova event of
    the tick is that of [-3_-3_-2]. *)
Lemma aliased_supernova_missing :
  nodeOccupancy calm aliased
  = [("-3_-3_-2"%string, ["b"; "a"]%string)] ++ ("-3_-3_-1"%string, ["a"; "a"]%string) :: []
  /\ (let a := passAfter sqrt_floor calm aliased [("-3_-3_-2"%string, ["b"; "a"]%string)] in
      let a' := processNode sqrt_floor a ("-3_-3_-1"%string, ["a"; "a"]%string) in
      (exists r p, r ∈ colliding (updated a) ["a"; "a"]%string
                   /\ updated a' !! r = Some p /\ 1 <= energyLevel p)
      /\ supernovaEvents (world a') = supernovaEvents (world a))
  /\ supernova_id <$> supernovaEvents (updateParticles sqrt_floor calm aliased)
     = ["sn--3_-3_-2-1000"%string].
Proof.
  split; [vm_compute; reflexivity|]. split; [|vm_compute; reflexivity].
  cbv zeta. split; [|vm_compute; reflexivity].
  exists 1%nat. eexists. split; [|split].
  - vm_compute. left.
  - vm_compute. reflexivity.
  - vm_compute. discriminate.
Qed.


